(** * GateKeeper: the offline synchronisation run of the checkpoint client

    A shallow embedding of [handleSync] (src/components, the [Main]
    component) together with the IndexedDB layer of src/lib/db.ts and the
    response types of src/api/client.ts, and the properties of the
    reconciliation run proved or refuted on it.

    Conventions of the embedding:
    - a [Date] is its time value (milliseconds since the epoch, a [Z]); the
      ISO-8601 text produced by [toISOString] is identified with that number,
      so the [since] parameter and the persisted [lastSyncTime] are [Z] too;
    - a JS string is held as the bytes of its UTF-8 encoding, so equality
      of strings is equality of these; where the code units of the JS string
      matter (the order of IndexedDB keys) they are computed from the bytes;
    - a JS value that may be [undefined]/[null] is an [option];
    - a promise that is awaited settles as [Fulfilled v] or [Rejected e];
    - [console.log], [console.warn] and [console.error] have no effect on
      the state and are left out. *)

From Stdlib Require Import ZArith String List Bool Lia Permutation Sorted.
From stdpp Require Import gmap strings list pretty.
Import ListNotations.
Open Scope string_scope.

(** ** Data model (src/types) *)

Inductive EntryType := PERSONNEL | TRUCK | CAR | OTHER.
Inductive EntryStatus := ACTIVE | DELETED.

Inductive Payload :=
| PersonnelPayload (notes personnel_name id_number purpose : string)
| TruckPayload (notes plate_number company cargo_type : string)
| CarPayload (notes plate_number driver_name : string)
| OtherPayload (notes description asset_tag : string).

Record Entry := mkEntry {
  record_id : string;
  checkpoint_id : string;
  entry_type : EntryType;
  logging_user_id : string;
  client_ts : string;
  updated_at : string;
  created_at : string;
  status : EntryStatus;
  isPending : option bool;          (* isPending?: boolean *)
  payload : Payload
}.

(** [{ ...entry, isPending: false }] *)
Definition markSynced (e : Entry) : Entry :=
  {| record_id := record_id e; checkpoint_id := checkpoint_id e;
     entry_type := entry_type e; logging_user_id := logging_user_id e;
     client_ts := client_ts e; updated_at := updated_at e;
     created_at := created_at e; status := status e;
     isPending := Some false; payload := payload e |}.

(** Truthiness of [e.isPending] and of a string. *)
Definition pendingFlag (e : Entry) : bool :=
  match isPending e with Some b => b | None => false end.

Definition truthy (s : string) : bool := negb (s =? "").

(** ** Gateway responses (src/api/client.ts) *)

Record SyncPushResponse := mkPush {
  success : bool;
  accepted : Z;
  rejected : Z;
  rejected_ids : option (list string);   (* rejected_ids?: string[] *)
  message : string
}.

Record SyncPullResponse := mkPull {
  pull_entries : option (list Entry);    (* used as [entries || []] *)
  count : Z
}.

(** ** Component state and the local database *)

(** The React state of [Main] that [handleSync] reads or writes, and the
    [token] it gets from the authentication context. *)
Record Component := mkComponent {
  entries : list Entry;
  isOnline : bool;
  isSyncing : bool;
  syncError : option string;
  lastSyncTime : option Z;
  token : option string
}.

Definition setEntries (v : list Entry) (c : Component) : Component :=
  {| entries := v; isOnline := isOnline c; isSyncing := isSyncing c;
     syncError := syncError c; lastSyncTime := lastSyncTime c; token := token c |}.
Definition setIsOnline (v : bool) (c : Component) : Component :=
  {| entries := entries c; isOnline := v; isSyncing := isSyncing c;
     syncError := syncError c; lastSyncTime := lastSyncTime c; token := token c |}.
Definition setIsSyncing (v : bool) (c : Component) : Component :=
  {| entries := entries c; isOnline := isOnline c; isSyncing := v;
     syncError := syncError c; lastSyncTime := lastSyncTime c; token := token c |}.
Definition setSyncError (v : option string) (c : Component) : Component :=
  {| entries := entries c; isOnline := isOnline c; isSyncing := isSyncing c;
     syncError := v; lastSyncTime := lastSyncTime c; token := token c |}.
Definition setLastSyncTime (v : option Z) (c : Component) : Component :=
  {| entries := entries c; isOnline := isOnline c; isSyncing := isSyncing c;
     syncError := syncError c; lastSyncTime := v; token := token c |}.

(** The two object stores of src/lib/db.ts: ['entries'] keyed by
    [record_id], and the ['app-state'] key/value table. *)
Record Database := mkDatabase {
  db_entries : gmap string Entry;
  db_appState : gmap string Z
}.

Record World := mkWorld { comp : Component; db : Database }.

(** [saveEntries]: one [put] per entry, in order, in a single transaction. *)
Definition saveEntries (es : list Entry) (store : gmap string Entry) : gmap string Entry :=
  foldl (fun m e => <[record_id e := e]> m) store es.

(** [saveEntry]: a single [put]. *)
Definition saveEntry (e : Entry) (store : gmap string Entry) : gmap string Entry :=
  <[record_id e := e]> store.

Definition commitEntries (es : list Entry) (d : Database) : Database :=
  {| db_entries := saveEntries es (db_entries d); db_appState := db_appState d |}.

Definition setAppState (key : string) (value : Z) (d : Database) : Database :=
  {| db_entries := db_entries d; db_appState := <[key := value]> (db_appState d) |}.

(** ** The pure parts of [handleSync] *)

(** [pendingEntries = entries.filter(e => e.isPending)] *)
Definition pendingEntries (es : list Entry) : list Entry := List.filter pendingFlag es.

Definition hasId (id : string) (e : Entry) : bool := record_id e =? id.

(** [recordIdToSync ? pendingEntries.filter(e => e.record_id === recordIdToSync)
                    : pendingEntries] *)
Definition entriesToSync (recordIdToSync : option string) (es : list Entry) : list Entry :=
  match recordIdToSync with
  | Some id => if truthy id then List.filter (hasId id) (pendingEntries es)
               else pendingEntries es
  | None => pendingEntries es
  end.

(** [pushResponse.rejected_ids?.includes(entry.record_id)], as a condition. *)
Definition wasRejected (pushResponse : SyncPushResponse) (entry : Entry) : bool :=
  match rejected_ids pushResponse with
  | Some ids => existsb (String.eqb (record_id entry)) ids
  | None => false
  end.

(** [entriesToSync.some(e => e.record_id === entry.record_id)] *)
Definition wasInBatch (batch : list Entry) (entry : Entry) : bool :=
  existsb (fun e => record_id e =? record_id entry) batch.

(** The [entries.map(...)] that applies the push outcome. *)
Definition updatedEntries (es batch : list Entry) (pushResponse : SyncPushResponse)
  : list Entry :=
  List.map (fun entry =>
              if wasRejected pushResponse entry then entry
              else if wasInBatch batch entry then markSynced entry
              else entry) es.

(** [Array.prototype.findIndex]; [None] stands for the result -1, so the
    test [existingIndex >= 0] is the [Some] case. *)
Fixpoint findIndex {A} (p : A -> bool) (l : list A) : option nat :=
  match l with
  | [] => None
  | x :: l' => if p x then Some 0%nat else S <$> findIndex p l'
  end.

(** The body of [pulledEntries.forEach]. *)
Definition mergeOne (mergedEntries : list Entry) (serverEntry : Entry) : list Entry :=
  match findIndex (hasId (record_id serverEntry)) mergedEntries with
  | Some existingIndex => <[existingIndex := markSynced serverEntry]> mergedEntries
  | None => markSynced serverEntry :: mergedEntries          (* unshift *)
  end.

(** [mergedEntries] after the [forEach] over the pulled entries. *)
Definition mergedEntries (updated pulled : list Entry) : list Entry :=
  foldl mergeOne updated pulled.

(** The text of the rejection warning. *)
Definition rejectionMessage (ids : list string) : string :=
  pretty (length ids) ++ " entries were rejected due to conflicts".

(** ** Asynchronous programs

    The handler is an [async] function: it runs synchronously up to an
    [await], and is resumed when the awaited promise settles.  A program is
    a finite tree whose nodes are the state setters, [new Date()] and the
    four calls the handler awaits. *)

Inductive Thrown := ThrownError (msg : string) | ThrownOther.

Inductive Settled (A : Type) := Fulfilled (a : A) | Rejected (e : Thrown).
Arguments Fulfilled {A} a.
Arguments Rejected {A} e.

Inductive Prog (A : Type) : Type :=
| Ret (a : A)
| Throw (e : Thrown)
| SetState (f : Component -> Component) (k : Prog A)
| NewDate (k : Z -> Prog A)
| ApiSyncPush (tok : string) (batch : list Entry) (k : Settled SyncPushResponse -> Prog A)
| ApiSyncPull (tok : string) (since : option Z) (k : Settled SyncPullResponse -> Prog A)
| DbSaveEntries (es : list Entry) (k : Settled unit -> Prog A)
| DbSetAppState (key : string) (value : Z) (k : Settled unit -> Prog A).
Arguments Ret {A} a.
Arguments Throw {A} e.
Arguments SetState {A} f k.
Arguments NewDate {A} k.
Arguments ApiSyncPush {A} tok batch k.
Arguments ApiSyncPull {A} tok since k.
Arguments DbSaveEntries {A} es k.
Arguments DbSetAppState {A} key value k.

Fixpoint bind {A B} (f : A -> Prog B) (p : Prog A) : Prog B :=
  match p with
  | Ret a => f a
  | Throw e => Throw e
  | SetState g k => SetState g (bind f k)
  | NewDate k => NewDate (fun z => bind f (k z))
  | ApiSyncPush t b k => ApiSyncPush t b (fun r => bind f (k r))
  | ApiSyncPull t s k => ApiSyncPull t s (fun r => bind f (k r))
  | DbSaveEntries es k => DbSaveEntries es (fun r => bind f (k r))
  | DbSetAppState key v k => DbSetAppState key v (fun r => bind f (k r))
  end.

#[global] Instance Prog_ret : MRet Prog := @Ret.
#[global] Instance Prog_bind : MBind Prog := @bind.

(** [try { p } catch (error) { h error }] *)
Fixpoint tryCatch {A} (p : Prog A) (h : Thrown -> Prog A) : Prog A :=
  match p with
  | Ret a => Ret a
  | Throw e => h e
  | SetState g k => SetState g (tryCatch k h)
  | NewDate k => NewDate (fun z => tryCatch (k z) h)
  | ApiSyncPush t b k => ApiSyncPush t b (fun r => tryCatch (k r) h)
  | ApiSyncPull t s k => ApiSyncPull t s (fun r => tryCatch (k r) h)
  | DbSaveEntries es k => DbSaveEntries es (fun r => tryCatch (k r) h)
  | DbSetAppState key v k => DbSetAppState key v (fun r => tryCatch (k r) h)
  end.

(** [try { p } finally { fin }]: [fin] runs on every exit of [p]. *)
Fixpoint tryFinally {A} (p : Prog A) (fin : Prog unit) : Prog A :=
  match p with
  | Ret a => fin ;; Ret a
  | Throw e => fin ;; Throw e
  | SetState g k => SetState g (tryFinally k fin)
  | NewDate k => NewDate (fun z => tryFinally (k z) fin)
  | ApiSyncPush t b k => ApiSyncPush t b (fun r => tryFinally (k r) fin)
  | ApiSyncPull t s k => ApiSyncPull t s (fun r => tryFinally (k r) fin)
  | DbSaveEntries es k => DbSaveEntries es (fun r => tryFinally (k r) fin)
  | DbSetAppState key v k => DbSetAppState key v (fun r => tryFinally (k r) fin)
  end.

(** [await promise]: the value of a fulfilled promise, a throw otherwise. *)
Definition await {A} (r : Settled A) : Prog A :=
  match r with Fulfilled v => Ret v | Rejected e => Throw e end.

Definition setState (f : Component -> Component) : Prog unit := SetState f (Ret tt).
Definition newDate : Prog Z := NewDate Ret.
Definition api_sync_push (tok : string) (batch : list Entry) : Prog SyncPushResponse :=
  ApiSyncPush tok batch await.
Definition api_sync_pull (tok : string) (since : option Z) : Prog SyncPullResponse :=
  ApiSyncPull tok since await.
Definition db_saveEntries (es : list Entry) : Prog unit := DbSaveEntries es await.
Definition db_setAppState (key : string) (value : Z) : Prog unit :=
  DbSetAppState key value await.

(** [error instanceof Error ? error.message : 'Sync failed. Please try again.'] *)
Definition errorMessage (error : Thrown) : string :=
  match error with
  | ThrownError m => m
  | ThrownOther => "Sync failed. Please try again."
  end.

(** ** [handleSync]

    [c] is the render whose closure the handler is: the values of [entries],
    [isOnline], [isSyncing], [token] and [lastSyncTime] it captured. *)
Definition handleSync (c : Component) (recordIdToSync : option string) : Prog unit :=
  match token c with
  | None => Ret tt                                        (* !token *)
  | Some tok =>
    if negb (isOnline c) || isSyncing c || negb (truthy tok) then Ret tt else
    setState (setIsSyncing true) ;;
    setState (setSyncError None) ;;
    tryFinally
      (tryCatch
         (let batch := entriesToSync recordIdToSync (entries c) in
          if (length batch =? 0)%nat then
            setState (setIsSyncing false) ;; Ret tt              (* return *)
          else
            pushResponse ← api_sync_push tok batch ;
            let updated := updatedEntries (entries c) batch pushResponse in
            let since := lastSyncTime c in
            pullResponse ← api_sync_pull tok since ;
            let pulledEntries := default [] (pull_entries pullResponse) in
            let merged := mergedEntries updated pulledEntries in
            db_saveEntries merged ;;
            setState (setEntries merged) ;;
            newSyncTime ← newDate ;
            setState (setLastSyncTime (Some newSyncTime)) ;;
            db_setAppState "lastSyncTime" newSyncTime ;;
            match rejected_ids pushResponse with
            | Some ids =>
                if (0 <? length ids)%nat
                then setState (setSyncError (Some (rejectionMessage ids)))
                else Ret tt
            | None => Ret tt
            end)
         (fun error => setState (setSyncError (Some (errorMessage error)))))
      (setState (setIsSyncing false))
  end.

(** ** Running a program

    What the outside world answers during one run: the wall clock read by
    [new Date()], and how each awaited promise settles. *)
Record Env := mkEnv {
  clock : Z;
  push_reply : Settled SyncPushResponse;
  pull_reply : Settled SyncPullResponse;
  saveEntries_reply : Settled unit;
  setAppState_reply : Settled unit
}.

(** The calls a run issues, in order. *)
Inductive Call :=
| CallPush (tok : string) (batch : list Entry)
| CallPull (tok : string) (since : option Z)
| CallSaveEntries (es : list Entry)
| CallSetAppState (key : string) (value : Z).

Definition isPush (c : Call) : bool :=
  match c with CallPush _ _ => true | _ => false end.
Definition isPull (c : Call) : bool :=
  match c with CallPull _ _ => true | _ => false end.

Definition withComp (f : Component -> Component) (w : World) : World :=
  {| comp := f (comp w); db := db w |}.
Definition withDb (f : Database -> Database) (w : World) : World :=
  {| comp := comp w; db := f (db w) |}.

(** The effect on the database of a store call that settles as [r]: a
    [saveEntries] transaction commits all its puts or none of them. *)
Definition settleSave (es : list Entry) (r : Settled unit) (w : World) : World :=
  match r with Fulfilled _ => withDb (commitEntries es) w | Rejected _ => w end.
Definition settlePut (key : string) (value : Z) (r : Settled unit) (w : World) : World :=
  match r with Fulfilled _ => withDb (setAppState key value) w | Rejected _ => w end.

(** Big-step execution: the run from start to end, every promise settling
    as [env] says.  The result is the final world, the calls issued and how
    the program itself settled. *)
Fixpoint exec {A} (env : Env) (p : Prog A) (w : World) : World * list Call * Settled A :=
  match p with
  | Ret a => (w, [], Fulfilled a)
  | Throw e => (w, [], Rejected e)
  | SetState f k => exec env k (withComp f w)
  | NewDate k => exec env (k (clock env)) w
  | ApiSyncPush t b k =>
      let '(w', cs, r) := exec env (k (push_reply env)) w in (w', CallPush t b :: cs, r)
  | ApiSyncPull t s k =>
      let '(w', cs, r) := exec env (k (pull_reply env)) w in (w', CallPull t s :: cs, r)
  | DbSaveEntries es k =>
      let '(w', cs, r) :=
        exec env (k (saveEntries_reply env)) (settleSave es (saveEntries_reply env) w) in
      (w', CallSaveEntries es :: cs, r)
  | DbSetAppState key v k =>
      let '(w', cs, r) :=
        exec env (k (setAppState_reply env)) (settlePut key v (setAppState_reply env) w) in
      (w', CallSetAppState key v :: cs, r)
  end.

(** One run of the handler of the current render. *)
Definition runSync (env : Env) (recordIdToSync : option string) (w : World)
  : World * list Call * Settled unit :=
  exec env (handleSync (comp w) recordIdToSync) w.

Definition finalWorld (r : World * list Call * Settled unit) : World := fst (fst r).
Definition callsOf (r : World * list Call * Settled unit) : list Call := snd (fst r).

(** The three places a run is started from: the "Sync All" button
    ([onClick={() => handleSync()}]), the per-entry button of the entry list
    ([onSync(entry.record_id)]) and the 30-second interval
    ([setInterval(() => handleSync(), 30000)]). *)
Inductive Trigger := ManualAll | ManualOne (id : string) | Periodic.

Definition triggerArg (t : Trigger) : option string :=
  match t with ManualOne id => Some id | ManualAll | Periodic => None end.

Definition trigger (env : Env) (t : Trigger) (w : World) :=
  runSync env (triggerArg t) w.

(** ** Notions used in the statements

    The guard of the handler and the component state at the end of each
    path of a run. *)

Definition guardBlocks (c : Component) : bool :=
  match token c with
  | None => true
  | Some tok => negb (isOnline c) || isSyncing c || negb (truthy tok)
  end.

(** State after [setIsSyncing(true); setSyncError(null)]. *)
Definition started (c : Component) : Component :=
  setSyncError None (setIsSyncing true c).

(** State at the end of the [catch] and [finally] blocks. *)
Definition afterFailure (error : Thrown) (c : Component) : Component :=
  setIsSyncing false (setSyncError (Some (errorMessage error)) c).

(** The merged list a run builds from the two responses. *)
Definition mergedOf (c : Component) (recordIdToSync : option string)
    (pushResponse : SyncPushResponse) (pullResponse : SyncPullResponse) : list Entry :=
  mergedEntries
    (updatedEntries (entries c) (entriesToSync recordIdToSync (entries c)) pushResponse)
    (default [] (pull_entries pullResponse)).

(** State after [setEntries(mergedEntries); setLastSyncTime(newSyncTime)]. *)
Definition afterCommit (merged : list Entry) (now : Z) (c : Component) : Component :=
  setLastSyncTime (Some now) (setEntries merged (started c)).

(** The final [syncError] of a run that went through. *)
Definition rejectionWarning (pushResponse : SyncPushResponse) : option string :=
  match rejected_ids pushResponse with
  | Some ids => if (0 <? length ids)%nat then Some (rejectionMessage ids) else None
  | None => None
  end.

(** The merge, seen at one id. *)

(** The entries of a list that carry a given id, in order. *)
Definition withId (id : string) (l : list Entry) : list Entry :=
  List.filter (hasId id) l.

(** The local record for an id: the first entry that carries it, which is
    the one [findIndex] selects. *)
Definition lookupId (id : string) (l : list Entry) : option Entry :=
  List.find (hasId id) l.

(** The version of an id in a pull response: the last entry that carries
    it, the only one when the response lists every id once. *)
Definition pulledVersion (id : string) (pulled : list Entry) : option Entry :=
  List.find (hasId id) (rev pulled).

(** Overwrite the first entry that has the id of [s]; nothing if none has. *)
Fixpoint replaceFirst (s : Entry) (l : list Entry) : list Entry :=
  match l with
  | [] => []
  | e :: l' => if hasId (record_id s) e then markSynced s :: l'
               else e :: replaceFirst s l'
  end.

(** The merge when every pulled id is already in the list: a sequence of
    in-place overwrites. *)
Definition replaceAll (pulled l : list Entry) : list Entry :=
  foldl (fun acc s => replaceFirst s acc) l pulled.

(** Whether an id is listed in [rejected_ids] (absent list: no id is). *)
Definition rejectedId (pushResponse : SyncPushResponse) (id : string) : bool :=
  match rejected_ids pushResponse with
  | Some ids => existsb (String.eqb id) ids
  | None => false
  end.

(** A run that does not reach the commit leaves the entries, the watermark
    and the database as they were. *)
Definition keepsData (w w' : World) : Prop :=
  entries (comp w') = entries (comp w) /\
  lastSyncTime (comp w') = lastSyncTime (comp w) /\
  db w' = db w.

(** A run that commits: both gateway calls and the store write went
    through; the merged list is in the state and in the store, and the
    in-memory watermark is the time read after the write. *)
Definition commits (env : Env) (arg : option string) (w w' : World) : Prop :=
  exists pr pl,
    push_reply env = Fulfilled pr /\ pull_reply env = Fulfilled pl /\
    saveEntries_reply env = Fulfilled tt /\
    entries (comp w') = mergedOf (comp w) arg pr pl /\
    lastSyncTime (comp w') = Some (clock env) /\
    db_entries (db w') = saveEntries (mergedOf (comp w) arg pr pl) (db_entries (db w)) /\
    match setAppState_reply env with
    | Fulfilled _ =>
        db_appState (db w') = <["lastSyncTime" := clock env]> (db_appState (db w))
    | Rejected _ => db_appState (db w') = db_appState (db w)
    end.

(** The store agrees with the state at an id when it holds, under that id,
    the record the state has for it (the last one, were the id repeated). *)
Definition storeAgrees (w : World) (id : string) : Prop :=
  match List.find (hasId id) (rev (entries (comp w))) with
  | Some e => db_entries (db w) !! id = Some e
  | None => True
  end.

(** A world is consistent when the state lists every id once and the
    store holds each of its records under the record's id: what loading the
    entries from the store, logging an entry under a fresh id and a
    committed run all establish. *)
Definition consistent (w : World) : Prop :=
  List.NoDup (List.map record_id (entries (comp w))) /\
  forall e, In e (entries (comp w)) -> db_entries (db w) !! record_id e = Some e.

(** ** The client as a transition system

    [exec] runs one handler from start to end.  To see what another trigger
    does while a run is suspended at an [await], the client is also given
    as a machine: its world, the state as of the last render, the handlers
    suspended at an [await], and the calls issued so far.

    [useCallback] rebuilds [handleSync] when the component renders, and the
    button, the entry list and the interval effect take the rebuilt one.
    A trigger therefore calls the handler of the last render: its
    [isOnline], [isSyncing], [token], [entries] and [lastSyncTime] are
    those of that render, whatever has been set since.  The state the
    handler updates is the current one.  A suspended handler keeps the
    values it captured when it was invoked. *)

(** The synchronous stretch of a program: up to the next [await] or the end. *)
Fixpoint advance {A} (now : Z) (p : Prog A) (c : Component) : Component * Prog A :=
  match p with
  | SetState f k => advance now k (f c)
  | NewDate k => advance now (k now) c
  | _ => (c, p)
  end.

(** The call a suspended program waits for. *)
Definition awaiting {A} (p : Prog A) : option Call :=
  match p with
  | ApiSyncPush t b _ => Some (CallPush t b)
  | ApiSyncPull t s _ => Some (CallPull t s)
  | DbSaveEntries es _ => Some (CallSaveEntries es)
  | DbSetAppState key v _ => Some (CallSetAppState key v)
  | _ => None
  end.

(** The awaited promise settles as [env] says: the store call takes effect,
    and the program runs on to its next [await]. *)
Definition resume {A} (env : Env) (p : Prog A) (w : World) : World * Prog A :=
  match p with
  | ApiSyncPush _ _ k =>
      let '(c, p') := advance (clock env) (k (push_reply env)) (comp w) in
      ({| comp := c; db := db w |}, p')
  | ApiSyncPull _ _ k =>
      let '(c, p') := advance (clock env) (k (pull_reply env)) (comp w) in
      ({| comp := c; db := db w |}, p')
  | DbSaveEntries es k =>
      let w1 := settleSave es (saveEntries_reply env) w in
      let '(c, p') := advance (clock env) (k (saveEntries_reply env)) (comp w1) in
      ({| comp := c; db := db w1 |}, p')
  | DbSetAppState key v k =>
      let w1 := settlePut key v (setAppState_reply env) w in
      let '(c, p') := advance (clock env) (k (setAppState_reply env)) (comp w1) in
      ({| comp := c; db := db w1 |}, p')
  | _ => (w, p)
  end.

Record System := mkSystem {
  world : World;
  rendered : Component;       (* the state the last render saw *)
  running : list (Prog unit);
  issued : list Call
}.

Inductive Event :=
| Invoke (now : Z) (recordIdToSync : option string)
    (* a trigger calls [handleSync] of the last render *)
| Settle (i : nat) (env : Env)
    (* the promise the i-th suspended run awaits settles *)
| Connectivity (online : bool)
    (* the window's 'online' / 'offline' events *)
| LogEntry (newEntry : Entry)
    (* [handleLogEntry]: [saveEntry], then [setEntries(prev => [newEntry, ...prev])] *)
| Render.
    (* React renders the component with the current state *)

Definition step (ev : Event) (s : System) : System :=
  match ev with
  | Invoke now recordIdToSync =>
      let '(c, p) := advance now (handleSync (rendered s) recordIdToSync)
                             (comp (world s)) in
      match awaiting p with
      | Some call => {| world := {| comp := c; db := db (world s) |};
                        rendered := rendered s;
                        running := running s ++ [p];
                        issued := issued s ++ [call] |}
      | None => {| world := {| comp := c; db := db (world s) |};
                   rendered := rendered s;
                   running := running s;
                   issued := issued s |}
      end
  | Settle i env =>
      match running s !! i with
      | None => s
      | Some p =>
          let '(w', p') := resume env p (world s) in
          match awaiting p' with
          | Some call => {| world := w'; rendered := rendered s;
                            running := <[i := p']> (running s);
                            issued := issued s ++ [call] |}
          | None => {| world := w'; rendered := rendered s;
                       running := delete i (running s);
                       issued := issued s |}
          end
      end
  | Connectivity online =>
      {| world := withComp (setIsOnline online) (world s); rendered := rendered s;
         running := running s; issued := issued s |}
  | LogEntry newEntry =>
      {| world := {| comp := setEntries (newEntry :: entries (comp (world s)))
                                        (comp (world s));
                     db := {| db_entries := saveEntry newEntry (db_entries (db (world s)));
                              db_appState := db_appState (db (world s)) |} |};
         rendered := rendered s; running := running s; issued := issued s |}
  | Render =>
      {| world := world s; rendered := comp (world s);
         running := running s; issued := issued s |}
  end.

(** A client that has just rendered and runs nothing. *)
Definition idle (w : World) : System :=
  {| world := w; rendered := comp w; running := []; issued := [] |}.

Definition runEvents (evs : list Event) (s : System) : System :=
  foldl (fun acc ev => step ev acc) s evs.

(** A suspended run holds the [isSyncing] flag when, however its promises
    settle, the flag is still set at each of its later [await]s. *)
Inductive holdsFlag : Prog unit -> Prop :=
| holdsFlag_intro p :
    (forall env w w' p' call,
        isSyncing (comp w) = true -> resume env p w = (w', p') ->
        awaiting p' = Some call -> isSyncing (comp w') = true) ->
    (forall env w w' p' call,
        isSyncing (comp w) = true -> resume env p w = (w', p') ->
        awaiting p' = Some call -> holdsFlag p') ->
    holdsFlag p.

(** The client is idle, or one run is suspended and it holds the flag. *)
Definition singleFlight (s : System) : Prop :=
  running s = [] \/
  exists p, running s = [p] /\ isSyncing (comp (world s)) = true /\ holdsFlag p.

(** A suspended run ends within [n] settlements. *)
Inductive within : nat -> Prog unit -> Prop :=
| within_done n p : awaiting p = None -> within n p
| within_step n p :
    (forall env w w' p', resume env p w = (w', p') -> within n p') ->
    within (S n) p.

(** A program stopped at an [await] or at its end. *)
Definition stopped {A} (p : Prog A) : Prop :=
  match p with SetState _ _ | NewDate _ => False | _ => True end.

(** [n] settlements in a row of the first suspended run. *)
Definition drain (n : nat) (env : Env) (s : System) : System :=
  runEvents (repeat (Settle 0 env) n) s.

(** Whether the component has rendered between any two triggers of a
    sequence of events; [seen] says whether it has since the last one. *)
Fixpoint renderBetweenTriggers (seen : bool) (evs : list Event) : bool :=
  match evs with
  | [] => true
  | Render :: evs' => renderBetweenTriggers true evs'
  | Invoke _ _ :: evs' => seen && renderBetweenTriggers false evs'
  | _ :: evs' => renderBetweenTriggers seen evs'
  end.

(** The last render saw the flag of the run that is suspended. *)
Definition flagRendered (s : System) : Prop :=
  running s <> [] -> isSyncing (rendered s) = true.

(** ** Sample data *)

Definition sampleEntry (id : string) (pending : option bool) (note : string) : Entry :=
  {| record_id := id; checkpoint_id := "gate-1"; entry_type := PERSONNEL;
     logging_user_id := "op-1"; client_ts := "2024-05-01T08:00:00.000Z";
     updated_at := "2024-05-01T08:00:00.000Z"; created_at := "2024-05-01T08:00:00.000Z";
     status := ACTIVE; isPending := pending;
     payload := PersonnelPayload note "A. Visitor" "ID-7" "delivery" |}.

(** [r1], created locally and not yet acknowledged. *)
Definition r1 : Entry := sampleEntry "r1" (Some true) "local".

(** The server's copy of [r1], as a pull returns it. *)
Definition r1_server : Entry := sampleEntry "r1" None "server".

(** An online, idle, authenticated client holding [es], with watermark [wm];
    the store holds the same entries. *)
Definition clientWith (es : list Entry) (wm : option Z) : World :=
  {| comp := {| entries := es; isOnline := true; isSyncing := false;
                syncError := None; lastSyncTime := wm; token := Some "jwt" |};
     db := {| db_entries := saveEntries es ∅;
              db_appState := match wm with
                             | Some t => {["lastSyncTime" := t]}
                             | None => ∅
                             end |} |}.

Definition pushReply (acc rej : Z) (ids : option (list string)) : SyncPushResponse :=
  {| success := true; accepted := acc; rejected := rej; rejected_ids := ids;
     message := "ok" |}.

Definition pullReply (es : list Entry) : SyncPullResponse :=
  {| pull_entries := Some es; count := Z.of_nat (length es) |}.

(** Every call goes through. *)
Definition envOk (now : Z) (pr : SyncPushResponse) (pl : SyncPullResponse) : Env :=
  {| clock := now; push_reply := Fulfilled pr; pull_reply := Fulfilled pl;
     saveEntries_reply := Fulfilled tt; setAppState_reply := Fulfilled tt |}.

(** The push call gets no response. *)
Definition envPushDown (now : Z) : Env :=
  {| clock := now; push_reply := Rejected (ThrownError "Failed to fetch");
     pull_reply := Fulfilled (pullReply []);
     saveEntries_reply := Fulfilled tt; setAppState_reply := Fulfilled tt |}.

(** The push is answered, the pull is not. *)
Definition envPullDown (now : Z) (pr : SyncPushResponse) : Env :=
  {| clock := now; push_reply := Fulfilled pr;
     pull_reply := Rejected (ThrownError "HTTP 502: Bad Gateway");
     saveEntries_reply := Fulfilled tt; setAppState_reply := Fulfilled tt |}.

(** Every call goes through but the last one, the write of the watermark. *)
Definition envPutDown (now : Z) (pr : SyncPushResponse) (pl : SyncPullResponse) : Env :=
  {| clock := now; push_reply := Fulfilled pr; pull_reply := Fulfilled pl;
     saveEntries_reply := Fulfilled tt;
     setAppState_reply := Rejected (ThrownError "QuotaExceededError") |}.

(** * The rest of the client

    The other functions of the files above and their callers: the store
    reads of src/lib/db.ts, the rest of the [Main] component, the request
    helper of src/api/client.ts, the search box, the entry list, the
    dashboards, the authentication context and the navigation. *)

(** ** Users (src/types) *)

Inductive UserRole := ADMIN | SUPERVISOR | GATE_OPERATOR.

Record User := mkUser {
  user_id : string;
  username : string;
  role : UserRole;
  allowed_checkpoints : option (list string);    (* string[] | null *)
  supervisor_id : option string;
  managed_operators : option (list string);
  last_login : option string
}.

(** ** Sorting

    [Array.prototype.sort] is stable; with a comparator that is a total
    preorder its result is the stable sort, computed here by insertion.
    [le x y] stands for [compare(x, y) <= 0].  With a comparator that is
    not consistent the order is left to the implementation, and the list
    computed here is one of the lists it may return. *)

Fixpoint insertBy {A} (le : A -> A -> bool) (x : A) (l : list A) : list A :=
  match l with
  | [] => [x]
  | y :: l' => if le x y then x :: l else y :: insertBy le x l'
  end.

Definition sortBy {A} (le : A -> A -> bool) (l : list A) : list A :=
  fold_right (insertBy le) [] l.

(** ** The reads of src/lib/db.ts *)

(** [getAppState]: a [get] on the ['app-state'] store. *)
Definition getAppState (key : string) (d : Database) : option Z :=
  db_appState d !! key.

(** The order of IndexedDB on string keys compares the strings as
    sequences of UTF-16 code units.  [codePoints] reads the code points off
    the UTF-8 bytes (on bytes that encode no text its value is of no
    concern), [utf16] gives their code units, a surrogate pair above
    U+FFFF. *)
Definition lowBits (c : Ascii.ascii) : N := (Ascii.N_of_ascii c mod 64)%N.

Fixpoint codePoints (s : string) : list N :=
  match s with
  | EmptyString => []
  | String c0 s0 =>
      let b0 := Ascii.N_of_ascii c0 in
      if (b0 <? 128)%N then b0 :: codePoints s0
      else if (b0 <? 224)%N then
        match s0 with
        | String c1 s1 => ((b0 mod 32) * 64 + lowBits c1)%N :: codePoints s1
        | EmptyString => [b0]
        end
      else if (b0 <? 240)%N then
        match s0 with
        | String c1 (String c2 s2) =>
            ((b0 mod 16) * 4096 + lowBits c1 * 64 + lowBits c2)%N :: codePoints s2
        | _ => [b0]
        end
      else
        match s0 with
        | String c1 (String c2 (String c3 s3)) =>
            ((b0 mod 8) * 262144 + lowBits c1 * 4096 + lowBits c2 * 64 + lowBits c3)%N
              :: codePoints s3
        | _ => [b0]
        end
  end.

Definition codeUnits (cp : N) : list N :=
  if (cp <? 65536)%N then [cp]
  else [(55296 + (cp - 65536) / 1024)%N; (56320 + (cp - 65536) mod 1024)%N].

Definition utf16 (s : string) : list N := flat_map codeUnits (codePoints s).

(** Lexicographic comparison of code units. *)
Fixpoint unitsLeb (a b : list N) : bool :=
  match a, b with
  | [], _ => true
  | _ :: _, [] => false
  | x :: a', y :: b' =>
      if (x <? y)%N then true else if (y <? x)%N then false else unitsLeb a' b'
  end.

Definition keyLeb (k1 k2 : string) : bool := unitsLeb (utf16 k1) (utf16 k2).

(** [getAllEntries]: [getAll] on the ['entries'] store, which returns the
    values in the order of their keys. *)
Definition getAllEntries (d : Database) : list Entry :=
  List.map snd (sortBy (fun a b => keyLeb (fst a) (fst b))
                       (map_to_list (db_entries d))).

(** Every value of the store sits under its own [record_id]: the store is
    created with [keyPath: 'record_id'] and written by [put(entry)] only. *)
Definition keyed (store : gmap string Entry) : Prop :=
  forall k e, store !! k = Some e -> record_id e = k.

(** ** The rest of [Main] *)

(** The effect run on mount: [loadEntriesFromDB].  The two reads settle as
    [r_all] and [r_state] say; a failed read throws into the [catch], which
    only logs. *)
Definition loadEntriesFromDB (r_all r_state : Settled unit) (w : World) : World :=
  match r_all with
  | Rejected _ => w
  | Fulfilled _ =>
      let c1 := setEntries (getAllEntries (db w)) (comp w) in
      match r_state with
      | Rejected _ => {| comp := c1; db := db w |}
      | Fulfilled _ =>
          match getAppState "lastSyncTime" (db w) with
          | Some savedSyncTime =>
              {| comp := setLastSyncTime (Some savedSyncTime) c1; db := db w |}
          | None => {| comp := c1; db := db w |}
          end
      end
  end.

(** What [handleLogEntry] reads from its environment: [crypto.randomUUID()]
    and the three [new Date().toISOString()]. *)
Record Fresh := mkFresh {
  uuid : string;
  now_client : string;
  now_updated : string;
  now_created : string
}.

(** [user.allowed_checkpoints?.[0] || 'UNKNOWN'] *)
Definition firstCheckpoint (u : User) : string :=
  match allowed_checkpoints u with
  | Some (cp :: _) => if truthy cp then cp else "UNKNOWN"
  | _ => "UNKNOWN"
  end.

(** The [newEntry] object of [handleLogEntry]. *)
Definition newEntryOf (u : User) (currentEntryType : EntryType) (f : Fresh)
    (p : Payload) : Entry :=
  {| record_id := uuid f;
     checkpoint_id := firstCheckpoint u;
     entry_type := currentEntryType;
     logging_user_id := user_id u;
     client_ts := now_client f;
     updated_at := now_updated f;
     created_at := now_created f;
     status := ACTIVE;
     isPending := Some true;
     payload := p |}.

(** [handleLogEntry]: [saveEntry] settles as [r_save]; on a rejection the
    [catch] logs and alerts, the state is not touched. *)
Definition handleLogEntry (user : option User) (currentEntryType : EntryType)
    (f : Fresh) (p : Payload) (r_save : Settled unit) (w : World) : World :=
  match user with
  | None => w                                              (* if (!user) return *)
  | Some u =>
      let newEntry := newEntryOf u currentEntryType f p in
      match r_save with
      | Fulfilled _ =>
          {| comp := setEntries (newEntry :: entries (comp w)) (comp w);
             db := {| db_entries := saveEntry newEntry (db_entries (db w));
                      db_appState := db_appState (db w) |} |}
      | Rejected _ => w
      end
  end.

(** [isSyncButtonDisabled] *)
Definition isSyncButtonDisabled (c : Component) : bool :=
  negb (isOnline c) || isSyncing c || (length (pendingEntries (entries c)) =? 0)%nat.

(** Whether the background-sync effect sets its 30-second interval: the
    effect returns early on [!isOnline || !token || pendingEntries.length === 0]. *)
Definition syncIntervalArmed (c : Component) : bool :=
  negb (negb (isOnline c)
        || negb (match token c with Some t => truthy t | None => false end)
        || (length (pendingEntries (entries c)) =? 0)%nat).

(** The entry list shows the per-entry sync button for [entry.isPending];
    its click calls [onSync(entry.record_id)]. *)
Definition showsSyncButton (e : Entry) : bool := pendingFlag e.

(** ** The request helper of src/api/client.ts *)

(** A [Response] as [fetchWithAuth] and its callers read it: [text()] on
    the error path, [json()] on the other, each of which may reject. *)
Record HttpResponse (A : Type) := mkResponse {
  resp_ok : bool;
  resp_status : Z;
  resp_statusText : string;
  resp_text : Settled string;
  resp_json : Settled A
}.
Arguments resp_ok {A} _.
Arguments resp_status {A} _.
Arguments resp_statusText {A} _.
Arguments resp_text {A} _.
Arguments resp_json {A} _.

(** [token.startsWith('Bearer ') ? token : `Bearer ${token}`] *)
Definition bearer (tok : string) : string :=
  if String.prefix "Bearer " tok then tok else "Bearer " ++ tok.

(** The headers of the request: the defaults, the token if there is one,
    then [Object.assign(headers, options.headers)]. *)
Definition requestHeaders (tok : option string) (optionHeaders : list (string * string))
  : gmap string string :=
  let base : gmap string string := {[ "Content-Type" := "application/json" ]} in
  let withAuth :=
    match tok with
    | Some t => if truthy t then <["Authorization" := bearer t]> base else base
    | None => base
    end in
  foldl (fun h kv => <[fst kv := snd kv]> h) withAuth optionHeaders.

(** The message of the [APIError] thrown for a response that is not ok:
    [errorText || `HTTP ${response.status}: ${response.statusText}`]. *)
Definition apiErrorMessage {A} (r : HttpResponse A) (errorText : string) : string :=
  if truthy errorText then errorText
  else "HTTP " ++ pretty (resp_status r) ++ ": " ++ resp_statusText r.

(** [fetchWithAuth], given how [fetch] settles. *)
Definition fetchWithAuth {A} (net : Settled (HttpResponse A)) : Settled (HttpResponse A) :=
  match net with
  | Rejected e => Rejected e
  | Fulfilled r =>
      if resp_ok r then Fulfilled r
      else match resp_text r with
           | Fulfilled errorText => Rejected (ThrownError (apiErrorMessage r errorText))
           | Rejected e => Rejected e
           end
  end.

(** [api.sync.push] and [api.sync.pull]: [fetchWithAuth], then
    [response.json()]. *)
Definition apiCall {A} (net : Settled (HttpResponse A)) : Settled A :=
  match fetchWithAuth net with
  | Fulfilled r => resp_json r
  | Rejected e => Rejected e
  end.

(** The environment of a run whose gateway calls go over HTTP. *)
Definition envHttp (now : Z)
    (pushNet : Settled (HttpResponse SyncPushResponse))
    (pullNet : Settled (HttpResponse SyncPullResponse))
    (r_save r_put : Settled unit) : Env :=
  {| clock := now; push_reply := apiCall pushNet; pull_reply := apiCall pullNet;
     saveEntries_reply := r_save; setAppState_reply := r_put |}.

(** ** The search box ([Search], [SupervisorDashboard])

    [String.prototype.toLowerCase] is a parameter of the definitions that
    use it. *)

(** [hay.includes(needle)] *)
Fixpoint includesStr (needle hay : string) : bool :=
  String.prefix needle hay ||
  match hay with
  | EmptyString => false
  | String _ hay' => includesStr needle hay'
  end.

Definition notesOf (p : Payload) : string :=
  match p with
  | PersonnelPayload n _ _ _ | TruckPayload n _ _ _
  | CarPayload n _ _ | OtherPayload n _ _ => n
  end.

Definition statusText (s : EntryStatus) : string :=
  match s with ACTIVE => "ACTIVE" | DELETED => "DELETED" end.

(** [handleSearch] of the [Search] component: the list it hands to
    [onFilter]. *)
Definition handleSearch (toLowerCase : string -> string)
    (searchTerm statusFilter : string) (es : list Entry) : list Entry :=
  let filtered :=
    if truthy searchTerm
    then List.filter (fun entry =>
           includesStr (toLowerCase searchTerm) (toLowerCase (notesOf (payload entry)))) es
    else es in
  if truthy statusFilter
  then List.filter (fun entry => statusText (status entry) =? statusFilter) filtered
  else filtered.

(** ** The entry list *)

(** The comparator of [sortedEntries],
    [new Date(b.client_ts).getTime() - new Date(a.client_ts).getTime()],
    as the condition [compare(a, b) <= 0].  [getTime] is
    [new Date(ts).getTime()]: [None] where that is [NaN], for a text that
    is no date.  The difference is then [NaN], which [sort] takes for
    [+0]. *)
Definition recentFirst (getTime : string -> option Z) (a b : Entry) : bool :=
  match getTime (client_ts b), getTime (client_ts a) with
  | Some tb, Some ta => (tb - ta <=? 0)%Z
  | _, _ => true
  end.

(** [sortedEntries]: a copy sorted by [client_ts], most recent first. *)
Definition sortedEntries (getTime : string -> option Z) (es : list Entry) : list Entry :=
  sortBy (recentFirst getTime) es.

(** ** The dashboards *)

(** [entries] of [Dashboard]. *)
Definition dashboardEntries (user : option User) (allEntries : list Entry) : list Entry :=
  match user with
  | None => []
  | Some u =>
      match role u, managed_operators u with
      | ADMIN, _ => allEntries
      | SUPERVISOR, Some ops =>
          List.filter (fun entry => existsb (String.eqb (logging_user_id entry)) ops)
                      allEntries
      | GATE_OPERATOR, _ =>
          List.filter (fun entry => logging_user_id entry =? user_id u) allEntries
      | SUPERVISOR, None => []
      end
  end.

(** [visibleEntries] of [SupervisorDashboard]. *)
Definition visibleEntries (user : option User) (allEntries : list Entry) : list Entry :=
  match user with
  | None => []
  | Some u =>
      match role u, managed_operators u with
      | ADMIN, _ => allEntries
      | SUPERVISOR, Some ops =>
          List.filter (fun entry => existsb (String.eqb (logging_user_id entry)) ops)
                      allEntries
      | _, _ => []
      end
  end.

(** [Array.from(new Set(xs))]: the first occurrence of each value, in order. *)
Fixpoint uniqueInOrder (seen xs : list string) : list string :=
  match xs with
  | [] => []
  | x :: xs' => if existsb (String.eqb x) seen then uniqueInOrder seen xs'
                else x :: uniqueInOrder (x :: seen) xs'
  end.

(** [checkpoints] of [SupervisorDashboard]. *)
Definition checkpoints (allEntries : list Entry) : list string :=
  uniqueInOrder [] (List.map checkpoint_id allEntries).

Definition entryTypeEqb (a b : EntryType) : bool :=
  match a, b with
  | PERSONNEL, PERSONNEL | TRUCK, TRUCK | CAR, CAR | OTHER, OTHER => true
  | _, _ => false
  end.

(** The fields the search of [SupervisorDashboard] looks into; a field the
    payload does not have is [undefined]. *)
Definition searchableFields (entry : Entry) : list (option string) :=
  match payload entry with
  | PersonnelPayload n name _ _ =>
      [Some name; None; None; None; None; Some n;
       Some (checkpoint_id entry); Some (record_id entry)]
  | TruckPayload n plate company _ =>
      [None; Some plate; None; Some company; None; Some n;
       Some (checkpoint_id entry); Some (record_id entry)]
  | CarPayload n plate driver =>
      [None; Some plate; Some driver; None; None; Some n;
       Some (checkpoint_id entry); Some (record_id entry)]
  | OtherPayload n description _ =>
      [None; None; None; None; Some description; Some n;
       Some (checkpoint_id entry); Some (record_id entry)]
  end.

(** [fields.filter(Boolean).join(' ').toLowerCase()] *)
Definition searchableText (toLowerCase : string -> string) (entry : Entry) : string :=
  toLowerCase
    (String.concat " "
       (omap (fun o => match o with
                       | Some s => if truthy s then Some s else None
                       | None => None
                       end) (searchableFields entry))).

(** The predicate of [filteredEntries]; [filterType = None] is ['ALL']. *)
Definition passesFilters (toLowerCase : string -> string)
    (filterType : option EntryType) (filterCheckpoint searchTerm : string)
    (entry : Entry) : bool :=
  if match filterType with
     | Some t => negb (entryTypeEqb (entry_type entry) t)
     | None => false
     end then false
  else if negb (filterCheckpoint =? "ALL") && negb (checkpoint_id entry =? filterCheckpoint)
  then false
  else if truthy searchTerm
  then includesStr (toLowerCase searchTerm) (searchableText toLowerCase entry)
  else true.

(** [filteredEntries] of [SupervisorDashboard]. *)
Definition filteredEntries (toLowerCase : string -> string) (user : option User)
    (filterType : option EntryType) (filterCheckpoint searchTerm : string)
    (allEntries : list Entry) : list Entry :=
  List.filter (passesFilters toLowerCase filterType filterCheckpoint searchTerm)
              (visibleEntries user allEntries).




(** ** The authentication context

    The three keys of [localStorage] it uses, each absent or a text.  The
    text under the user key is identified with what [JSON.parse] makes of
    it: [JSON.stringify(user)] is [UserJson user]. *)

Inductive StoredUser :=
| UserJson (u : User)
| NullJson                    (* the text "null" *)
| NotJson (text : string).    (* [JSON.parse] throws *)

Definition storedTruthy (s : StoredUser) : bool :=
  match s with
  | NotJson t => truthy t
  | _ => true
  end.

Record LocalStorage := mkStorage {
  ls_token : option string;
  ls_refresh : option string;
  ls_user : option StoredUser
}.

Record AuthState := mkAuth {
  auth_user : option User;
  auth_token : option string;
  auth_refresh : option string;
  auth_loading : bool
}.

Definition noStorage : LocalStorage :=
  {| ls_token := None; ls_refresh := None; ls_user := None |}.

(** The state of [AuthProvider] before its mount effect. *)
Definition authInit : AuthState :=
  {| auth_user := None; auth_token := None; auth_refresh := None; auth_loading := true |}.

(** [isAuthenticated: !!user && !!token] *)
Definition isAuthenticated (a : AuthState) : bool :=
  match auth_user a, auth_token a with
  | Some _, Some t => truthy t
  | _, _ => false
  end.

(** The mount effect: restore the saved session. *)
Definition restoreSession (a : AuthState) (ls : LocalStorage) : AuthState * LocalStorage :=
  match ls_token ls, ls_user ls with
  | Some savedToken, Some savedUser =>
      if truthy savedToken && storedTruthy savedUser then
        match savedUser with
        | UserJson u =>
            ({| auth_user := Some u; auth_token := Some savedToken;
                auth_refresh := ls_refresh ls; auth_loading := false |}, ls)
        | NullJson =>
            ({| auth_user := None; auth_token := Some savedToken;
                auth_refresh := ls_refresh ls; auth_loading := false |}, ls)
        | NotJson _ =>
            (* [setToken] and [setRefreshToken] ran before [JSON.parse] threw *)
            ({| auth_user := auth_user a; auth_token := Some savedToken;
                auth_refresh := ls_refresh ls; auth_loading := false |}, noStorage)
        end
      else
        ({| auth_user := auth_user a; auth_token := auth_token a;
            auth_refresh := auth_refresh a; auth_loading := false |}, ls)
  | _, _ =>
      ({| auth_user := auth_user a; auth_token := auth_token a;
          auth_refresh := auth_refresh a; auth_loading := false |}, ls)
  end.



Definition logout (a : AuthState) (ls : LocalStorage) : AuthState * LocalStorage :=
  ({| auth_user := None; auth_token := None; auth_refresh := None;
      auth_loading := auth_loading a |}, noStorage).

(** ** Navigation and routes *)

Definition roleEqb (a b : UserRole) : bool :=
  match a, b with
  | ADMIN, ADMIN | SUPERVISOR, SUPERVISOR | GATE_OPERATOR, GATE_OPERATOR => true
  | _, _ => false
  end.

(** The table of [Navigation]: path, label, roles. *)
Definition navTable : list (string * string * list UserRole) :=
  [ ("/checkpoint", "Checkpoint", [GATE_OPERATOR; SUPERVISOR; ADMIN]);
    ("/dashboard", "Dashboard", [GATE_OPERATOR; SUPERVISOR; ADMIN]);
    ("/search", "Search", [SUPERVISOR; ADMIN]);
    ("/supervisor", "Supervisor", [SUPERVISOR; ADMIN]);
    ("/admin", "Admin", [ADMIN]) ].

(** [navItems]: [.filter(item => user && item.roles.includes(user.role))] *)
Definition navItems (user : option User) : list (string * string * list UserRole) :=
  List.filter (fun item =>
                 match user with
                 | Some u => existsb (roleEqb (role u)) (snd item)
                 | None => false
                 end) navTable.

(** The paths [App] registers a page for (the two redirects, ["/"] and
    ["*"], apart). *)
Definition pageRoutes (user : option User) : list string :=
  ["/checkpoint"; "/dashboard"]
  ++ (match user with
      | Some u => if roleEqb (role u) ADMIN then ["/admin"] else []
      | None => []
      end)
  ++ (match user with
      | Some u => if roleEqb (role u) ADMIN || roleEqb (role u) SUPERVISOR
                  then ["/supervisor"] else []
      | None => []
      end)
  ++ ["/search"].

(** [getDefaultRoute] *)
Definition getDefaultRoute (user : option User) : string :=
  match user with
  | Some u =>
      match role u with
      | GATE_OPERATOR => "/checkpoint"
      | SUPERVISOR => "/supervisor"
      | ADMIN => "/admin"
      end
  | None => "/dashboard"
  end.

(** ** The earlier [Main], without a gateway

    The synchronisation of the first version of the component: after its
    two-second wait it marks entries as synced locally. *)
Definition mockSync (isOnline_ isSyncing_ : bool) (recordIdToSync : option string)
    (es : list Entry) : list Entry :=
  if negb isOnline_ || isSyncing_ then es
  else match recordIdToSync with
       | Some id =>
           if truthy id
           then List.map (fun e => if record_id e =? id then markSynced e else e) es
           else List.map markSynced es
       | None => List.map markSynced es
       end.

(** ** Mounting, and sequences of handlers *)

(** The state of [Main] when it mounts: the initial values of its
    [useState] hooks, [navigator.onLine] and the token of the session. *)
Definition mountState (online : bool) (tok : option string) : Component :=
  {| entries := []; isOnline := online; isSyncing := false; syncError := None;
     lastSyncTime := None; token := tok |}.

(** [Main] mounted over a database: the initial state, then the mount
    effect. *)
Definition mount (online : bool) (tok : option string) (r_all r_state : Settled unit)
    (d : Database) : World :=
  loadEntriesFromDB r_all r_state {| comp := mountState online tok; db := d |}.

(** What happens to [Main], one handler at a time. *)
Inductive Action :=
| DoSync (env : Env) (arg : option string)
| DoLog (user : option User) (currentEntryType : EntryType) (f : Fresh) (p : Payload)
        (r_save : Settled unit)
| DoReload (r_all r_state : Settled unit).

Definition act (w : World) (a : Action) : World :=
  match a with
  | DoSync env arg => finalWorld (runSync env arg w)
  | DoLog user t f p r_save => handleLogEntry user t f p r_save w
  | DoReload r_all r_state => loadEntriesFromDB r_all r_state w
  end.

Definition runActions (acts : list Action) (w : World) : World := foldl act w acts.

(** Every entry is logged under an id the state does not hold yet, as
    [crypto.randomUUID()] provides. *)
Fixpoint freshLogs (acts : list Action) (w : World) : bool :=
  match acts with
  | [] => true
  | a :: rest =>
      match a with
      | DoLog (Some _) _ f _ (Fulfilled _) =>
          negb (existsb (hasId (uuid f)) (entries (comp w)))
      | _ => true
      end && freshLogs rest (act w a)
  end.

(** ** More sample data *)

Definition operator1 : User :=
  {| user_id := "op-1"; username := "olga"; role := GATE_OPERATOR;
     allowed_checkpoints := Some ["gate-1"; "gate-2"]; supervisor_id := Some "sup-1";
     managed_operators := None; last_login := None |}.

Definition supervisor1 : User :=
  {| user_id := "sup-1"; username := "sam"; role := SUPERVISOR;
     allowed_checkpoints := None; supervisor_id := None;
     managed_operators := Some ["op-1"]; last_login := None |}.

Definition fresh2 : Fresh :=
  {| uuid := "r2"; now_client := "2024-05-02T09:00:00.000Z";
     now_updated := "2024-05-02T09:00:00.001Z";
     now_created := "2024-05-02T09:00:00.002Z" |}.

Definition carPayload : Payload := CarPayload "" "KAA 001A" "D. River".

(** The time values of the timestamps of the sample data; any other text
    is taken for no date. *)
Definition sampleTime (ts : string) : option Z :=
  if ts =? "2024-05-01T08:00:00.000Z" then Some 1714550400000%Z
  else if ts =? "2024-05-02T09:00:00.000Z" then Some 1714640400000%Z
  else None.

(** U+FF5E and U+1F600, as their UTF-8 bytes. *)
Definition fullwidthTilde : string :=
  String (Ascii.ascii_of_N 239) (String (Ascii.ascii_of_N 189) (String (Ascii.ascii_of_N 158) "")).

Definition grinningFace : string :=
  String (Ascii.ascii_of_N 240) (String (Ascii.ascii_of_N 159)
    (String (Ascii.ascii_of_N 152) (String (Ascii.ascii_of_N 128) ""))).

Definition badGateway : HttpResponse SyncPushResponse :=
  {| resp_ok := false; resp_status := 502; resp_statusText := "Bad Gateway";
     resp_text := Fulfilled ""; resp_json := Rejected ThrownOther |}.

(** * Proofs *)

(** ** The paths of a run *)

Lemma guardBlocks_false c :
  guardBlocks c = false ->
  exists tok, token c = Some tok /\ truthy tok = true /\
              isOnline c = true /\ isSyncing c = false.
Proof.
  unfold guardBlocks. destruct (token c) as [tok|]; [|discriminate].
  intros H. exists tok.
  destruct (isOnline c), (isSyncing c), (truthy tok); simpl in H; try discriminate.
  auto.
Qed.

(** The handler of a render [c] run on a world [w]: the values it captured
    are those of [c], the state it updates is that of [w].  In [runSync] the
    two coincide; they differ when the state changed while the handler was
    suspended. *)
Lemma handler_blocked env arg c w :
  guardBlocks c = true -> exec env (handleSync c arg) w = (w, [], Fulfilled tt).
Proof.
  unfold handleSync, guardBlocks. intros H.
  destruct (token c); [rewrite H|]; reflexivity.
Qed.

Section Handler.
Variables (env : Env) (arg : option string) (c : Component) (w : World) (tok : string).
Hypothesis Htok : token c = Some tok.
Hypothesis Hgo : guardBlocks c = false.

Let batch := entriesToSync arg (entries c).

Lemma handler_empty_batch :
  batch = [] ->
  exec env (handleSync c arg) w =
    (withComp (fun c' => setIsSyncing false (setIsSyncing false (started c'))) w,
     [], Fulfilled tt).
Proof.
  unfold handleSync. intros Hb.
  unfold guardBlocks in Hgo. rewrite Htok in *. rewrite Hgo.
  fold batch. rewrite Hb. reflexivity.
Qed.

Hypothesis Hbatch : batch <> [].

Lemma handler_push_rejected e :
  push_reply env = Rejected e ->
  exec env (handleSync c arg) w =
    (withComp (fun c' => afterFailure e (started c')) w,
     [CallPush tok batch], Fulfilled tt).
Proof.
  unfold handleSync. intros Hp.
  unfold guardBlocks in Hgo. rewrite Htok in *. rewrite Hgo.
  fold batch. destruct batch as [|b0 bs] eqn:Eb; [congruence|].
  simpl. rewrite Hp. reflexivity.
Qed.

Variable pushResponse : SyncPushResponse.
Hypothesis Hpush : push_reply env = Fulfilled pushResponse.

Lemma handler_pull_rejected e :
  pull_reply env = Rejected e ->
  exec env (handleSync c arg) w =
    (withComp (fun c' => afterFailure e (started c')) w,
     [CallPush tok batch; CallPull tok (lastSyncTime c)], Fulfilled tt).
Proof.
  unfold handleSync. intros Hp.
  unfold guardBlocks in Hgo. rewrite Htok in *. rewrite Hgo.
  fold batch. destruct batch as [|b0 bs] eqn:Eb; [congruence|].
  simpl. rewrite Hpush. simpl. rewrite Hp. reflexivity.
Qed.

Variable pullResponse : SyncPullResponse.
Hypothesis Hpull : pull_reply env = Fulfilled pullResponse.

Let merged := mergedOf c arg pushResponse pullResponse.

Lemma handler_save_rejected e :
  saveEntries_reply env = Rejected e ->
  exec env (handleSync c arg) w =
    (withComp (fun c' => afterFailure e (started c')) w,
     [CallPush tok batch; CallPull tok (lastSyncTime c);
      CallSaveEntries merged], Fulfilled tt).
Proof.
  unfold handleSync. intros Hp.
  unfold guardBlocks in Hgo. rewrite Htok in *. rewrite Hgo.
  subst merged. unfold mergedOf. fold batch.
  destruct batch as [|b0 bs] eqn:Eb; [congruence|].
  simpl. rewrite Hpush. simpl. rewrite Hpull. simpl. rewrite Hp. reflexivity.
Qed.

Hypothesis Hsave : saveEntries_reply env = Fulfilled tt.

Lemma handler_put_rejected e :
  setAppState_reply env = Rejected e ->
  exec env (handleSync c arg) w =
    ({| comp := afterFailure e (afterCommit merged (clock env) (comp w));
        db := commitEntries merged (db w) |},
     [CallPush tok batch; CallPull tok (lastSyncTime c);
      CallSaveEntries merged; CallSetAppState "lastSyncTime" (clock env)],
     Fulfilled tt).
Proof.
  unfold handleSync. intros Hp.
  unfold guardBlocks in Hgo. rewrite Htok in *. rewrite Hgo.
  subst merged. unfold mergedOf. fold batch.
  destruct batch as [|b0 bs] eqn:Eb; [congruence|].
  simpl. rewrite Hpush. simpl. rewrite Hpull. simpl. rewrite Hsave. simpl.
  rewrite Hp. reflexivity.
Qed.

Lemma handler_complete :
  setAppState_reply env = Fulfilled tt ->
  exec env (handleSync c arg) w =
    ({| comp := setIsSyncing false
                  (match rejectionWarning pushResponse with
                   | Some m => setSyncError (Some m)
                   | None => fun c' => c'
                   end (afterCommit merged (clock env) (comp w)));
        db := setAppState "lastSyncTime" (clock env) (commitEntries merged (db w)) |},
     [CallPush tok batch; CallPull tok (lastSyncTime c);
      CallSaveEntries merged; CallSetAppState "lastSyncTime" (clock env)],
     Fulfilled tt).
Proof.
  unfold handleSync. intros Hp.
  unfold guardBlocks in Hgo. rewrite Htok in *. rewrite Hgo.
  subst merged. unfold mergedOf, rejectionWarning. fold batch.
  destruct batch as [|b0 bs] eqn:Eb; [congruence|].
  simpl. rewrite Hpush. simpl. rewrite Hpull. simpl. rewrite Hsave. simpl.
  rewrite Hp. simpl.
  destruct (rejected_ids pushResponse) as [ids|]; [|reflexivity].
  destruct (0 <? length ids)%nat; reflexivity.
Qed.
End Handler.

Lemma run_blocked env arg w :
  guardBlocks (comp w) = true -> runSync env arg w = (w, [], Fulfilled tt).
Proof. apply handler_blocked. Qed.

Lemma run_empty_batch env arg w tok :
  token (comp w) = Some tok -> guardBlocks (comp w) = false ->
  entriesToSync arg (entries (comp w)) = [] ->
  runSync env arg w =
    (withComp (fun c => setIsSyncing false (setIsSyncing false (started c))) w,
     [], Fulfilled tt).
Proof. apply handler_empty_batch. Qed.

Lemma run_push_rejected env arg w tok :
  token (comp w) = Some tok -> guardBlocks (comp w) = false ->
  entriesToSync arg (entries (comp w)) <> [] ->
  forall e, push_reply env = Rejected e ->
  runSync env arg w =
    (withComp (fun c => afterFailure e (started c)) w,
     [CallPush tok (entriesToSync arg (entries (comp w)))], Fulfilled tt).
Proof. apply handler_push_rejected. Qed.

Lemma run_pull_rejected env arg w tok :
  token (comp w) = Some tok -> guardBlocks (comp w) = false ->
  entriesToSync arg (entries (comp w)) <> [] ->
  forall pr, push_reply env = Fulfilled pr ->
  forall e, pull_reply env = Rejected e ->
  runSync env arg w =
    (withComp (fun c => afterFailure e (started c)) w,
     [CallPush tok (entriesToSync arg (entries (comp w)));
      CallPull tok (lastSyncTime (comp w))], Fulfilled tt).
Proof. apply handler_pull_rejected. Qed.

Lemma run_save_rejected env arg w tok :
  token (comp w) = Some tok -> guardBlocks (comp w) = false ->
  entriesToSync arg (entries (comp w)) <> [] ->
  forall pr, push_reply env = Fulfilled pr ->
  forall pl, pull_reply env = Fulfilled pl ->
  forall e, saveEntries_reply env = Rejected e ->
  runSync env arg w =
    (withComp (fun c => afterFailure e (started c)) w,
     [CallPush tok (entriesToSync arg (entries (comp w)));
      CallPull tok (lastSyncTime (comp w));
      CallSaveEntries (mergedOf (comp w) arg pr pl)], Fulfilled tt).
Proof. apply handler_save_rejected. Qed.

Lemma run_put_rejected env arg w tok :
  token (comp w) = Some tok -> guardBlocks (comp w) = false ->
  entriesToSync arg (entries (comp w)) <> [] ->
  forall pr, push_reply env = Fulfilled pr ->
  forall pl, pull_reply env = Fulfilled pl ->
  saveEntries_reply env = Fulfilled tt ->
  forall e, setAppState_reply env = Rejected e ->
  runSync env arg w =
    ({| comp := afterFailure e
                  (afterCommit (mergedOf (comp w) arg pr pl) (clock env) (comp w));
        db := commitEntries (mergedOf (comp w) arg pr pl) (db w) |},
     [CallPush tok (entriesToSync arg (entries (comp w)));
      CallPull tok (lastSyncTime (comp w));
      CallSaveEntries (mergedOf (comp w) arg pr pl);
      CallSetAppState "lastSyncTime" (clock env)],
     Fulfilled tt).
Proof. apply handler_put_rejected. Qed.

Lemma run_complete env arg w tok :
  token (comp w) = Some tok -> guardBlocks (comp w) = false ->
  entriesToSync arg (entries (comp w)) <> [] ->
  forall pr, push_reply env = Fulfilled pr ->
  forall pl, pull_reply env = Fulfilled pl ->
  saveEntries_reply env = Fulfilled tt ->
  setAppState_reply env = Fulfilled tt ->
  runSync env arg w =
    ({| comp := setIsSyncing false
                  (match rejectionWarning pr with
                   | Some m => setSyncError (Some m)
                   | None => fun c => c
                   end (afterCommit (mergedOf (comp w) arg pr pl) (clock env) (comp w)));
        db := setAppState "lastSyncTime" (clock env)
                (commitEntries (mergedOf (comp w) arg pr pl) (db w)) |},
     [CallPush tok (entriesToSync arg (entries (comp w)));
      CallPull tok (lastSyncTime (comp w));
      CallSaveEntries (mergedOf (comp w) arg pr pl);
      CallSetAppState "lastSyncTime" (clock env)],
     Fulfilled tt).
Proof. apply handler_complete. Qed.

(** ** The merge, record by record *)

Lemma hasId_markSynced id e : hasId id (markSynced e) = hasId id e.
Proof. reflexivity. Qed.

Lemma hasId_true id e : hasId id e = true <-> record_id e = id.
Proof. unfold hasId. apply String.eqb_eq. Qed.

Lemma hasId_false id e : hasId id e = false <-> record_id e <> id.
Proof. unfold hasId. apply String.eqb_neq. Qed.

Lemma hasId_self e : hasId (record_id e) e = true.
Proof. apply hasId_true. reflexivity. Qed.

Lemma findIndex_None {A} (p : A -> bool) l :
  findIndex p l = None <-> existsb p l = false.
Proof.
  induction l as [|x l IH]; simpl; [tauto|].
  destruct (p x); simpl; [split; discriminate|].
  rewrite <- IH. destruct (findIndex p l); simpl; split; congruence.
Qed.

Lemma findIndex_insert s l i :
  findIndex (hasId (record_id s)) l = Some i ->
  <[i := markSynced s]> l = replaceFirst s l.
Proof.
  revert i. induction l as [|e l IH]; intros i; simpl; [discriminate|].
  destruct (hasId (record_id s) e).
  - intros [= <-]. reflexivity.
  - destruct (findIndex (hasId (record_id s)) l) as [j|]; simpl; [|discriminate].
    intros [= <-]. simpl. f_equal. apply IH. reflexivity.
Qed.

Lemma mergeOne_replaceFirst l s :
  mergeOne l s =
    if existsb (hasId (record_id s)) l then replaceFirst s l else markSynced s :: l.
Proof.
  unfold mergeOne.
  destruct (findIndex (hasId (record_id s)) l) as [i|] eqn:E.
  - rewrite (findIndex_insert _ _ _ E).
    destruct (existsb (hasId (record_id s)) l) eqn:Ex; [reflexivity|].
    apply findIndex_None in Ex. congruence.
  - apply findIndex_None in E. rewrite E. reflexivity.
Qed.

Lemma map_id_replaceFirst s l :
  List.map record_id (replaceFirst s l) = List.map record_id l.
Proof.
  induction l as [|e l IH]; simpl; [reflexivity|].
  destruct (hasId (record_id s) e) eqn:E; simpl; [|congruence].
  apply hasId_true in E. congruence.
Qed.

Lemma existsb_hasId_map id l :
  existsb (hasId id) l = existsb (String.eqb id) (List.map record_id l).
Proof.
  induction l as [|e l IH]; simpl; [reflexivity|].
  unfold hasId at 1. rewrite String.eqb_sym. congruence.
Qed.

Lemma existsb_replaceFirst id s l :
  existsb (hasId id) (replaceFirst s l) = existsb (hasId id) l.
Proof. rewrite !existsb_hasId_map, map_id_replaceFirst. reflexivity. Qed.

Lemma withId_replaceFirst_other id s l :
  record_id s <> id -> withId id (replaceFirst s l) = withId id l.
Proof.
  intros Hne. induction l as [|e l IH]; simpl; [reflexivity|].
  destruct (hasId (record_id s) e) eqn:E; simpl.
  - apply hasId_true in E.
    assert (hasId id e = false) as -> by (apply hasId_false; congruence).
    assert (hasId id (markSynced s) = false) as ->
        by (apply hasId_false; simpl; congruence).
    reflexivity.
  - destruct (hasId id e); simpl; fold (withId id l);
      fold (withId id (replaceFirst s l)); congruence.
Qed.

Lemma withId_replaceFirst_same s l :
  existsb (hasId (record_id s)) l = true ->
  withId (record_id s) (replaceFirst s l) = markSynced s :: tl (withId (record_id s) l).
Proof.
  induction l as [|e l IH]; simpl; [discriminate|].
  destruct (hasId (record_id s) e) eqn:E; simpl.
  - intros _. rewrite hasId_markSynced, hasId_self. reflexivity.
  - rewrite E. auto.
Qed.

Lemma withId_absent id l : existsb (hasId id) l = false -> withId id l = [].
Proof.
  induction l as [|e l IH]; simpl; [reflexivity|].
  destruct (hasId id e); simpl; [discriminate|auto].
Qed.

Lemma withId_mergeOne_other id l s :
  record_id s <> id -> withId id (mergeOne l s) = withId id l.
Proof.
  intros Hne. rewrite mergeOne_replaceFirst.
  destruct (existsb (hasId (record_id s)) l).
  - apply withId_replaceFirst_other, Hne.
  - simpl. assert (hasId id (markSynced s) = false) as ->
        by (apply hasId_false; simpl; congruence).
    reflexivity.
Qed.

Lemma withId_mergeOne_same l s :
  withId (record_id s) (mergeOne l s) = markSynced s :: tl (withId (record_id s) l).
Proof.
  rewrite mergeOne_replaceFirst.
  destruct (existsb (hasId (record_id s)) l) eqn:E.
  - apply withId_replaceFirst_same, E.
  - unfold withId. cbn [List.filter].
    rewrite hasId_markSynced, hasId_self. fold (withId (record_id s) l).
    rewrite (withId_absent _ _ E). reflexivity.
Qed.

Lemma mergedEntries_snoc l pulled s :
  mergedEntries l (pulled ++ [s]) = mergeOne (mergedEntries l pulled) s.
Proof. unfold mergedEntries. rewrite foldl_app. reflexivity. Qed.

(** The merge seen at one id: the last pulled version replaces the first
    local record of that id, or becomes the only one; the rest is kept. *)
Lemma withId_mergedEntries id l pulled :
  withId id (mergedEntries l pulled) =
    match pulledVersion id pulled with
    | Some s => markSynced s :: tl (withId id l)
    | None => withId id l
    end.
Proof.
  induction pulled as [|s pulled IH] using rev_ind; [reflexivity|].
  rewrite mergedEntries_snoc. unfold pulledVersion in *.
  rewrite rev_app_distr. simpl.
  destruct (hasId id s) eqn:E.
  - apply hasId_true in E. subst id. rewrite withId_mergeOne_same, IH.
    destruct (find (hasId (record_id s)) (rev pulled)); reflexivity.
  - apply hasId_false in E. rewrite (withId_mergeOne_other _ _ _ E). exact IH.
Qed.

Lemma lookupId_withId id l : lookupId id l = head (withId id l).
Proof.
  unfold lookupId, withId. induction l as [|e l IH]; simpl; [reflexivity|].
  destruct (hasId id e); simpl; auto.
Qed.

Lemma find_rev_withId id l :
  List.find (hasId id) (rev l) = head (rev (withId id l)).
Proof.
  unfold withId. rewrite <- List.filter_rev.
  induction (rev l) as [|e l' IH]; simpl; [reflexivity|].
  destruct (hasId id e); simpl; auto.
Qed.

Lemma find_hasId_None id l :
  List.find (hasId id) l = None <-> existsb (hasId id) l = false.
Proof.
  induction l as [|e l IH]; simpl; [tauto|].
  destruct (hasId id e); simpl; [split; discriminate|exact IH].
Qed.

Lemma pulledVersion_id id pulled s :
  pulledVersion id pulled = Some s -> record_id s = id /\ In s pulled.
Proof.
  unfold pulledVersion. intros H. apply find_some in H as [Hin Hid].
  split; [apply hasId_true, Hid | apply in_rev, Hin].
Qed.

Lemma existsb_rev_eq {A} (p : A -> bool) l : existsb p (rev l) = existsb p l.
Proof.
  induction l as [|x l IH]; simpl; [reflexivity|].
  rewrite existsb_app, IH. simpl. rewrite orb_false_r. apply orb_comm.
Qed.

Lemma pulledVersion_None id pulled :
  pulledVersion id pulled = None <-> existsb (hasId id) pulled = false.
Proof.
  unfold pulledVersion. rewrite find_hasId_None, existsb_rev_eq. reflexivity.
Qed.

(** When the response lists every id once, the version of an id is the
    entry of the response that carries it. *)
Lemma pulledVersion_unique pulled s :
  List.NoDup (List.map record_id pulled) -> In s pulled ->
  pulledVersion (record_id s) pulled = Some s.
Proof.
  intros Hnd Hin.
  destruct (pulledVersion (record_id s) pulled) as [s'|] eqn:E.
  - apply pulledVersion_id in E as [Hid Hin'].
    f_equal. clear -Hnd Hin Hin' Hid.
    induction pulled as [|x l IH]; [destruct Hin|].
    simpl in Hnd. apply List.NoDup_cons_iff in Hnd as [Hx Hnd].
    destruct Hin as [->|Hin], Hin' as [->|Hin']; auto.
    + exfalso. apply Hx. rewrite <- Hid. apply in_map, Hin'.
    + exfalso. apply Hx. rewrite Hid. apply in_map, Hin.
  - apply pulledVersion_None in E.
    assert (existsb (hasId (record_id s)) pulled = true) as Ht
        by (apply existsb_exists; exists s; split; [exact Hin | apply hasId_self]).
    congruence.
Qed.

(** ** Merging the same response twice *)

Lemma replaceFirst_absorb r r' l :
  record_id r = record_id r' ->
  replaceFirst r (replaceFirst r' l) = replaceFirst r l.
Proof.
  intros Hid. induction l as [|e l IH]; cbn [replaceFirst]; [reflexivity|].
  rewrite <- Hid. destruct (hasId (record_id r) e) eqn:E; cbn [replaceFirst].
  - assert (hasId (record_id r) (markSynced r') = true) as ->
        by (apply hasId_true; simpl; congruence).
    reflexivity.
  - rewrite E. f_equal. exact IH.
Qed.

Lemma replaceFirst_comm r r' l :
  record_id r <> record_id r' ->
  replaceFirst r (replaceFirst r' l) = replaceFirst r' (replaceFirst r l).
Proof.
  intros Hne. induction l as [|e l IH]; simpl; [reflexivity|].
  destruct (hasId (record_id r') e) eqn:E', (hasId (record_id r) e) eqn:E; simpl.
  - apply hasId_true in E, E'. congruence.
  - rewrite E'. assert (hasId (record_id r) (markSynced r') = false) as ->
        by (apply hasId_false; simpl; congruence).
    reflexivity.
  - rewrite E. assert (hasId (record_id r') (markSynced r) = false) as ->
        by (apply hasId_false; simpl; congruence).
    reflexivity.
  - rewrite E, E'. f_equal. exact IH.
Qed.

Lemma replaceAll_cons q pulled l :
  replaceAll (q :: pulled) l = replaceAll pulled (replaceFirst q l).
Proof. reflexivity. Qed.

Lemma replaceAll_snoc pulled q l :
  replaceAll (pulled ++ [q]) l = replaceFirst q (replaceAll pulled l).
Proof. unfold replaceAll. rewrite foldl_app. reflexivity. Qed.

Lemma replaceFirst_through r pulled l :
  replaceFirst r (replaceAll pulled (replaceFirst r l)) =
  replaceFirst r (replaceAll pulled l).
Proof.
  revert l. induction pulled as [|q pulled IH]; intros l.
  - simpl. apply replaceFirst_absorb. reflexivity.
  - rewrite !replaceAll_cons.
    destruct (String.eqb_spec (record_id q) (record_id r)) as [Heq|Hne].
    + rewrite (replaceFirst_absorb q r l Heq). reflexivity.
    + rewrite (replaceFirst_comm q r l Hne). apply IH.
Qed.

Lemma replaceAll_head x pulled l :
  existsb (hasId (record_id x)) pulled = false ->
  replaceAll pulled (x :: l) = x :: replaceAll pulled l.
Proof.
  revert x l. induction pulled as [|q pulled IH]; intros x l; [reflexivity|].
  simpl existsb. intros H. apply orb_false_elim in H as [Hq Hrest].
  rewrite !replaceAll_cons. simpl.
  assert (hasId (record_id q) x = false) as ->.
  { apply hasId_false. apply hasId_false in Hq. congruence. }
  apply IH, Hrest.
Qed.

Lemma existsb_mergeOne id l s :
  existsb (hasId id) (mergeOne l s) = hasId id s || existsb (hasId id) l.
Proof.
  rewrite mergeOne_replaceFirst.
  destruct (existsb (hasId (record_id s)) l) eqn:E.
  - rewrite existsb_replaceFirst.
    destruct (hasId id s) eqn:Es; [|reflexivity].
    apply hasId_true in Es. subst id. rewrite E. reflexivity.
  - simpl. rewrite hasId_markSynced. reflexivity.
Qed.

Lemma existsb_mergedEntries id l pulled :
  existsb (hasId id) (mergedEntries l pulled) =
  existsb (hasId id) pulled || existsb (hasId id) l.
Proof.
  induction pulled as [|s pulled IH] using rev_ind; [reflexivity|].
  rewrite mergedEntries_snoc, existsb_mergeOne, IH, existsb_app. simpl.
  destruct (hasId id s), (existsb (hasId id) pulled), (existsb (hasId id) l);
    reflexivity.
Qed.

(** Once every pulled id is in the list, the merge only overwrites. *)
Lemma mergedEntries_replaceAll pulled l :
  (forall s, In s pulled -> existsb (hasId (record_id s)) l = true) ->
  mergedEntries l pulled = replaceAll pulled l.
Proof.
  induction pulled as [|s pulled IH] using rev_ind; intros Hall; [reflexivity|].
  rewrite mergedEntries_snoc, replaceAll_snoc, mergeOne_replaceFirst.
  rewrite existsb_mergedEntries, (Hall s), orb_true_r by (apply in_app_iff; simpl; auto).
  f_equal. apply IH. intros q Hq. apply Hall, in_app_iff. auto.
Qed.

Lemma replaceAll_mergedEntries l pulled :
  replaceAll pulled (mergedEntries l pulled) = mergedEntries l pulled.
Proof.
  induction pulled as [|r pulled IH] using rev_ind; [reflexivity|].
  rewrite mergedEntries_snoc, replaceAll_snoc, mergeOne_replaceFirst.
  destruct (existsb (hasId (record_id r)) (mergedEntries l pulled)) eqn:E.
  - rewrite replaceFirst_through, IH. reflexivity.
  - rewrite replaceAll_head, IH.
    + simpl. rewrite hasId_markSynced, hasId_self. reflexivity.
    + rewrite existsb_mergedEntries in E. apply orb_false_elim in E. apply E.
Qed.

Lemma mergedEntries_twice l pulled :
  mergedEntries (mergedEntries l pulled) pulled = mergedEntries l pulled.
Proof.
  rewrite (mergedEntries_replaceAll pulled (mergedEntries l pulled)).
  - apply replaceAll_mergedEntries.
  - intros s Hs. rewrite existsb_mergedEntries.
    assert (existsb (hasId (record_id s)) pulled = true) as ->
        by (apply existsb_exists; exists s; split; [exact Hs | apply hasId_self]).
    reflexivity.
Qed.

(** ** The entries store after a commit *)

Lemma saveEntries_snoc es e store :
  saveEntries (es ++ [e]) store = <[record_id e := e]> (saveEntries es store).
Proof. unfold saveEntries. rewrite foldl_app. reflexivity. Qed.

(** A key holds the last entry written under it, or what it held before. *)
Lemma lookup_saveEntries id es (store : gmap string Entry) :
  saveEntries es store !! id =
    match List.find (hasId id) (rev es) with
    | Some e => Some e
    | None => store !! id
    end.
Proof.
  induction es as [|e es IH] using rev_ind; [reflexivity|].
  rewrite saveEntries_snoc, rev_app_distr. simpl.
  destruct (hasId id e) eqn:E.
  - apply hasId_true in E. subst id. apply lookup_insert_eq.
  - apply hasId_false in E. rewrite lookup_insert_ne by exact E. exact IH.
Qed.

Lemma saveEntries_twice es (store : gmap string Entry) :
  saveEntries es (saveEntries es store) = saveEntries es store.
Proof.
  apply map_eq. intros id. rewrite !lookup_saveEntries.
  destruct (List.find (hasId id) (rev es)); reflexivity.
Qed.

Lemma saveEntries_keeps id es (store : gmap string Entry) :
  is_Some (store !! id) -> is_Some (saveEntries es store !! id).
Proof.
  intros H. rewrite lookup_saveEntries.
  destruct (List.find (hasId id) (rev es)); [eexists; reflexivity | exact H].
Qed.

Lemma saveEntries_other id es (store : gmap string Entry) :
  existsb (hasId id) es = false -> saveEntries es store !! id = store !! id.
Proof.
  intros H. rewrite lookup_saveEntries.
  assert (List.find (hasId id) (rev es) = None) as ->
      by (apply find_hasId_None; rewrite existsb_rev_eq; exact H).
  reflexivity.
Qed.

(** ** The push outcome, record by record *)

Lemma wasRejected_id pr e : wasRejected pr e = rejectedId pr (record_id e).
Proof. reflexivity. Qed.

Lemma wasInBatch_id batch e : wasInBatch batch e = existsb (hasId (record_id e)) batch.
Proof. reflexivity. Qed.

Lemma withId_updatedEntries id es batch pr :
  withId id (updatedEntries es batch pr) =
    if rejectedId pr id then withId id es
    else if existsb (hasId id) batch then List.map markSynced (withId id es)
    else withId id es.
Proof.
  unfold updatedEntries, withId.
  induction es as [|e es IH]; cbn [List.map List.filter].
  - destruct (rejectedId pr id), (existsb (hasId id) batch); reflexivity.
  - rewrite wasRejected_id, wasInBatch_id.
    assert (forall b1 b2, hasId id (if b1 : bool then e else if b2 : bool
                                     then markSynced e else e) = hasId id e) as ->
        by (intros [] []; reflexivity).
    destruct (hasId id e) eqn:E; [|exact IH].
    apply hasId_true in E. subst id. rewrite IH.
    destruct (rejectedId pr (record_id e)), (existsb (hasId (record_id e)) batch);
      reflexivity.
Qed.

Lemma map_id_updatedEntries es batch pr :
  List.map record_id (updatedEntries es batch pr) = List.map record_id es.
Proof.
  unfold updatedEntries. rewrite List.map_map. apply List.map_ext. intros e.
  destruct (wasRejected pr e), (wasInBatch batch e); reflexivity.
Qed.

Lemma existsb_updatedEntries id es batch pr :
  existsb (hasId id) (updatedEntries es batch pr) = existsb (hasId id) es.
Proof. rewrite !existsb_hasId_map, map_id_updatedEntries. reflexivity. Qed.

Lemma entriesToSync_pending arg es e :
  In e (entriesToSync arg es) -> In e es /\ pendingFlag e = true.
Proof.
  assert (In e (pendingEntries es) -> In e es /\ pendingFlag e = true) as Hp
      by (unfold pendingEntries; apply filter_In).
  unfold entriesToSync.
  destruct arg as [id|]; [destruct (truthy id)|]; auto.
  intros H. apply filter_In in H as [H _]. auto.
Qed.

Lemma withId_In id l e : In e (withId id l) <-> In e l /\ record_id e = id.
Proof. unfold withId. rewrite filter_In, hasId_true. reflexivity. Qed.

Lemma existsb_hasId_In id l :
  existsb (hasId id) l = true <-> exists e, In e l /\ record_id e = id.
Proof.
  rewrite existsb_exists. split; intros [e [H1 H2]]; exists e;
    (split; [exact H1 | apply hasId_true, H2]).
Qed.

(** ** Every run, by cases *)

Lemma run_cases env arg w :
  keepsData w (finalWorld (runSync env arg w)) \/
  commits env arg w (finalWorld (runSync env arg w)).
Proof.
  destruct (guardBlocks (comp w)) eqn:Hg.
  { left. rewrite run_blocked by exact Hg. repeat split. }
  destruct (guardBlocks_false _ Hg) as (tok & Htok & _).
  destruct (entriesToSync arg (entries (comp w))) as [|b bs] eqn:Hb.
  { left. rewrite (run_empty_batch env arg w tok Htok Hg Hb). repeat split. }
  assert (entriesToSync arg (entries (comp w)) <> []) as Hne by congruence.
  destruct (push_reply env) as [pr|e] eqn:Hpush.
  2:{ left. rewrite (run_push_rejected env arg w tok Htok Hg Hne e Hpush).
      repeat split. }
  destruct (pull_reply env) as [pl|e] eqn:Hpull.
  2:{ left. rewrite (run_pull_rejected env arg w tok Htok Hg Hne pr Hpush e Hpull).
      repeat split. }
  destruct (saveEntries_reply env) as [[]|e] eqn:Hsave.
  2:{ left.
      rewrite (run_save_rejected env arg w tok Htok Hg Hne pr Hpush pl Hpull e Hsave).
      repeat split. }
  right. unfold commits. exists pr, pl.
  destruct (setAppState_reply env) as [[]|e] eqn:Hput.
  - rewrite (run_complete env arg w tok Htok Hg Hne pr Hpush pl Hpull Hsave Hput).
    unfold finalWorld. simpl.
    destruct (rejectionWarning pr); simpl; repeat split; auto.
  - rewrite (run_put_rejected env arg w tok Htok Hg Hne pr Hpush pl Hpull Hsave e Hput).
    unfold finalWorld. simpl. repeat split; auto.
Qed.

(** ** Properties of a run *)

Lemma push_called env arg w :
  existsb isPush (callsOf (runSync env arg w)) = true ->
  guardBlocks (comp w) = false /\ entriesToSync arg (entries (comp w)) <> [].
Proof.
  intros H. destruct (guardBlocks (comp w)) eqn:Hg.
  { rewrite run_blocked in H by exact Hg. discriminate. }
  split; [reflexivity|]. intros Hb.
  destruct (guardBlocks_false _ Hg) as (tok & Htok & _).
  rewrite (run_empty_batch env arg w tok Htok Hg Hb) in H. discriminate.
Qed.

(** A run that passes the guard with a non-empty batch starts by pushing
    that batch. *)
Lemma run_starts_with_push env arg w tok :
  token (comp w) = Some tok -> guardBlocks (comp w) = false ->
  entriesToSync arg (entries (comp w)) <> [] ->
  exists rest,
    callsOf (runSync env arg w) =
      CallPush tok (entriesToSync arg (entries (comp w))) :: rest.
Proof.
  intros Htok Hg Hne.
  destruct (push_reply env) as [pr|e] eqn:Hpush.
  2:{ rewrite (run_push_rejected env arg w tok Htok Hg Hne e Hpush). eexists; reflexivity. }
  destruct (pull_reply env) as [pl|e] eqn:Hpull.
  2:{ rewrite (run_pull_rejected env arg w tok Htok Hg Hne pr Hpush e Hpull).
      eexists; reflexivity. }
  destruct (saveEntries_reply env) as [[]|e] eqn:Hsave.
  2:{ rewrite (run_save_rejected env arg w tok Htok Hg Hne pr Hpush pl Hpull e Hsave).
      eexists; reflexivity. }
  destruct (setAppState_reply env) as [[]|e] eqn:Hput.
  - rewrite (run_complete env arg w tok Htok Hg Hne pr Hpush pl Hpull Hsave Hput).
    eexists; reflexivity.
  - rewrite (run_put_rejected env arg w tok Htok Hg Hne pr Hpush pl Hpull Hsave e Hput).
    eexists; reflexivity.
Qed.

(** C1: when the push call gets no response the run stops there: no pull is
    issued, the entries (hence every pending flag and the pending set), the
    watermark and the whole local database are as before the run, and the
    error is the outcome shown to the caller. *)
Theorem push_transport_failure_aborts env arg w e :
  existsb isPush (callsOf (runSync env arg w)) = true ->
  push_reply env = Rejected e ->
  existsb isPull (callsOf (runSync env arg w)) = false /\
  length (callsOf (runSync env arg w)) = 1%nat /\
  entries (comp (finalWorld (runSync env arg w))) = entries (comp w) /\
  pendingEntries (entries (comp (finalWorld (runSync env arg w))))
    = pendingEntries (entries (comp w)) /\
  lastSyncTime (comp (finalWorld (runSync env arg w))) = lastSyncTime (comp w) /\
  db (finalWorld (runSync env arg w)) = db w /\
  syncError (comp (finalWorld (runSync env arg w))) = Some (errorMessage e) /\
  isSyncing (comp (finalWorld (runSync env arg w))) = false.
Proof.
  intros Hcalled Hpush.
  destruct (push_called _ _ _ Hcalled) as [Hg Hne].
  destruct (guardBlocks_false _ Hg) as (tok & Htok & _).
  rewrite (run_push_rejected env arg w tok Htok Hg Hne e Hpush).
  repeat split.
Qed.

Lemma push_transport_failure_aborts_witness :
  entries (comp (finalWorld (runSync (envPushDown 1000) None (clientWith [r1] None))))
    = [r1] /\
  db (finalWorld (runSync (envPushDown 1000) None (clientWith [r1] None)))
    = db (clientWith [r1] None) /\
  syncError (comp (finalWorld (runSync (envPushDown 1000) None (clientWith [r1] None))))
    = Some "Failed to fetch".
Proof.
  pose proof (push_transport_failure_aborts (envPushDown 1000) None
                (clientWith [r1] None) (ThrownError "Failed to fetch")
                eq_refl eq_refl) as H.
  destruct H as (_ & _ & He & _ & _ & Hd & Hs & _).
  exact (conj He (conj Hd Hs)).
Defined.

(** C2 (as the code has it): the watermark changes only in a run whose push
    and pull were answered and whose merged list was written to the store;
    its new value is then the time read by the run after the write, whatever
    the pull returned; the persisted copy changes only in such a run too.
    When the store write fails both copies are unchanged.  The watermark
    does not move backward as long as the clock is not behind it. *)
Theorem watermark_set_to_run_time_after_commit env arg w :
  (lastSyncTime (comp (finalWorld (runSync env arg w))) <> lastSyncTime (comp w) ->
   lastSyncTime (comp (finalWorld (runSync env arg w))) = Some (clock env) /\
   exists pr pl,
     push_reply env = Fulfilled pr /\ pull_reply env = Fulfilled pl /\
     saveEntries_reply env = Fulfilled tt /\
     db_entries (db (finalWorld (runSync env arg w)))
       = saveEntries (mergedOf (comp w) arg pr pl) (db_entries (db w))) /\
  (db_appState (db (finalWorld (runSync env arg w))) <> db_appState (db w) ->
   db_appState (db (finalWorld (runSync env arg w)))
     = <["lastSyncTime" := clock env]> (db_appState (db w)) /\
   lastSyncTime (comp (finalWorld (runSync env arg w))) = Some (clock env) /\
   exists pr pl,
     push_reply env = Fulfilled pr /\ pull_reply env = Fulfilled pl /\
     saveEntries_reply env = Fulfilled tt /\
     db_entries (db (finalWorld (runSync env arg w)))
       = saveEntries (mergedOf (comp w) arg pr pl) (db_entries (db w))) /\
  (forall e, saveEntries_reply env = Rejected e ->
   lastSyncTime (comp (finalWorld (runSync env arg w))) = lastSyncTime (comp w) /\
   db_appState (db (finalWorld (runSync env arg w))) = db_appState (db w)) /\
  ((forall t, lastSyncTime (comp w) = Some t -> (t <= clock env)%Z) ->
   forall t, lastSyncTime (comp w) = Some t ->
   exists t', lastSyncTime (comp (finalWorld (runSync env arg w))) = Some t' /\
              (t <= t')%Z).
Proof.
  destruct (run_cases env arg w) as [(He & Hl & Hd) | (pr & pl & Hp & Hq & Hs & He & Hl & Hd & Ha)].
  - rewrite Hl, Hd. repeat split; try congruence.
    intros _ t Ht. exists t. split; [exact Ht | lia].
  - repeat split.
    + exact Hl.
    + exists pr, pl. auto.
    + destruct (setAppState_reply env); [exact Ha | congruence].
    + exact Hl.
    + exists pr, pl. auto.
    + congruence.
    + congruence.
    + intros Hclock t Ht. exists (clock env). split; [exact Hl | auto].
Qed.

(** C2, as stated, fails: a run whose clock reads 50 replaces the watermark
    100 by 50. *)
Lemma watermark_moves_backward :
  lastSyncTime (comp (clientWith [r1] (Some 100%Z))) = Some 100%Z /\
  lastSyncTime (comp (finalWorld
    (runSync (envOk 50 (pushReply 1 0 None) (pullReply [])) None
             (clientWith [r1] (Some 100%Z))))) = Some 50%Z /\
  db_appState (db (finalWorld
    (runSync (envOk 50 (pushReply 1 0 None) (pullReply [])) None
             (clientWith [r1] (Some 100%Z))))) !! "lastSyncTime" = Some 50%Z.
Proof. repeat split; vm_compute; reflexivity. Qed.

(** C10 (as the code has it): when the push was answered and the pull call or the
    write of the entries then fails, the entries, the watermark and the
    whole database are as before the run; every record of the batch is
    still there and pending, the error is shown, and the next run pushes
    the same batch again. *)
Theorem failure_after_push_keeps_batch_pending env arg w pr :
  existsb isPush (callsOf (runSync env arg w)) = true ->
  push_reply env = Fulfilled pr ->
  (exists e, pull_reply env = Rejected e) \/
  (exists pl e, pull_reply env = Fulfilled pl /\ saveEntries_reply env = Rejected e) ->
  entries (comp (finalWorld (runSync env arg w))) = entries (comp w) /\
  lastSyncTime (comp (finalWorld (runSync env arg w))) = lastSyncTime (comp w) /\
  db (finalWorld (runSync env arg w)) = db w /\
  (exists m, syncError (comp (finalWorld (runSync env arg w))) = Some m) /\
  (forall e, In e (entriesToSync arg (entries (comp w))) ->
     In e (entries (comp (finalWorld (runSync env arg w)))) /\ pendingFlag e = true) /\
  (forall env', exists tok rest,
     callsOf (runSync env' arg (finalWorld (runSync env arg w)))
       = CallPush tok (entriesToSync arg (entries (comp w))) :: rest).
Proof.
  intros Hcalled Hpush Hfail.
  destruct (push_called _ _ _ Hcalled) as [Hg Hne].
  destruct (guardBlocks_false _ Hg) as (tok & Htok & Htr & Hon & Hsy).
  assert (exists e,
    runSync env arg w = (withComp (fun c => afterFailure e (started c)) w,
                         callsOf (runSync env arg w), Fulfilled tt)) as [e Hrun].
  { destruct Hfail as [[e Hpull] | (pl & e & Hpull & Hsave)]; exists e.
    - rewrite (run_pull_rejected env arg w tok Htok Hg Hne pr Hpush e Hpull). reflexivity.
    - rewrite (run_save_rejected env arg w tok Htok Hg Hne pr Hpush pl Hpull e Hsave).
      reflexivity. }
  rewrite Hrun. unfold finalWorld. cbn [fst snd withComp comp db].
  split; [reflexivity|]. split; [reflexivity|]. split; [reflexivity|].
  split; [eexists; reflexivity|]. split.
  - intros x Hx. apply entriesToSync_pending in Hx. exact Hx.
  - intros env'. exists tok.
    apply (run_starts_with_push env' arg
             {| comp := afterFailure e (started (comp w)); db := db w |} tok).
    + exact Htok.
    + unfold guardBlocks. cbn. rewrite Htok, Hon, Htr. reflexivity.
    + exact Hne.
Qed.

Lemma failure_after_push_keeps_batch_pending_witness :
  entries (comp (finalWorld
    (runSync (envPullDown 1000 (pushReply 1 0 None)) None (clientWith [r1] None))))
    = [r1] /\
  db (finalWorld
    (runSync (envPullDown 1000 (pushReply 1 0 None)) None (clientWith [r1] None)))
    = db (clientWith [r1] None).
Proof.
  pose proof (failure_after_push_keeps_batch_pending
                (envPullDown 1000 (pushReply 1 0 None)) None (clientWith [r1] None)
                (pushReply 1 0 None) eq_refl eq_refl
                (or_introl (ex_intro _ (ThrownError "HTTP 502: Bad Gateway") eq_refl)))
    as H.
  destruct H as (He & _ & Hd & _).
  exact (conj He Hd).
Defined.

(** C3: for an id the pull response carries, the local record for that id
    after the merge is the pulled version with [isPending = false], every
    other field being the server's (the last version, should the response
    repeat the id).  When the id was already local the record is overwritten
    in place and none is added; when it was not, exactly one record is
    inserted. *)
Theorem server_wins_merge local pulled id s :
  pulledVersion id pulled = Some s ->
  lookupId id (mergedEntries local pulled) = Some (markSynced s) /\
  isPending (markSynced s) = Some false /\
  (existsb (hasId id) local = true ->
     length (withId id (mergedEntries local pulled)) = length (withId id local)) /\
  (existsb (hasId id) local = false ->
     withId id (mergedEntries local pulled) = [markSynced s]) /\
  ((length (withId id local) <= 1)%nat ->
     forall store : gmap string Entry,
       saveEntries (mergedEntries local pulled) store !! id = Some (markSynced s)).
Proof.
  intros Hs. rewrite lookupId_withId, withId_mergedEntries, Hs.
  split; [reflexivity|]. split; [reflexivity|]. split; [|split].
  - intros Hin. apply existsb_hasId_In in Hin as (e & He & Hid).
    assert (In e (withId id local)) as Hw by (apply withId_In; auto).
    destruct (withId id local); [destruct Hw | reflexivity].
  - intros Hout. rewrite (withId_absent _ _ Hout). reflexivity.
  - intros Hlen store.
    rewrite lookup_saveEntries, find_rev_withId, withId_mergedEntries, Hs.
    destruct (withId id local) as [|x [|y l]]; cbn in *; try reflexivity; lia.
Qed.

Lemma server_wins_merge_witness :
  lookupId "r1" (mergedEntries [r1] [r1_server]) = Some (markSynced r1_server) /\
  isPending (markSynced r1_server) = Some false.
Proof.
  pose proof (server_wins_merge [r1] [r1_server] "r1" r1_server eq_refl) as H.
  destruct H as (H1 & H2 & _).
  exact (conj H1 H2).
Defined.

(** C4, on the code: the push answers [rejected = 1] without
    [rejected_ids]; the run marks the only record of the batch as synced, in
    the state and in the store, and reports no error. *)
Lemma missing_rejected_ids_marks_batch_synced :
  entriesToSync None (entries (comp (clientWith [r1] None))) = [r1] /\
  entries (comp (finalWorld
    (runSync (envOk 1000 (pushReply 0 1 None) (pullReply [])) None
             (clientWith [r1] None)))) = [markSynced r1] /\
  db_entries (db (finalWorld
    (runSync (envOk 1000 (pushReply 0 1 None) (pullReply [])) None
             (clientWith [r1] None)))) !! "r1" = Some (markSynced r1) /\
  syncError (comp (finalWorld
    (runSync (envOk 1000 (pushReply 0 1 None) (pullReply [])) None
             (clientWith [r1] None)))) = None.
Proof. repeat split; vm_compute; reflexivity. Qed.

(** C5 (as the code has it): a run issues no call at all exactly when the
    client is offline, a run is already in progress, there is no token, or
    the batch to push is empty; the button and the interval run the same
    code, so a manual run with nothing pending stays silent too. *)
Theorem silent_run_iff env t w :
  (callsOf (trigger env t w) = [] <->
   isOnline (comp w) = false \/ isSyncing (comp w) = true \/
   token (comp w) = None \/ token (comp w) = Some "" \/
   entriesToSync (triggerArg t) (entries (comp w)) = []) /\
  trigger env ManualAll w = trigger env Periodic w.
Proof.
  split; [|reflexivity]. unfold trigger.
  destruct (guardBlocks (comp w)) eqn:Hg.
  - rewrite run_blocked by exact Hg. split; [intros _|reflexivity].
    unfold guardBlocks in Hg. destruct (token (comp w)) as [tok|]; [|auto].
    destruct (isOnline (comp w)); [|auto]. destruct (isSyncing (comp w)); [auto|].
    simpl in Hg. unfold truthy in Hg. apply negb_true_iff, negb_false_iff in Hg.
    apply String.eqb_eq in Hg. subst tok. auto.
  - destruct (guardBlocks_false _ Hg) as (tok & Htok & Htr & Hon & Hsy).
    destruct (entriesToSync (triggerArg t) (entries (comp w))) as [|b bs] eqn:Hb.
    + rewrite (run_empty_batch env _ w tok Htok Hg Hb). split; auto.
    + assert (entriesToSync (triggerArg t) (entries (comp w)) <> []) as Hne by congruence.
      destruct (run_starts_with_push env _ w tok Htok Hg Hne) as [rest Hrest].
      rewrite Hrest. split; [discriminate|].
      rewrite Hon, Hsy, Htok.
      intros [H|[H|[H|[H|H]]]]; try discriminate.
      injection H as ->. discriminate.
Qed.

(** C5, as stated, fails: online, idle and authenticated, with nothing
    pending, the "Sync All" button issues no call. *)
Lemma manual_run_with_nothing_pending_is_silent :
  isOnline (comp (clientWith [] None)) = true /\
  pendingEntries (entries (comp (clientWith [] None))) = [] /\
  callsOf (trigger (envOk 1000 (pushReply 0 0 None) (pullReply [])) ManualAll
                   (clientWith [] None)) = [].
Proof. repeat split. Qed.

(** What a run leaves of the records of an id that is neither rejected-or-
    outside the batch nor pulled: the merged list has the same records. *)
Lemma withId_mergedOf_frame c arg pr pl id :
  existsb (hasId id) (entriesToSync arg (entries c)) = false \/ rejectedId pr id = true ->
  existsb (hasId id) (default [] (pull_entries pl)) = false ->
  withId id (mergedOf c arg pr pl) = withId id (entries c).
Proof.
  intros Hb Hp. unfold mergedOf.
  rewrite withId_mergedEntries.
  apply pulledVersion_None in Hp. rewrite Hp.
  rewrite withId_updatedEntries.
  destruct Hb as [Hb|Hb]; rewrite Hb; [|reflexivity].
  destruct (rejectedId pr id); reflexivity.
Qed.

Lemma existsb_mergedOf c arg pr pl id :
  existsb (hasId id) (entries c) = true ->
  existsb (hasId id) (mergedOf c arg pr pl) = true.
Proof.
  intros H. unfold mergedOf.
  rewrite existsb_mergedEntries, existsb_updatedEntries, H. apply orb_true_r.
Qed.

(** C6 (as the code has it): when the push response lists rejected ids and
    the pull and the two store writes go through, the pull is issued; every
    record whose id is rejected and not in the pull response is unchanged in
    the state, and in the store when the store agreed with the state; the
    records of the batch were pending; the outcome is the warning carrying
    the number of listed ids; and the watermark is set to the run's time. *)
Theorem rejected_records_unchanged_with_warning env arg w pr pl ids :
  existsb isPush (callsOf (runSync env arg w)) = true ->
  push_reply env = Fulfilled pr ->
  rejected_ids pr = Some ids -> ids <> [] ->
  pull_reply env = Fulfilled pl ->
  saveEntries_reply env = Fulfilled tt ->
  setAppState_reply env = Fulfilled tt ->
  existsb isPull (callsOf (runSync env arg w)) = true /\
  (forall id, In id ids ->
     existsb (hasId id) (default [] (pull_entries pl)) = false ->
     withId id (entries (comp (finalWorld (runSync env arg w))))
       = withId id (entries (comp w)) /\
     (storeAgrees w id ->
      db_entries (db (finalWorld (runSync env arg w))) !! id = db_entries (db w) !! id)) /\
  (forall e, In e (entriesToSync arg (entries (comp w))) -> pendingFlag e = true) /\
  syncError (comp (finalWorld (runSync env arg w))) = Some (rejectionMessage ids) /\
  lastSyncTime (comp (finalWorld (runSync env arg w))) = Some (clock env) /\
  db_appState (db (finalWorld (runSync env arg w))) !! "lastSyncTime" = Some (clock env).
Proof.
  intros Hcalled Hpush Hids Hne Hpull Hsave Hput.
  destruct (push_called _ _ _ Hcalled) as [Hg Hb].
  destruct (guardBlocks_false _ Hg) as (tok & Htok & _).
  rewrite (run_complete env arg w tok Htok Hg Hb pr Hpush pl Hpull Hsave Hput).
  unfold finalWorld, callsOf, rejectionWarning. rewrite Hids.
  assert ((0 <? length ids)%nat = true) as ->
      by (destruct ids; [congruence | reflexivity]).
  cbn [fst snd comp db]. split; [reflexivity|]. split; [|split; [|split; [|split]]].
  - intros id Hin Hnp.
    assert (rejectedId pr id = true) as Hrej.
    { unfold rejectedId. rewrite Hids. apply existsb_exists. exists id.
      split; [exact Hin | apply String.eqb_refl]. }
    pose proof (withId_mergedOf_frame (comp w) arg pr pl id (or_intror Hrej) Hnp) as Hw.
    split; [exact Hw|].
    intros Hag. cbn. rewrite lookup_saveEntries, find_rev_withId, Hw, <- find_rev_withId.
    unfold storeAgrees in Hag.
    destruct (List.find (hasId id) (rev (entries (comp w)))); [symmetry; exact Hag | reflexivity].
  - intros e He. apply entriesToSync_pending in He. apply He.
  - reflexivity.
  - reflexivity.
  - cbn. apply lookup_insert_eq.
Qed.

Lemma rejected_records_unchanged_with_warning_witness :
  entries (comp (finalWorld
    (runSync (envOk 1000 (pushReply 0 1 (Some ["r1"])) (pullReply [])) None
             (clientWith [r1] None)))) = [r1] /\
  syncError (comp (finalWorld
    (runSync (envOk 1000 (pushReply 0 1 (Some ["r1"])) (pullReply [])) None
             (clientWith [r1] None)))) = Some "1 entries were rejected due to conflicts".
Proof.
  pose proof (rejected_records_unchanged_with_warning
                (envOk 1000 (pushReply 0 1 (Some ["r1"])) (pullReply [])) None
                (clientWith [r1] None) (pushReply 0 1 (Some ["r1"])) (pullReply [])
                ["r1"] eq_refl eq_refl eq_refl
                (fun H : ["r1"] = [] => eq_ind ["r1"]
                   (fun l => match l with [] => False | _ :: _ => True end) I [] H)
                eq_refl eq_refl eq_refl) as H.
  destruct H as (_ & Hrec & _ & Hs & _).
  destruct (Hrec "r1" (or_introl eq_refl) eq_refl) as [Hw _].
  split; [reflexivity | exact Hs].
Defined.

(** C6, as stated, fails on the watermark (the end-to-end scenario with [r1]
    rejected): the record stays pending and the warning counts one
    rejection, but the watermark, absent before the run, is set to the time
    of the run, in the state and in the store. *)
Lemma rejection_run_advances_watermark :
  lastSyncTime (comp (clientWith [r1] None)) = None /\
  entries (comp (finalWorld
    (runSync (envOk 1000 (pushReply 0 1 (Some ["r1"])) (pullReply [])) None
             (clientWith [r1] None)))) = [r1] /\
  syncError (comp (finalWorld
    (runSync (envOk 1000 (pushReply 0 1 (Some ["r1"])) (pullReply [])) None
             (clientWith [r1] None)))) = Some "1 entries were rejected due to conflicts" /\
  lastSyncTime (comp (finalWorld
    (runSync (envOk 1000 (pushReply 0 1 (Some ["r1"])) (pullReply [])) None
             (clientWith [r1] None)))) = Some 1000%Z /\
  db_appState (db (finalWorld
    (runSync (envOk 1000 (pushReply 0 1 (Some ["r1"])) (pullReply [])) None
             (clientWith [r1] None)))) !! "lastSyncTime" = Some 1000%Z.
Proof. repeat split; vm_compute; reflexivity. Qed.

(** C7: merging a pull response a second time changes nothing, neither in
    the merged list nor in the store the list is written to. *)
Theorem merge_idempotent (local pulled : list Entry) (store : gmap string Entry) :
  mergedEntries (mergedEntries local pulled) pulled = mergedEntries local pulled /\
  saveEntries (mergedEntries (mergedEntries local pulled) pulled)
              (saveEntries (mergedEntries local pulled) store)
    = saveEntries (mergedEntries local pulled) store.
Proof.
  rewrite mergedEntries_twice. split; [reflexivity | apply saveEntries_twice].
Qed.


(** ** One run at a time *)

Ltac run_prog H :=
  cbn [resume advance tryFinally tryCatch bind mbind Prog_bind await setState
       api_sync_push api_sync_pull db_saveEntries db_setAppState newDate
       settleSave settlePut withDb comp db Nat.ltb Nat.leb Nat.eqb length] in H.

Ltac settle_all H :=
  run_prog H;
  repeat match type of H with
         | context [push_reply ?e] => destruct (push_reply e) as [?|?]; run_prog H
         | context [pull_reply ?e] => destruct (pull_reply e) as [?|?]; run_prog H
         | context [saveEntries_reply ?e] =>
             destruct (saveEntries_reply e) as [?|?]; run_prog H
         | context [setAppState_reply ?e] =>
             destruct (setAppState_reply e) as [?|?]; run_prog H
         | context [match rejected_ids ?a with Some _ => _ | None => _ end] =>
             destruct (rejected_ids a) as [[|? ?]|]; run_prog H
         end.

Ltac hold_step :=
  constructor; intros ?env ?w ?w' ?p' ?call ?Hs ?Hres ?Haw;
  match goal with
  | Hres : resume _ _ _ = _, Hs : isSyncing _ = true, Haw : awaiting _ = Some _ |- _ =>
      settle_all Hres; inversion Hres; subst; clear Hres;
      try discriminate Haw; try exact Hs; clear Haw
  end.

(** While [isSyncing] is set the handler returns at once. *)
Lemma handleSync_busy c arg : isSyncing c = true -> handleSync c arg = Ret tt.
Proof.
  intros H. unfold handleSync. destruct (token c); [|reflexivity].
  rewrite H, orb_true_r. reflexivity.
Qed.

(** A handler that suspends has set the flag and holds it to its end. *)
Lemma handleSync_holdsFlag now c arg c0 c' p call :
  advance now (handleSync c arg) c0 = (c', p) -> awaiting p = Some call ->
  isSyncing c' = true /\ holdsFlag p.
Proof.
  intros Hadv Haw.
  unfold handleSync in Hadv.
  destruct (token c) as [tok|]; [|inversion Hadv; subst; discriminate].
  destruct (negb (isOnline c) || isSyncing c || negb (truthy tok));
    [inversion Hadv; subst; discriminate|].
  destruct (entriesToSync arg (entries c)) as [|b bs].
  { run_prog Hadv. inversion Hadv; subst; discriminate. }
  run_prog Hadv. inversion Hadv; subst. clear Hadv Haw.
  split; [reflexivity|].
  hold_step. all: hold_step. all: hold_step. all: hold_step.
Qed.

(** A trigger on an idle client starts at most one run; one whose render
    saw the flag of the suspended run returns at once. *)
Lemma singleFlight_invoke now arg s :
  singleFlight s -> flagRendered s -> singleFlight (step (Invoke now arg) s).
Proof.
  intros Hinv Hseen. cbn [step].
  destruct Hinv as [Hidle | (p0 & Hrun & Hflag & Hhold)].
  - destruct (advance now (handleSync (rendered s) arg) (comp (world s)))
      as [c p] eqn:Hadv.
    destruct (awaiting p) as [call|] eqn:Haw.
    + destruct (handleSync_holdsFlag _ _ _ _ _ _ _ Hadv Haw) as [Hc Hp].
      right. exists p. cbn. rewrite Hidle. auto.
    + left. exact Hidle.
  - rewrite (handleSync_busy (rendered s) arg)
      by (apply Hseen; rewrite Hrun; discriminate).
    cbn. right. exists p0. cbn. auto.
Qed.

Lemma singleFlight_settle i env s : singleFlight s -> singleFlight (step (Settle i env) s).
Proof.
  intros Hinv. cbn [step].
  destruct Hinv as [Hidle | (p0 & Hrun & Hflag & Hhold)].
  - rewrite Hidle. cbn. left. exact Hidle.
  - rewrite Hrun. destruct i as [|i]; cbn; [|right; exists p0; auto].
    destruct (resume env p0 (world s)) as [w' p'] eqn:Hres.
    destruct (awaiting p') as [call|] eqn:Haw.
    + right. exists p'. cbn. inversion Hhold as [q H1 H2]; subst.
      split; [reflexivity|]. split; [eapply H1 | eapply H2]; eauto.
    + left. reflexivity.
Qed.

Lemma flagRendered_settle i env s : flagRendered s -> flagRendered (step (Settle i env) s).
Proof.
  unfold flagRendered. intros H. cbn [step].
  destruct (running s !! i) as [p|] eqn:Hp; [|exact H].
  assert (running s <> []) as Hne by (intros E; rewrite E in Hp; discriminate).
  destruct (resume env p (world s)) as [w' p'].
  destruct (awaiting p'); cbn; intros _; exact (H Hne).
Qed.

(** With a render between any two triggers the invariant holds along every
    sequence of events. *)
Lemma singleFlight_runEvents evs : forall seen s,
  singleFlight s -> (seen = true -> flagRendered s) ->
  renderBetweenTriggers seen evs = true -> singleFlight (runEvents evs s).
Proof.
  induction evs as [|ev evs IH]; intros seen s Hinv Hseen Hev; [exact Hinv|].
  change (runEvents (ev :: evs) s) with (runEvents evs (step ev s)).
  destruct ev as [now arg | i env | online | newEntry | ];
    cbn [renderBetweenTriggers] in Hev.
  - apply andb_true_iff in Hev as [-> Hev].
    apply (IH false); [apply singleFlight_invoke; auto | discriminate | exact Hev].
  - apply (IH seen); [apply singleFlight_settle, Hinv | | exact Hev].
    intros Hs. apply flagRendered_settle, Hseen, Hs.
  - apply (IH seen); [| intros Hs; exact (Hseen Hs) | exact Hev].
    destruct Hinv as [Hidle | (p0 & Hrun & Hflag & Hhold)];
      [left; exact Hidle | right; exists p0; cbn; auto].
  - apply (IH seen); [| intros Hs; exact (Hseen Hs) | exact Hev].
    destruct Hinv as [Hidle | (p0 & Hrun & Hflag & Hhold)];
      [left; exact Hidle | right; exists p0; cbn; auto].
  - apply (IH true); [| | exact Hev].
    + destruct Hinv as [Hidle | (p0 & Hrun & Hflag & Hhold)];
        [left; exact Hidle | right; exists p0; cbn; auto].
    + intros _ Hne. cbn in *.
      destruct Hinv as [Hidle | (p0 & Hrun & Hflag & Hhold)];
        [contradiction | exact Hflag].
Qed.

(** A trigger whose render saw the flag of the suspended run changes
    nothing: no state update, no call, no second suspended run. *)
Lemma invoke_while_running s now arg :
  flagRendered s -> running s <> [] -> step (Invoke now arg) s = s.
Proof.
  intros Hseen Hne. cbn [step]. rewrite (handleSync_busy _ arg (Hseen Hne)). cbn.
  destruct s as [[c d] r rn i]. reflexivity.
Qed.

(** After a render, the flag of a suspended run has been seen. *)
Lemma flagRendered_render s : singleFlight s -> flagRendered (step Render s).
Proof.
  intros [Hidle | (p0 & Hrun & Hflag & Hhold)] Hne; cbn in *;
    [contradiction | exact Hflag].
Qed.

(** A handler that passes the guard with a batch sets the flag, clears the
    error and stops at the push of the batch. *)
Lemma advance_handleSync_suspends now c arg c0 tok :
  token c = Some tok -> guardBlocks c = false -> entriesToSync arg (entries c) <> [] ->
  exists p, advance now (handleSync c arg) c0 = (started c0, p) /\
            awaiting p = Some (CallPush tok (entriesToSync arg (entries c))).
Proof.
  unfold handleSync, guardBlocks. intros -> -> Hb.
  destruct (entriesToSync arg (entries c)) as [|b bs]; [contradiction|].
  cbn [advance tryFinally tryCatch bind mbind Prog_bind await setState
       api_sync_push Nat.eqb length].
  eexists. split; reflexivity.
Qed.

(** ** The machine and the big-step run agree *)

Ltac within_step :=
  first
    [ apply within_done; reflexivity
    | apply within_step; intros ?env ?w ?w' ?p' ?Hres;
      match goal with
      | Hres : resume _ _ _ = _ |- _ =>
          settle_all Hres; inversion Hres; subst; clear Hres
      end ].

Lemma handleSync_within now c arg c0 :
  within 4 (advance now (handleSync c arg) c0).2.
Proof.
  unfold handleSync.
  destruct (token c) as [tok|]; [|apply within_done; reflexivity].
  destruct (negb (isOnline c) || isSyncing c || negb (truthy tok));
    [apply within_done; reflexivity|].
  destruct (entriesToSync arg (entries c)) as [|b bs];
    [apply within_done; reflexivity|].
  cbn [advance tryFinally tryCatch bind mbind Prog_bind await setState
       api_sync_push Nat.eqb length snd].
  within_step. all: within_step. all: within_step. all: within_step.
  all: within_step.
Qed.

(** The handler reads no clock before its first [await]. *)
Lemma advance_now_handleSync now now' c arg c0 :
  advance now (handleSync c arg) c0 = advance now' (handleSync c arg) c0.
Proof.
  unfold handleSync.
  destruct (token c) as [tok|]; [|reflexivity].
  destruct (negb (isOnline c) || isSyncing c || negb (truthy tok)); [reflexivity|].
  destruct (entriesToSync arg (entries c)) as [|b bs]; reflexivity.
Qed.

Lemma exec_advance {A} env (p : Prog A) w :
  exec env p w =
  exec env (advance (clock env) p (comp w)).2
       {| comp := (advance (clock env) p (comp w)).1; db := db w |}.
Proof.
  revert w. induction p as [a|e|f k IH|k IH|t b k IH|t s k IH|es k IH|key v k IH];
    intros w; try (destruct w; reflexivity).
  - cbn [exec advance]. rewrite IH. reflexivity.
  - cbn [exec advance]. apply IH.
Qed.

Lemma exec_resume {A} env (p : Prog A) w call :
  awaiting p = Some call ->
  exec env p w =
    (let '(w2, cs, r) := exec env (resume env p w).2 (resume env p w).1 in
     (w2, call :: cs, r)).
Proof.
  destruct p as [a|e|f k|k|t b k|t s k|es k|key v k]; try discriminate;
    intros [= <-]; cbn [exec resume].
  - rewrite (exec_advance env (k (push_reply env)) w).
    destruct (advance (clock env) (k (push_reply env)) (comp w)); reflexivity.
  - rewrite (exec_advance env (k (pull_reply env)) w).
    destruct (advance (clock env) (k (pull_reply env)) (comp w)); reflexivity.
  - rewrite (exec_advance env (k (saveEntries_reply env))).
    destruct (advance (clock env) (k (saveEntries_reply env))
                (comp (settleSave es (saveEntries_reply env) w))); reflexivity.
  - rewrite (exec_advance env (k (setAppState_reply env))).
    destruct (advance (clock env) (k (setAppState_reply env))
                (comp (settlePut key v (setAppState_reply env) w))); reflexivity.
Qed.

Lemma advance_stops {A} now (p : Prog A) c : stopped (advance now p c).2.
Proof.
  revert c. induction p as [a|e|f k IH|k IH|t b k IH|t s k IH|es k IH|key v k IH];
    intros c; cbn [advance snd stopped]; auto.
Qed.

Lemma resume_stops {A} env (p : Prog A) w : stopped p -> stopped (resume env p w).2.
Proof.
  destruct p as [a|e|f k|k|t b k|t s k|es k|key v k]; cbn [resume]; auto.
  - intros _. pose proof (advance_stops (clock env) (k (push_reply env)) (comp w)) as H.
    destruct (advance (clock env) (k (push_reply env)) (comp w)); exact H.
  - intros _. pose proof (advance_stops (clock env) (k (pull_reply env)) (comp w)) as H.
    destruct (advance (clock env) (k (pull_reply env)) (comp w)); exact H.
  - intros _.
    pose proof (advance_stops (clock env) (k (saveEntries_reply env))
                  (comp (settleSave es (saveEntries_reply env) w))) as H.
    destruct (advance (clock env) (k (saveEntries_reply env))
                (comp (settleSave es (saveEntries_reply env) w))); exact H.
  - intros _.
    pose proof (advance_stops (clock env) (k (setAppState_reply env))
                  (comp (settlePut key v (setAppState_reply env) w))) as H.
    destruct (advance (clock env) (k (setAppState_reply env))
                (comp (settlePut key v (setAppState_reply env) w))); exact H.
Qed.

Lemma exec_ended env (p : Prog unit) w :
  stopped p -> awaiting p = None ->
  finalWorld (exec env p w) = w /\ callsOf (exec env p w) = [].
Proof.
  destruct p as [a|e|f k|k|t b k|t s k|es k|key v k]; cbn; intros Hs Ha;
    try discriminate; try contradiction; auto.
Qed.

Lemma runEvents_cons ev evs s : runEvents (ev :: evs) s = runEvents evs (step ev s).
Proof. reflexivity. Qed.

Lemma runEvents_app evs evs' s :
  runEvents (evs ++ evs') s = runEvents evs' (runEvents evs s).
Proof. unfold runEvents. apply foldl_app. Qed.

Lemma drain_S n env s : drain (S n) env s = drain n env (step (Settle 0 env) s).
Proof. reflexivity. Qed.

Lemma drain_idle n env s : running s = [] -> drain n env s = s.
Proof.
  intros H. induction n as [|n IH]; [reflexivity|].
  rewrite drain_S. cbn [step]. rewrite H. exact IH.
Qed.

Lemma step_settle_single env w c p cs0 :
  step (Settle 0 env) {| world := w; rendered := c; running := [p]; issued := cs0 |} =
    match awaiting (resume env p w).2 with
    | Some call => {| world := (resume env p w).1; rendered := c;
                      running := [(resume env p w).2]; issued := cs0 ++ [call] |}
    | None => {| world := (resume env p w).1; rendered := c; running := [];
                 issued := cs0 |}
    end.
Proof.
  cbn. destruct (resume env p w) as [w' p']. reflexivity.
Qed.

(** Settling a suspended run to its end gives the world and the calls of
    the big-step execution. *)
Lemma drain_exec n env p w c cs0 call :
  within n p -> awaiting p = Some call ->
  drain n env {| world := w; rendered := c; running := [p]; issued := cs0 |} =
    {| world := finalWorld (exec env p w); rendered := c; running := [];
       issued := cs0 ++ tl (callsOf (exec env p w)) |}.
Proof.
  revert p w cs0 call. induction n as [|n IH]; intros p w cs0 call Hw Haw.
  - inversion Hw; congruence.
  - inversion Hw as [? ? Hnone | ? ? Hstep]; subst; [congruence|].
    rewrite drain_S, step_settle_single.
    rewrite (exec_resume env p w call Haw).
    destruct (resume env p w) as [w1 p1] eqn:Hres. cbn [fst snd].
    specialize (Hstep env w w1 p1 Hres).
    destruct (awaiting p1) as [call1|] eqn:Haw1.
    + rewrite (IH p1 w1 _ call1 Hstep Haw1).
      rewrite (exec_resume env p1 w1 call1 Haw1).
      destruct (exec env (resume env p1 w1).2 (resume env p1 w1).1) as [[w2 cs] r].
      unfold finalWorld, callsOf. cbn. rewrite <- app_assoc. reflexivity.
    + rewrite drain_idle by reflexivity.
      assert (stopped p1) as Hst.
      { pose proof (resume_stops env p w) as H. rewrite Hres in H. apply H.
        destruct p; try discriminate; exact I. }
      destruct (exec_ended env p1 w1 Hst Haw1) as [Hfw Hcs].
      unfold finalWorld, callsOf in *.
      destruct (exec env p1 w1) as [[w2 cs] r]. cbn in *. subst.
      rewrite app_nil_r. reflexivity.
Qed.

(** A trigger that starts a run, a render, a second trigger, and the
    settlements of the run: the machine ends where one big-step run ends,
    with its calls. *)
Lemma two_triggers_one_run w now arg now' arg' env :
  running (step (Invoke now arg) (idle w)) <> [] ->
  exists c,
    runEvents ([Invoke now arg; Render; Invoke now' arg'] ++ repeat (Settle 0 env) 4)
              (idle w)
    = {| world := finalWorld (runSync env arg w); rendered := c; running := [];
         issued := callsOf (runSync env arg w) |}.
Proof.
  intros Hrun.
  rewrite runEvents_app.
  change (runEvents (repeat (Settle 0 env) 4)) with (drain 4 env).
  rewrite !runEvents_cons. unfold runEvents. cbn [foldl].
  rewrite invoke_while_running;
    [| apply flagRendered_render, singleFlight_invoke;
       [left; reflexivity | intros H; contradiction]
     | exact Hrun].
  revert Hrun. cbn [step idle world rendered running issued].
  unfold runSync. rewrite (exec_advance env (handleSync (comp w) arg) w).
  rewrite (advance_now_handleSync now (clock env)).
  pose proof (handleSync_within (clock env) (comp w) arg (comp w)) as Hw.
  destruct (advance (clock env) (handleSync (comp w) arg) (comp w)) as [c p] eqn:Hadv.
  cbn [fst snd] in *.
  destruct (awaiting p) as [call|] eqn:Haw; [intros _|cbn; congruence].
  cbn [app world comp rendered running issued]. exists c.
  rewrite (drain_exec 4 env p _ _ _ call Hw Haw).
  rewrite (exec_resume env p _ call Haw).
  destruct (exec env _ _) as [[w2 cs] r]. reflexivity.
Qed.

(** A run issues at most one push and at most one pull. *)
Lemma run_one_cycle env arg w :
  (length (List.filter isPush (callsOf (runSync env arg w))) <= 1)%nat /\
  (length (List.filter isPull (callsOf (runSync env arg w))) <= 1)%nat.
Proof.
  destruct (guardBlocks (comp w)) eqn:Hg.
  { rewrite run_blocked by exact Hg. cbn. lia. }
  destruct (guardBlocks_false _ Hg) as (tok & Htok & _).
  destruct (entriesToSync arg (entries (comp w))) as [|b bs] eqn:Hb.
  { rewrite (run_empty_batch env arg w tok Htok Hg Hb). cbn. lia. }
  assert (entriesToSync arg (entries (comp w)) <> []) as Hne by congruence.
  destruct (push_reply env) as [pr|e] eqn:Hpush.
  2:{ rewrite (run_push_rejected env arg w tok Htok Hg Hne e Hpush). cbn. lia. }
  destruct (pull_reply env) as [pl|e] eqn:Hpull.
  2:{ rewrite (run_pull_rejected env arg w tok Htok Hg Hne pr Hpush e Hpull). cbn. lia. }
  destruct (saveEntries_reply env) as [[]|e] eqn:Hsave.
  2:{ rewrite (run_save_rejected env arg w tok Htok Hg Hne pr Hpush pl Hpull e Hsave).
      cbn. lia. }
  destruct (setAppState_reply env) as [[]|e] eqn:Hput.
  - rewrite (run_complete env arg w tok Htok Hg Hne pr Hpush pl Hpull Hsave Hput).
    cbn. lia.
  - rewrite (run_put_rejected env arg w tok Htok Hg Hne pr Hpush pl Hpull Hsave e Hput).
    cbn. lia.
Qed.

(** What the guard achieves when the component renders between any two
    triggers: from an idle client, whatever the sequence of triggers,
    renders, settlements, connectivity changes and new entries, at most one
    run is suspended at any time; once the component has rendered, a
    trigger during a run changes nothing; and two triggers with a render
    between them, the first of which starts a run, followed by that run's
    settlements, issue exactly the calls of one run. *)
Lemma one_run_at_a_time_between_renders :
  (forall evs s, running s = [] -> renderBetweenTriggers true evs = true ->
     (length (running (runEvents evs s)) <= 1)%nat /\
     (running (runEvents evs s) <> [] ->
      forall now arg, step (Invoke now arg) (step Render (runEvents evs s))
                      = step Render (runEvents evs s))) /\
  (forall w now arg now' arg' env,
     running (step (Invoke now arg) (idle w)) <> [] ->
     (exists c,
        runEvents ([Invoke now arg; Render; Invoke now' arg'] ++ repeat (Settle 0 env) 4)
                  (idle w)
        = {| world := finalWorld (runSync env arg w); rendered := c; running := [];
             issued := callsOf (runSync env arg w) |}) /\
     length (List.filter isPush (callsOf (runSync env arg w))) = 1%nat /\
     (length (List.filter isPull (callsOf (runSync env arg w))) <= 1)%nat).
Proof.
  split.
  - intros evs s Hidle Hev.
    assert (singleFlight (runEvents evs s)) as Hinv.
    { apply (singleFlight_runEvents evs true); [left; exact Hidle | | exact Hev].
      intros _ Hne. contradiction. }
    split.
    + destruct Hinv as [-> | (p & -> & _)]; cbn; lia.
    + intros Hne now arg. apply invoke_while_running;
        [apply flagRendered_render, Hinv | exact Hne].
  - intros w now arg now' arg' env Hrun.
    split; [apply two_triggers_one_run, Hrun|].
    destruct (run_one_cycle env arg w) as [Hpush Hpull].
    split; [|exact Hpull].
    assert (exists tok, token (comp w) = Some tok /\ guardBlocks (comp w) = false /\
                        entriesToSync arg (entries (comp w)) <> []) as (tok & Htok & Hg & Hb).
    { revert Hrun. cbn [step idle world rendered running issued].
      unfold handleSync, guardBlocks.
      destruct (token (comp w)) as [tok|]; [|cbn; congruence].
      destruct (negb (isOnline (comp w)) || isSyncing (comp w) || negb (truthy tok));
        [cbn; congruence|].
      destruct (entriesToSync arg (entries (comp w))) as [|b bs];
        [cbn; congruence|].
      intros _. exists tok. repeat split. discriminate. }
    destruct (run_starts_with_push env arg w tok Htok Hg Hb) as [rest Hrest].
    rewrite Hrest in *. cbn in *. lia.
Qed.

(** C8, on the code: the guard of [handleSync] reads the
    [isSyncing] of the render the handler was built in.  Two triggers that
    reach the component before it renders again both pass the guard: two
    runs are suspended and two pushes are issued, of the same entries when
    the triggers are of the same kind.  With a render between the two
    triggers the second one returns at once and one run is suspended. *)
Theorem second_trigger_before_render_starts_second_run w tok now arg now' arg' :
  token (comp w) = Some tok -> guardBlocks (comp w) = false ->
  entriesToSync arg (entries (comp w)) <> [] ->
  entriesToSync arg' (entries (comp w)) <> [] ->
  length (running (runEvents [Invoke now arg; Invoke now' arg'] (idle w))) = 2%nat /\
  issued (runEvents [Invoke now arg; Invoke now' arg'] (idle w))
    = [CallPush tok (entriesToSync arg (entries (comp w)));
       CallPush tok (entriesToSync arg' (entries (comp w)))] /\
  length (running (runEvents [Invoke now arg; Render; Invoke now' arg'] (idle w))) = 1%nat /\
  issued (runEvents [Invoke now arg; Render; Invoke now' arg'] (idle w))
    = [CallPush tok (entriesToSync arg (entries (comp w)))].
Proof.
  intros Htok Hg Hb Hb'.
  destruct (advance_handleSync_suspends now (comp w) arg (comp w) tok Htok Hg Hb)
    as (p & Hadv & Haw).
  destruct (advance_handleSync_suspends now' (comp w) arg' (started (comp w)) tok
              Htok Hg Hb') as (p' & Hadv' & Haw').
  unfold runEvents, idle. cbn [foldl step world rendered running issued comp db].
  rewrite Hadv, Haw.
  cbn [foldl step world rendered running issued comp db app].
  rewrite Hadv', Haw'.
  rewrite (handleSync_busy (started (comp w)) arg') by reflexivity.
  cbn. auto.
Qed.

Lemma second_trigger_before_render_starts_second_run_witness :
  issued (runEvents [Invoke 1000 None; Invoke 1001 None] (idle (clientWith [r1] None)))
  = [CallPush "jwt" [r1]; CallPush "jwt" [r1]].
Proof.
  refine (proj1 (proj2 (second_trigger_before_render_starts_second_run
                          (clientWith [r1] None) "jwt" 1000 None 1001 None
                          eq_refl eq_refl _ _))); discriminate.
Defined.

(** ** Consistency of state and store *)

Lemma not_In_ids id l :
  existsb (hasId id) l = false -> ~ In id (List.map record_id l).
Proof.
  intros H Hin. apply in_map_iff in Hin as (e & Hid & He).
  assert (existsb (hasId id) l = true) as Ht
      by (apply existsb_hasId_In; exists e; auto).
  congruence.
Qed.

Lemma NoDup_mergeOne l s :
  List.NoDup (List.map record_id l) -> List.NoDup (List.map record_id (mergeOne l s)).
Proof.
  intros H. rewrite mergeOne_replaceFirst.
  destruct (existsb (hasId (record_id s)) l) eqn:E.
  - rewrite map_id_replaceFirst. exact H.
  - cbn. constructor; [apply not_In_ids, E | exact H].
Qed.

Lemma NoDup_mergedEntries l pulled :
  List.NoDup (List.map record_id l) ->
  List.NoDup (List.map record_id (mergedEntries l pulled)).
Proof.
  intros H. induction pulled as [|s pulled IH] using rev_ind; [exact H|].
  rewrite mergedEntries_snoc. apply NoDup_mergeOne, IH.
Qed.

Lemma NoDup_mergedOf c arg pr pl :
  List.NoDup (List.map record_id (entries c)) ->
  List.NoDup (List.map record_id (mergedOf c arg pr pl)).
Proof.
  intros H. unfold mergedOf. apply NoDup_mergedEntries.
  rewrite map_id_updatedEntries. exact H.
Qed.

Lemma lookup_saveEntries_NoDup es e (store : gmap string Entry) :
  List.NoDup (List.map record_id es) -> In e es ->
  saveEntries es store !! record_id e = Some e.
Proof.
  intros Hnd Hin. rewrite lookup_saveEntries.
  fold (pulledVersion (record_id e) es).
  rewrite (pulledVersion_unique es e Hnd Hin). reflexivity.
Qed.

Lemma consistent_storeAgrees w id : consistent w -> storeAgrees w id.
Proof.
  intros [_ Hst]. unfold storeAgrees.
  destruct (List.find (hasId id) (rev (entries (comp w)))) as [e|] eqn:E; [|exact I].
  apply find_some in E as [Hin Hid]. apply hasId_true in Hid. subst id.
  apply Hst, in_rev, Hin.
Qed.

(** Every run takes a consistent world to a consistent world. *)
Lemma run_consistent env arg w :
  consistent w -> consistent (finalWorld (runSync env arg w)).
Proof.
  intros [Hnd Hst]. unfold consistent.
  destruct (run_cases env arg w)
    as [(He & Hl & Hd) | (pr & pl & Hp & Hq & Hs & He & Hl & Hd & Ha)].
  - rewrite He, Hd. auto.
  - rewrite He, Hd. split; [apply NoDup_mergedOf, Hnd|].
    intros e Hin. apply lookup_saveEntries_NoDup; [apply NoDup_mergedOf, Hnd | exact Hin].
Qed.

Lemma clientWith_consistent es wm :
  List.NoDup (List.map record_id es) -> consistent (clientWith es wm).
Proof.
  intros H. split; [exact H|]. intros e Hin. cbn.
  apply lookup_saveEntries_NoDup; assumption.
Qed.

(** ** The store under interleaved events *)

Lemma resume_keeps_keys {A} env (p : Prog A) w id :
  is_Some (db_entries (db w) !! id) ->
  is_Some (db_entries (db (resume env p w).1) !! id).
Proof.
  intros H.
  destruct p as [a|e|f k|k|t b k|t s k|es k|key v k]; cbn [resume fst]; try exact H.
  - destruct (advance (clock env) (k (push_reply env)) (comp w)); exact H.
  - destruct (advance (clock env) (k (pull_reply env)) (comp w)); exact H.
  - destruct (advance (clock env) (k (saveEntries_reply env))
                (comp (settleSave es (saveEntries_reply env) w))).
    cbn. destruct (saveEntries_reply env); cbn; [apply saveEntries_keeps|]; exact H.
  - destruct (advance (clock env) (k (setAppState_reply env))
                (comp (settlePut key v (setAppState_reply env) w))).
    cbn. destruct (setAppState_reply env); exact H.
Qed.

Lemma step_keeps_keys ev s id :
  is_Some (db_entries (db (world s)) !! id) ->
  is_Some (db_entries (db (world (step ev s))) !! id).
Proof.
  intros H. destruct ev as [now arg | i env | online | newEntry | ]; cbn [step].
  - destruct (advance now (handleSync (rendered s) arg) (comp (world s))) as [c p].
    destruct (awaiting p); exact H.
  - destruct (running s !! i) as [p|]; [|exact H].
    pose proof (resume_keeps_keys env p (world s) id H) as H'.
    destruct (resume env p (world s)) as [w' p'].
    destruct (awaiting p'); exact H'.
  - exact H.
  - cbn. unfold saveEntry.
    destruct (String.eqb_spec (record_id newEntry) id) as [->|Hne].
    + rewrite lookup_insert_eq. eexists; reflexivity.
    + rewrite lookup_insert_ne by exact Hne. exact H.
  - exact H.
Qed.

(** Whatever happens, in whatever order, no key leaves the entries store. *)
Lemma runEvents_keeps_keys evs s id :
  is_Some (db_entries (db (world s)) !! id) ->
  is_Some (db_entries (db (world (runEvents evs s))) !! id).
Proof.
  revert s. induction evs as [|ev evs IH]; intros s H; [exact H|].
  rewrite runEvents_cons. apply IH, step_keeps_keys, H.
Qed.

(** The frame of a run during which nothing else happens: the records of
    every id that is neither in its batch nor in the pull response are as
    they were, in the state and (where the store agreed with the state) in
    the store, and no id disappears from the state.  No key disappears from
    the store, in a run or under any interleaving of triggers, renders,
    settlements and new entries. *)
Lemma run_frame env arg w :
  (forall id,
     existsb (hasId id) (entriesToSync arg (entries (comp w))) = false ->
     (forall pl, pull_reply env = Fulfilled pl ->
                 existsb (hasId id) (default [] (pull_entries pl)) = false) ->
     withId id (entries (comp (finalWorld (runSync env arg w))))
       = withId id (entries (comp w)) /\
     (storeAgrees w id ->
      db_entries (db (finalWorld (runSync env arg w))) !! id = db_entries (db w) !! id)) /\
  (forall id, existsb (hasId id) (entries (comp w)) = true ->
     existsb (hasId id) (entries (comp (finalWorld (runSync env arg w)))) = true) /\
  (forall id, is_Some (db_entries (db w) !! id) ->
     is_Some (db_entries (db (finalWorld (runSync env arg w))) !! id)) /\
  (forall evs s id, is_Some (db_entries (db (world s)) !! id) ->
     is_Some (db_entries (db (world (runEvents evs s))) !! id)).
Proof.
  assert (forall evs s id, is_Some (db_entries (db (world s)) !! id) ->
            is_Some (db_entries (db (world (runEvents evs s))) !! id)) as Hmachine
      by (intros evs s id; apply runEvents_keeps_keys).
  destruct (run_cases env arg w)
    as [(He & Hl & Hd) | (pr & pl & Hp & Hq & Hs & He & Hl & Hd & Ha)].
  - rewrite He, Hd. repeat split; auto.
  - rewrite He, Hd. split; [|split; [|split]].
    + intros id Hb Hnp. specialize (Hnp pl Hq).
      pose proof (withId_mergedOf_frame (comp w) arg pr pl id (or_introl Hb) Hnp) as Hw.
      split; [exact Hw|].
      intros Hag. rewrite lookup_saveEntries, find_rev_withId, Hw, <- find_rev_withId.
      unfold storeAgrees in Hag.
      destruct (List.find (hasId id) (rev (entries (comp w))));
        [symmetry; exact Hag | reflexivity].
    + intros id. apply existsb_mergedOf.
    + intros id. apply saveEntries_keeps.
    + exact Hmachine.
Qed.

(** ** A state change while a run is suspended *)

(** A handler that suspends has done [setIsSyncing(true); setSyncError(null)]
    and nothing else, whatever the state it started in. *)
Lemma advance_handleSync_started now c arg c1 p call :
  advance now (handleSync c arg) c = (c1, p) -> awaiting p = Some call ->
  forall now' c0, advance now' (handleSync c arg) c0 = (started c0, p).
Proof.
  unfold handleSync. intros Hadv Haw now' c0.
  destruct (token c) as [tok|]; [|inversion Hadv; subst; discriminate].
  destruct (negb (isOnline c) || isSyncing c || negb (truthy tok));
    [inversion Hadv; subst; discriminate|].
  destruct (entriesToSync arg (entries c)) as [|b bs].
  { run_prog Hadv. inversion Hadv; subst; discriminate. }
  run_prog Hadv. inversion Hadv; subst. reflexivity.
Qed.

(** A run is started, an entry is logged while it is suspended, the run is
    settled: the machine ends where the handler of the old render, run on
    the world that has the new entry, ends. *)
Lemma run_over_logged_entry w now arg n env :
  running (step (Invoke now arg) (idle w)) <> [] ->
  world (runEvents ([Invoke now arg; LogEntry n] ++ repeat (Settle 0 env) 4)
                   (idle w))
  = finalWorld (exec env (handleSync (comp w) arg)
      (world (step (LogEntry n) (idle w)))).
Proof.
  intros Hrun.
  rewrite runEvents_app.
  change (runEvents (repeat (Settle 0 env) 4)) with (drain 4 env).
  rewrite !runEvents_cons. unfold runEvents. cbn [foldl].
  revert Hrun. cbn [step idle world rendered running issued].
  pose proof (handleSync_within now (comp w) arg (comp w)) as Hw.
  destruct (advance now (handleSync (comp w) arg) (comp w)) as [c1 p] eqn:Hadv.
  cbn [fst snd] in *.
  destruct (awaiting p) as [call|] eqn:Haw; [intros _|cbn; congruence].
  pose proof (advance_handleSync_started _ _ _ _ _ _ Hadv Haw) as Hst.
  rewrite (Hst now (comp w)) in Hadv. injection Hadv as <-.
  cbn [app world rendered running issued comp db].
  rewrite (drain_exec 4 env p _ _ _ call Hw Haw). cbn [world].
  rewrite (exec_advance env (handleSync (comp w) arg)).
  cbn [comp db]. rewrite (Hst (clock env)). reflexivity.
Qed.

(** An entry logged under a fresh id while a run is suspended: when the run
    commits, the store still holds the entry, and the in-memory list, set to
    the list merged from the entries of the old render, no longer has it. *)
Lemma entry_logged_during_run w now arg n env pr pl :
  running (step (Invoke now arg) (idle w)) <> [] ->
  existsb (hasId (record_id n)) (entries (comp w)) = false ->
  push_reply env = Fulfilled pr -> pull_reply env = Fulfilled pl ->
  existsb (hasId (record_id n)) (default [] (pull_entries pl)) = false ->
  saveEntries_reply env = Fulfilled tt -> setAppState_reply env = Fulfilled tt ->
  db_entries (db (world (runEvents
      ([Invoke now arg; LogEntry n] ++ repeat (Settle 0 env) 4)
      (idle w)))) !! record_id n = Some n /\
  existsb (hasId (record_id n)) (entries (comp (world (runEvents
      ([Invoke now arg; LogEntry n] ++ repeat (Settle 0 env) 4)
      (idle w))))) = false.
Proof.
  intros Hrun Hfresh Hpush Hpull Hnp Hsave Hput.
  rewrite (run_over_logged_entry w now arg n env Hrun).
  assert (exists tok, token (comp w) = Some tok /\ guardBlocks (comp w) = false /\
                      entriesToSync arg (entries (comp w)) <> []) as (tok & Htok & Hg & Hb).
  { revert Hrun. cbn [step idle world rendered running issued].
    unfold handleSync, guardBlocks.
    destruct (token (comp w)) as [tok|]; [|cbn; congruence].
    destruct (negb (isOnline (comp w)) || isSyncing (comp w) || negb (truthy tok));
      [cbn; congruence|].
    destruct (entriesToSync arg (entries (comp w))) as [|b bs];
      [cbn; congruence|].
    intros _. exists tok. repeat split. discriminate. }
  rewrite (handler_complete env arg (comp w) _ tok Htok Hg Hb pr Hpush pl Hpull Hsave Hput).
  unfold finalWorld. cbn [fst snd comp db step idle world].
  assert (existsb (hasId (record_id n)) (mergedOf (comp w) arg pr pl) = false) as Hout.
  { unfold mergedOf. rewrite existsb_mergedEntries, existsb_updatedEntries, Hnp, Hfresh.
    reflexivity. }
  split.
  - cbn. rewrite (saveEntries_other _ _ _ Hout). unfold saveEntry.
    apply lookup_insert_eq.
  - destruct (rejectionWarning pr); exact Hout.
Qed.

(** The batch of a push is the batch of the run. *)
Lemma pushes_of_run env arg w tok b :
  In (CallPush tok b) (callsOf (runSync env arg w)) ->
  b = entriesToSync arg (entries (comp w)).
Proof.
  destruct (guardBlocks (comp w)) eqn:Hg.
  { rewrite run_blocked by exact Hg. intros []. }
  destruct (guardBlocks_false _ Hg) as (tok' & Htok & _).
  destruct (entriesToSync arg (entries (comp w))) as [|x xs] eqn:Hb.
  { rewrite (run_empty_batch env arg w tok' Htok Hg Hb). intros []. }
  assert (entriesToSync arg (entries (comp w)) <> []) as Hne by congruence.
  rewrite <- Hb.
  destruct (push_reply env) as [pr|e] eqn:Hpush.
  2:{ rewrite (run_push_rejected env arg w tok' Htok Hg Hne e Hpush).
      intros [H|[]]. congruence. }
  destruct (pull_reply env) as [pl|e] eqn:Hpull.
  2:{ rewrite (run_pull_rejected env arg w tok' Htok Hg Hne pr Hpush e Hpull).
      intros [H|[H|[]]]; congruence. }
  destruct (saveEntries_reply env) as [[]|e] eqn:Hsave.
  2:{ rewrite (run_save_rejected env arg w tok' Htok Hg Hne pr Hpush pl Hpull e Hsave).
      intros [H|[H|[H|[]]]]; congruence. }
  destruct (setAppState_reply env) as [[]|e] eqn:Hput.
  - rewrite (run_complete env arg w tok' Htok Hg Hne pr Hpush pl Hpull Hsave Hput).
    intros [H|[H|[H|[H|[]]]]]; congruence.
  - rewrite (run_put_rejected env arg w tok' Htok Hg Hne pr Hpush pl Hpull Hsave e Hput).
    intros [H|[H|[H|[H|[]]]]]; congruence.
Qed.

(** C9, on the code, for a record created during a run: an
    entry logged under a fresh id while a run is suspended is in the state,
    pending, until the run commits; the commit sets the list merged from
    the entries of the render the run started in, so the entry leaves the
    state although it is neither in the batch nor in the pull response.
    The store keeps it, pending, and no push of the next run, whatever its
    trigger, carries it. *)
Theorem entry_logged_during_run_not_pushed_next_run w now arg n env pr pl :
  running (step (Invoke now arg) (idle w)) <> [] ->
  existsb (hasId (record_id n)) (entries (comp w)) = false ->
  pendingFlag n = true ->
  push_reply env = Fulfilled pr -> pull_reply env = Fulfilled pl ->
  existsb (hasId (record_id n)) (default [] (pull_entries pl)) = false ->
  saveEntries_reply env = Fulfilled tt -> setAppState_reply env = Fulfilled tt ->
  In n (pendingEntries (entries (comp (world
     (runEvents [Invoke now arg; LogEntry n] (idle w)))))) /\
  existsb (hasId (record_id n)) (entriesToSync arg (entries (comp w))) = false /\
  ~ In n (entries (comp (world (runEvents
      ([Invoke now arg; LogEntry n] ++ repeat (Settle 0 env) 4) (idle w))))) /\
  db_entries (db (world (runEvents
      ([Invoke now arg; LogEntry n] ++ repeat (Settle 0 env) 4) (idle w)))) !! record_id n
    = Some n /\
  (forall env' arg' tok b,
     In (CallPush tok b) (callsOf (runSync env' arg' (world (runEvents
        ([Invoke now arg; LogEntry n] ++ repeat (Settle 0 env) 4) (idle w))))) ->
     ~ In n b).
Proof.
  intros Hrun Hfresh Hpend Hpush Hpull Hnp Hsave Hput.
  destruct (entry_logged_during_run w now arg n env pr pl
              Hrun Hfresh Hpush Hpull Hnp Hsave Hput) as [Hstore Hstate].
  assert (forall l, existsb (hasId (record_id n)) l = false -> ~ In n l) as Hnot.
  { intros l Hl Hin.
    assert (existsb (hasId (record_id n)) l = true) as Ht
        by (apply existsb_hasId_In; exists n; auto).
    congruence. }
  assert (forall arg' l, existsb (hasId (record_id n)) l = false ->
            existsb (hasId (record_id n)) (entriesToSync arg' l) = false) as Hsub.
  { intros arg' l Hl.
    destruct (existsb (hasId (record_id n)) (entriesToSync arg' l)) eqn:E; [|reflexivity].
    apply existsb_hasId_In in E as (x & Hx & Hid).
    assert (existsb (hasId (record_id n)) l = true) as Ht.
    { apply existsb_hasId_In. exists x. split; [|exact Hid].
      apply entriesToSync_pending in Hx. apply Hx. }
    congruence. }
  split; [|split; [|split; [|split]]].
  - unfold runEvents, idle. cbn [foldl step world rendered running issued].
    destruct (advance now (handleSync (comp w) arg) (comp w)) as [c p].
    destruct (awaiting p); cbn; rewrite Hpend; left; reflexivity.
  - apply Hsub, Hfresh.
  - apply Hnot, Hstate.
  - exact Hstore.
  - intros env' arg' tok b Hin. apply pushes_of_run in Hin. subst b.
    apply Hnot, Hsub, Hstate.
Qed.

Lemma entry_logged_during_run_not_pushed_next_run_witness :
  db_entries (db (world (runEvents
      ([Invoke 1000 None; LogEntry (sampleEntry "r2" (Some true) "second")]
         ++ repeat (Settle 0 (envOk 1001 (pushReply 1 0 None) (pullReply []))) 4)
      (idle (clientWith [r1] None))))) !! "r2"
  = Some (sampleEntry "r2" (Some true) "second").
Proof.
  refine (proj1 (proj2 (proj2 (proj2
            (entry_logged_during_run_not_pushed_next_run (clientWith [r1] None) 1000 None
               (sampleEntry "r2" (Some true) "second")
               (envOk 1001 (pushReply 1 0 None) (pullReply []))
               (pushReply 1 0 None) (pullReply [])
               _ eq_refl eq_refl eq_refl eq_refl eq_refl eq_refl eq_refl))))).
  vm_compute. discriminate.
Defined.

(** C10, as stated, fails when the phase that throws is the last one, the
    write of the watermark: the push was answered, the run ends with an
    error, and yet [r1] is no longer pending, in the state and in the
    store, and the watermark of the state has moved, while the persisted
    one has not. *)
Lemma watermark_write_failure_is_not_all_or_nothing :
  entries (comp (clientWith [r1] (Some 500%Z))) = [r1] /\
  pendingFlag r1 = true /\
  callsOf (runSync (envPutDown 1000 (pushReply 1 0 None) (pullReply [])) None
                   (clientWith [r1] (Some 500%Z)))
    = [CallPush "jwt" [r1]; CallPull "jwt" (Some 500%Z);
       CallSaveEntries [markSynced r1]; CallSetAppState "lastSyncTime" 1000%Z] /\
  syncError (comp (finalWorld
    (runSync (envPutDown 1000 (pushReply 1 0 None) (pullReply [])) None
             (clientWith [r1] (Some 500%Z))))) = Some "QuotaExceededError" /\
  entries (comp (finalWorld
    (runSync (envPutDown 1000 (pushReply 1 0 None) (pullReply [])) None
             (clientWith [r1] (Some 500%Z))))) = [markSynced r1] /\
  db_entries (db (finalWorld
    (runSync (envPutDown 1000 (pushReply 1 0 None) (pullReply [])) None
             (clientWith [r1] (Some 500%Z))))) !! "r1" = Some (markSynced r1) /\
  lastSyncTime (comp (finalWorld
    (runSync (envPutDown 1000 (pushReply 1 0 None) (pullReply [])) None
             (clientWith [r1] (Some 500%Z))))) = Some 1000%Z /\
  db_appState (db (finalWorld
    (runSync (envPutDown 1000 (pushReply 1 0 None) (pullReply [])) None
             (clientWith [r1] (Some 500%Z))))) !! "lastSyncTime" = Some 500%Z /\
  callsOf (runSync (envOk 2000 (pushReply 0 0 None) (pullReply [])) None
             (finalWorld
                (runSync (envPutDown 1000 (pushReply 1 0 None) (pullReply [])) None
                         (clientWith [r1] (Some 500%Z))))) = [].
Proof. repeat split; vm_compute; reflexivity. Qed.

(** X29: when only the last write, that of the watermark, fails, the merged
    records stay committed, in the state and in the store, the in-memory
    watermark is the run's time and the persisted one is the old one. *)
Lemma watermark_write_failure_keeps_commit env arg w pr pl e :
  existsb isPush (callsOf (runSync env arg w)) = true ->
  push_reply env = Fulfilled pr -> pull_reply env = Fulfilled pl ->
  saveEntries_reply env = Fulfilled tt -> setAppState_reply env = Rejected e ->
  entries (comp (finalWorld (runSync env arg w))) = mergedOf (comp w) arg pr pl /\
  db_entries (db (finalWorld (runSync env arg w)))
    = saveEntries (mergedOf (comp w) arg pr pl) (db_entries (db w)) /\
  lastSyncTime (comp (finalWorld (runSync env arg w))) = Some (clock env) /\
  db_appState (db (finalWorld (runSync env arg w))) = db_appState (db w) /\
  syncError (comp (finalWorld (runSync env arg w))) = Some (errorMessage e).
Proof.
  intros Hcalled Hpush Hpull Hsave Hput.
  destruct (push_called _ _ _ Hcalled) as [Hg Hb].
  destruct (guardBlocks_false _ Hg) as (tok & Htok & _).
  rewrite (run_put_rejected env arg w tok Htok Hg Hb pr Hpush pl Hpull Hsave e Hput).
  repeat split.
Qed.

(** ** Scenarios *)

(** [r1] pending, no watermark; the push accepts it and the pull is empty:
    the state and the store hold [r1] synced and the watermark is the time
    of the run. *)
Example scenario_accepted :
  runSync (envOk 1000 (pushReply 1 0 None) (pullReply [])) None (clientWith [r1] None)
  = ({| comp := {| entries := [markSynced r1]; isOnline := true; isSyncing := false;
                   syncError := None; lastSyncTime := Some 1000%Z;
                   token := Some "jwt" |};
        db := {| db_entries := {[ "r1" := markSynced r1 ]};
                 db_appState := {[ "lastSyncTime" := 1000%Z ]} |} |},
     [CallPush "jwt" [r1]; CallPull "jwt" None; CallSaveEntries [markSynced r1];
      CallSetAppState "lastSyncTime" 1000%Z],
     Fulfilled tt).
Proof. vm_compute. reflexivity. Qed.

(** The push call throws: state and store as before, but for the error. *)
Example scenario_push_down :
  runSync (envPushDown 1000) None (clientWith [r1] (Some 500%Z))
  = (withComp (setSyncError (Some "Failed to fetch")) (clientWith [r1] (Some 500%Z)),
     [CallPush "jwt" [r1]], Fulfilled tt).
Proof. vm_compute. reflexivity. Qed.

(** The pull returns the server's copy of [r1] and a record unknown
    locally: the copy replaces [r1] in place, the new record goes in front. *)
Example scenario_merge :
  mergedEntries [r1; sampleEntry "r2" (Some false) "kept"]
                [r1_server; sampleEntry "r3" None "new"]
  = [markSynced (sampleEntry "r3" None "new"); markSynced r1_server;
     sampleEntry "r2" (Some false) "kept"].
Proof. reflexivity. Qed.

(** Syncing one record from the entry list pushes that record only. *)
Example scenario_single_record :
  callsOf (runSync (envPushDown 1000) (Some "r2")
             (clientWith [r1; sampleEntry "r2" (Some true) "second"] None))
  = [CallPush "jwt" [sampleEntry "r2" (Some true) "second"]].
Proof. vm_compute. reflexivity. Qed.

(** Two triggers on a client with [r1] pending, the component rendering
    between them: one push, one pull. *)
Example scenario_double_click :
  issued (runEvents ([Invoke 1000 None; Render; Invoke 1001 None]
                       ++ repeat (Settle 0 (envOk 1002 (pushReply 1 0 None) (pullReply []))) 4)
                    (idle (clientWith [r1] None)))
  = [CallPush "jwt" [r1]; CallPull "jwt" None; CallSaveEntries [markSynced r1];
     CallSetAppState "lastSyncTime" 1002%Z].
Proof. vm_compute. reflexivity. Qed.

(** The same two triggers with no render between them: [r1] is pushed
    twice, and both runs pull and commit. *)
Example scenario_double_trigger_before_render :
  List.map (fun call => (isPush call, isPull call))
    (issued (runEvents ([Invoke 1000 None; Invoke 1001 None]
                       ++ repeat (Settle 0 (envOk 1002 (pushReply 1 0 None) (pullReply []))) 8)
                    (idle (clientWith [r1] None))))
  = [(true, false); (true, false); (false, true); (false, false); (false, false);
     (false, true); (false, false); (false, false)].
Proof. vm_compute. reflexivity. Qed.

(** * The rest of the client: proofs *)

(** ** Sorting *)

Lemma insertBy_perm {A} (le : A -> A -> bool) x l :
  Permutation (insertBy le x l) (x :: l).
Proof.
  induction l as [|y l IH]; cbn [insertBy]; [reflexivity|].
  destruct (le x y); [reflexivity|].
  rewrite IH. apply perm_swap.
Qed.

Lemma sortBy_perm {A} (le : A -> A -> bool) l : Permutation (sortBy le l) l.
Proof.
  induction l as [|x l IH]; cbn [sortBy fold_right]; [reflexivity|].
  fold (sortBy le l). rewrite insertBy_perm, IH. reflexivity.
Qed.

Lemma insertBy_sorted {A} (le : A -> A -> bool) x l :
  (forall a b, le a b = true \/ le b a = true) ->
  Sorted (fun a b => le a b = true) l ->
  Sorted (fun a b => le a b = true) (insertBy le x l).
Proof.
  intros Htot Hs. induction l as [|y l IH]; cbn [insertBy].
  - repeat constructor.
  - destruct (le x y) eqn:E.
    + constructor; [exact Hs | constructor; exact E].
    + apply Sorted_inv in Hs as [Hs Hhd].
      constructor; [apply IH, Hs|].
      destruct l as [|z l]; cbn [insertBy].
      * constructor. destruct (Htot x y); congruence.
      * destruct (le x z); constructor.
        -- destruct (Htot x y); congruence.
        -- inversion Hhd; assumption.
Qed.

Lemma sortBy_sorted {A} (le : A -> A -> bool) l :
  (forall a b, le a b = true \/ le b a = true) ->
  Sorted (fun a b => le a b = true) (sortBy le l).
Proof.
  intros Htot. induction l as [|x l IH]; cbn [sortBy fold_right]; [constructor|].
  apply insertBy_sorted; assumption.
Qed.

(** ** The entries store, read back *)

Lemma keyed_empty : keyed ∅.
Proof. intros k e H. rewrite lookup_empty in H. discriminate. Qed.

Lemma keyed_saveEntry e store : keyed store -> keyed (saveEntry e store).
Proof.
  intros Hk k x. unfold saveEntry.
  destruct (String.eqb_spec (record_id e) k) as [Heq|Hne].
  - subst k. rewrite lookup_insert_eq. intros [= <-]. reflexivity.
  - rewrite lookup_insert_ne by exact Hne. apply Hk.
Qed.

Lemma keyed_saveEntries es store : keyed store -> keyed (saveEntries es store).
Proof.
  revert store. induction es as [|e es IH]; intros store Hk; [exact Hk|].
  cbn. apply IH. apply (keyed_saveEntry e store Hk).
Qed.

Lemma In_getAllEntries d e :
  In e (getAllEntries d) <-> exists k, db_entries d !! k = Some e.
Proof.
  unfold getAllEntries. rewrite in_map_iff. split.
  - intros ([k x] & Hx & Hin). cbn in Hx. subst x. exists k.
    apply elem_of_map_to_list, list_elem_of_In.
    eapply Permutation_in; [apply sortBy_perm | exact Hin].
  - intros [k Hk]. exists (k, e). split; [reflexivity|].
    eapply Permutation_in; [symmetry; apply sortBy_perm|].
    apply list_elem_of_In, elem_of_map_to_list, Hk.
Qed.

Lemma In_getAllEntries_keyed d e :
  keyed (db_entries d) ->
  (In e (getAllEntries d) <-> db_entries d !! record_id e = Some e).
Proof.
  intros Hk. rewrite In_getAllEntries. split.
  - intros [k H]. rewrite (Hk k e H). exact H.
  - intros H. eauto.
Qed.

Lemma ids_getAllEntries d :
  keyed (db_entries d) ->
  List.map record_id (getAllEntries d) =
  List.map fst (sortBy (fun a b => keyLeb (fst a) (fst b))
                       (map_to_list (db_entries d))).
Proof.
  intros Hk. unfold getAllEntries. rewrite List.map_map.
  apply map_ext_in. intros [k e] Hin. cbn.
  apply Hk, elem_of_map_to_list, list_elem_of_In.
  eapply Permutation_in; [apply sortBy_perm | exact Hin].
Qed.

Lemma NoDup_getAllEntries d :
  keyed (db_entries d) -> List.NoDup (List.map record_id (getAllEntries d)).
Proof.
  intros Hk. rewrite (ids_getAllEntries d Hk).
  apply NoDup_ListNoDup.
  rewrite (Permutation_map fst (sortBy_perm _ (map_to_list (db_entries d)))).
  apply (NoDup_fst_map_to_list (db_entries d)).
Qed.

Lemma Sorted_map_in {A B} (R : A -> A -> Prop) (R' : B -> B -> Prop) (f : A -> B) l :
  (forall x y, In x l -> In y l -> R x y -> R' (f x) (f y)) ->
  Sorted R l -> Sorted R' (List.map f l).
Proof.
  induction l as [|x l IH]; intros Hf Hs; cbn; [constructor|].
  apply Sorted_inv in Hs as [Hs Hhd]. constructor.
  - apply IH; [|exact Hs]. intros a b Ha Hb. apply Hf; right; assumption.
  - destruct l as [|y l]; cbn; constructor.
    inversion Hhd; subst. apply Hf; cbn; auto.
Qed.

Lemma unitsLeb_total a b : unitsLeb a b = true \/ unitsLeb b a = true.
Proof.
  revert b. induction a as [|x a IH]; intros [|y b]; cbn [unitsLeb]; auto.
  destruct (N.ltb_spec x y) as [Hxy|Hxy]; [auto|].
  destruct (N.ltb_spec y x) as [Hyx|Hyx]; [auto|].
  apply IH.
Qed.

Lemma keyLeb_total k1 k2 : keyLeb k1 k2 = true \/ keyLeb k2 k1 = true.
Proof. apply unitsLeb_total. Qed.

(** The order of the keys is that of the UTF-16 code units, not that of the
    bytes: U+1F600, a surrogate pair, comes before U+FF5E. *)
Example keyLeb_code_units :
  utf16 grinningFace = [55357%N; 56832%N] /\ utf16 fullwidthTilde = [65374%N] /\
  keyLeb grinningFace fullwidthTilde = true /\
  keyLeb fullwidthTilde grinningFace = false /\
  String.leb grinningFace fullwidthTilde = false /\
  keyLeb "r1" "r2" = true /\ keyLeb "r10" "r2" = true /\ keyLeb "r2" "r10" = false.
Proof. repeat split; vm_compute; reflexivity. Qed.

Lemma Sorted_getAllEntries d :
  keyed (db_entries d) ->
  Sorted (fun a b => keyLeb (record_id a) (record_id b) = true) (getAllEntries d).
Proof.
  intros Hk. unfold getAllEntries.
  apply (Sorted_map_in (fun a b => keyLeb (fst a) (fst b) = true)).
  - intros [k1 e1] [k2 e2] H1 H2 Hle. cbn in *.
    assert (forall k e, In (k, e) (sortBy (fun a b => keyLeb (fst a) (fst b))
                                     (map_to_list (db_entries d))) -> record_id e = k) as Hid.
    { intros k e Hin. apply Hk, elem_of_map_to_list, list_elem_of_In.
      eapply Permutation_in; [apply sortBy_perm | exact Hin]. }
    rewrite (Hid _ _ H1), (Hid _ _ H2). exact Hle.
  - apply (sortBy_sorted (fun a b : string * Entry => keyLeb (fst a) (fst b))).
    intros a b. apply keyLeb_total.
Qed.

(** X1: on a store whose records sit under their own [record_id] (the key path of the object store), [getAllEntries] returns exactly the records of the store, each id once, in the order of the keys, which is the order of their UTF-16 code units. *)
Theorem getAllEntries_lists_store d :
  keyed (db_entries d) ->
  (forall e, In e (getAllEntries d) <-> db_entries d !! record_id e = Some e) /\
  List.NoDup (List.map record_id (getAllEntries d)) /\
  Sorted (fun a b => keyLeb (record_id a) (record_id b) = true) (getAllEntries d).
Proof.
  intros Hk. split; [|split].
  - intros e. apply In_getAllEntries_keyed, Hk.
  - apply NoDup_getAllEntries, Hk.
  - apply Sorted_getAllEntries, Hk.
Qed.

Lemma keyed_clientWith es wm : keyed (db_entries (db (clientWith es wm))).
Proof. cbn. apply keyed_saveEntries, keyed_empty. Qed.

Lemma getAllEntries_lists_store_witness :
  In r1 (getAllEntries (db (clientWith [r1] None))).
Proof.
  destruct (getAllEntries_lists_store (db (clientWith [r1] None))
              (keyed_clientWith [r1] None)) as [H _].
  apply H. reflexivity.
Defined.

(** Two records saved in the order of their bytes come back in the order of
    their code units. *)
Example getAllEntries_code_unit_order :
  List.map record_id
    (getAllEntries (db (clientWith [sampleEntry fullwidthTilde None "a";
                                    sampleEntry grinningFace None "b"] None)))
  = [grinningFace; fullwidthTilde].
Proof. vm_compute. reflexivity. Qed.

(** X2: after [saveEntry e], [getAllEntries] lists [e], lists no other record under the id of [e], and lists the records of every other id as before: a put replaces, it never duplicates. *)
Theorem saveEntry_then_getAllEntries e d :
  keyed (db_entries d) ->
  In e (getAllEntries {| db_entries := saveEntry e (db_entries d);
                         db_appState := db_appState d |}) /\
  (forall x, record_id x = record_id e ->
     In x (getAllEntries {| db_entries := saveEntry e (db_entries d);
                            db_appState := db_appState d |}) -> x = e) /\
  (forall x, record_id x <> record_id e ->
     (In x (getAllEntries {| db_entries := saveEntry e (db_entries d);
                             db_appState := db_appState d |})
      <-> In x (getAllEntries d))).
Proof.
  intros Hk.
  assert (keyed (db_entries {| db_entries := saveEntry e (db_entries d);
                               db_appState := db_appState d |})) as Hk'
      by (apply keyed_saveEntry, Hk).
  split; [|split].
  - apply In_getAllEntries_keyed; [exact Hk'|]. cbn. apply lookup_insert_eq.
  - intros x Hid Hin. apply In_getAllEntries_keyed in Hin; [|exact Hk'].
    cbn in Hin. unfold saveEntry in Hin. rewrite Hid, lookup_insert_eq in Hin.
    congruence.
  - intros x Hne. rewrite !In_getAllEntries_keyed by assumption.
    cbn. unfold saveEntry. rewrite lookup_insert_ne by congruence. reflexivity.
Qed.

Lemma saveEntry_then_getAllEntries_witness :
  In r1_server (getAllEntries {| db_entries := saveEntry r1_server
                                   (db_entries (db (clientWith [r1] None)));
                                 db_appState := ∅ |}).
Proof.
  exact (proj1 (saveEntry_then_getAllEntries r1_server (db (clientWith [r1] None))
                  (keyed_clientWith [r1] None))).
Defined.

(** ** The mount effect *)

Lemma db_loadEntriesFromDB r r' w : db (loadEntriesFromDB r r' w) = db w.
Proof.
  unfold loadEntriesFromDB. destruct r as [[]|]; [|reflexivity].
  destruct r' as [[]|]; [destruct (getAppState "lastSyncTime" (db w))|]; reflexivity.
Qed.

Lemma entries_loadEntriesFromDB r w :
  entries (comp (loadEntriesFromDB (Fulfilled tt) r w)) = getAllEntries (db w).
Proof.
  unfold loadEntriesFromDB.
  destruct r; [destruct (getAppState "lastSyncTime" (db w))|]; reflexivity.
Qed.

Lemma load_consistent r w :
  keyed (db_entries (db w)) -> consistent (loadEntriesFromDB (Fulfilled tt) r w).
Proof.
  intros Hk.
  assert (forall c, entries c = getAllEntries (db w) ->
            consistent {| comp := c; db := db w |}) as H.
  { intros c Hc. split; cbn; rewrite Hc.
    - apply NoDup_getAllEntries, Hk.
    - intros e. apply In_getAllEntries_keyed, Hk. }
  unfold loadEntriesFromDB.
  destruct r; [destruct (getAppState "lastSyncTime" (db w))|]; apply H; reflexivity.
Qed.

(** X3: the mount effect.  When reading the entries fails, nothing changes.  Otherwise the state lists the entries of the store, and is consistent with it; the watermark is the saved one when there is one and reading it succeeds, and is left alone otherwise; the database is never written. *)
Theorem loadEntriesFromDB_outcomes w :
  (forall e r, loadEntriesFromDB (Rejected e) r w = w) /\
  (forall r, entries (comp (loadEntriesFromDB (Fulfilled tt) r w)) = getAllEntries (db w)) /\
  (forall r, keyed (db_entries (db w)) ->
             consistent (loadEntriesFromDB (Fulfilled tt) r w)) /\
  (forall t, getAppState "lastSyncTime" (db w) = Some t ->
     lastSyncTime (comp (loadEntriesFromDB (Fulfilled tt) (Fulfilled tt) w)) = Some t) /\
  (getAppState "lastSyncTime" (db w) = None ->
     lastSyncTime (comp (loadEntriesFromDB (Fulfilled tt) (Fulfilled tt) w))
       = lastSyncTime (comp w)) /\
  (forall e, lastSyncTime (comp (loadEntriesFromDB (Fulfilled tt) (Rejected e) w))
       = lastSyncTime (comp w)) /\
  (forall r r', db (loadEntriesFromDB r r' w) = db w).
Proof.
  split; [reflexivity|]. split.
  { intros r. unfold loadEntriesFromDB.
    destruct r; [destruct (getAppState "lastSyncTime" (db w))|]; reflexivity. }
  split; [intros r; apply load_consistent|].
  split; [intros t Ht; unfold loadEntriesFromDB; rewrite Ht; reflexivity|].
  split; [intros Ht; unfold loadEntriesFromDB; rewrite Ht; reflexivity|].
  split; [reflexivity|].
  intros r r'. unfold loadEntriesFromDB.
  destruct r as [[]|]; [|reflexivity].
  destruct r' as [[]|]; [destruct (getAppState "lastSyncTime" (db w))|]; reflexivity.
Qed.

Lemma keyed_run env arg w :
  keyed (db_entries (db w)) -> keyed (db_entries (db (finalWorld (runSync env arg w)))).
Proof.
  intros Hk.
  destruct (run_cases env arg w)
    as [(He & Hl & Hd) | (pr & pl & Hp & Hq & Hs & He & Hl & Hd & Ha)].
  - rewrite Hd. exact Hk.
  - rewrite Hd. apply keyed_saveEntries, Hk.
Qed.

(** X4: from a consistent world, reloading from the store after any run loses nothing: every record the state holds after the run is loaded again, every id the state held before the run is still present, and the reloaded world is consistent. *)
Theorem reload_after_run env arg w r :
  consistent w -> keyed (db_entries (db w)) ->
  (forall e, In e (entries (comp (finalWorld (runSync env arg w)))) ->
     In e (entries (comp (loadEntriesFromDB (Fulfilled tt) r
                            (finalWorld (runSync env arg w)))))) /\
  (forall e, In e (entries (comp w)) ->
     existsb (hasId (record_id e))
       (entries (comp (loadEntriesFromDB (Fulfilled tt) r
                         (finalWorld (runSync env arg w))))) = true) /\
  consistent (loadEntriesFromDB (Fulfilled tt) r (finalWorld (runSync env arg w))).
Proof.
  intros Hc Hk.
  pose proof (run_consistent env arg w Hc) as Hc'.
  pose proof (keyed_run env arg w Hk) as Hk'.
  pose proof (entries_loadEntriesFromDB r (finalWorld (runSync env arg w))) as Hent.
  split; [|split].
  - intros e He. rewrite Hent. apply In_getAllEntries_keyed; [exact Hk'|].
    apply Hc', He.
  - intros e He. rewrite Hent. apply existsb_hasId_In.
    destruct Hc as [_ Hst]. specialize (Hst e He).
    assert (is_Some (db_entries (db (finalWorld (runSync env arg w))) !! record_id e)) as [x Hx].
    { destruct (run_cases env arg w)
        as [(He' & Hl & Hd) | (pr & pl & Hp & Hq & Hs & He' & Hl & Hd & Ha)].
      - rewrite Hd, Hst. eexists; reflexivity.
      - rewrite Hd. apply saveEntries_keeps. rewrite Hst. eexists; reflexivity. }
    exists x. split; [|apply Hk', Hx].
    apply In_getAllEntries. eauto.
  - apply load_consistent, Hk'.
Qed.

Lemma reload_after_run_witness :
  consistent (loadEntriesFromDB (Fulfilled tt) (Fulfilled tt)
                (finalWorld (runSync (envOk 1000 (pushReply 1 0 None) (pullReply [])) None
                                     (clientWith [r1] None)))).
Proof.
  refine (proj2 (proj2 (reload_after_run (envOk 1000 (pushReply 1 0 None) (pullReply []))
                          None (clientWith [r1] None) (Fulfilled tt) _ _))).
  - apply clientWith_consistent. repeat constructor. intros [].
  - apply keyed_clientWith.
Defined.

Lemma guardBlocks_ready c tok :
  token c = Some tok -> truthy tok = true -> isOnline c = true -> isSyncing c = false ->
  guardBlocks c = false.
Proof. unfold guardBlocks. intros -> -> -> ->. reflexivity. Qed.

Lemma length_zero_iff {A} (l : list A) : (length l =? 0)%nat = true <-> l = [].
Proof. destruct l; cbn; split; congruence. Qed.

Lemma handleLogEntry_consistent_fresh u t f p r w :
  consistent w -> existsb (hasId (uuid f)) (entries (comp w)) = false ->
  consistent (handleLogEntry (Some u) t f p r w).
Proof.
  intros [Hnd Hst] Hfresh. destruct r as [[]|e]; [|split; assumption].
  split; cbn.
  - constructor; [apply not_In_ids, Hfresh | exact Hnd].
  - intros e [<-|He]; unfold saveEntry.
    + apply lookup_insert_eq.
    + rewrite lookup_insert_ne; [apply Hst, He|].
      cbn. intros Heq.
      assert (existsb (hasId (uuid f)) (entries (comp w)) = true) as Ht
          by (apply existsb_hasId_In; exists e; auto).
      congruence.
Qed.

(** ** Logging and synchronising *)

Lemma commit_marks_accepted env arg w pr pl id :
  existsb isPush (callsOf (runSync env arg w)) = true ->
  push_reply env = Fulfilled pr -> pull_reply env = Fulfilled pl ->
  saveEntries_reply env = Fulfilled tt ->
  existsb (hasId id) (entriesToSync arg (entries (comp w))) = true ->
  rejectedId pr id = false ->
  existsb (hasId id) (default [] (pull_entries pl)) = false ->
  withId id (entries (comp (finalWorld (runSync env arg w))))
    = List.map markSynced (withId id (entries (comp w))) /\
  (forall e, withId id (entries (comp w)) = [e] ->
     db_entries (db (finalWorld (runSync env arg w))) !! id = Some (markSynced e)).
Proof.
  intros Hcalled Hpush Hpull Hsave Hin Hrej Hnp.
  assert (withId id (mergedOf (comp w) arg pr pl)
          = List.map markSynced (withId id (entries (comp w)))) as Hm.
  { unfold mergedOf. rewrite withId_mergedEntries.
    apply pulledVersion_None in Hnp. rewrite Hnp.
    rewrite withId_updatedEntries, Hrej, Hin. reflexivity. }
  destruct (push_called _ _ _ Hcalled) as [Hg Hb].
  destruct (guardBlocks_false _ Hg) as (tok & Htok & _).
  assert (entries (comp (finalWorld (runSync env arg w))) = mergedOf (comp w) arg pr pl /\
          db_entries (db (finalWorld (runSync env arg w)))
            = saveEntries (mergedOf (comp w) arg pr pl) (db_entries (db w))) as [He Hd].
  { destruct (setAppState_reply env) as [[]|e] eqn:Hput.
    - rewrite (run_complete env arg w tok Htok Hg Hb pr Hpush pl Hpull Hsave Hput).
      unfold finalWorld. cbn. destruct (rejectionWarning pr); split; reflexivity.
    - rewrite (run_put_rejected env arg w tok Htok Hg Hb pr Hpush pl Hpull Hsave e Hput).
      split; reflexivity. }
  rewrite He, Hd. split; [exact Hm|].
  intros e Hw. rewrite lookup_saveEntries, find_rev_withId, Hm, Hw. reflexivity.
Qed.

(** X5: when push, pull and the write of the entries succeed, the records of a batch id that the gateway neither rejects nor returns in the pull are the records of before with the pending flag cleared, in the state and, when the id is held once, in the store; the write of the watermark may fail. *)
Theorem accepted_records_marked_synced env arg w pr pl id :
  existsb isPush (callsOf (runSync env arg w)) = true ->
  push_reply env = Fulfilled pr -> pull_reply env = Fulfilled pl ->
  saveEntries_reply env = Fulfilled tt ->
  existsb (hasId id) (entriesToSync arg (entries (comp w))) = true ->
  rejectedId pr id = false ->
  existsb (hasId id) (default [] (pull_entries pl)) = false ->
  withId id (entries (comp (finalWorld (runSync env arg w))))
    = List.map markSynced (withId id (entries (comp w))) /\
  (forall e, withId id (entries (comp w)) = [e] ->
     db_entries (db (finalWorld (runSync env arg w))) !! id = Some (markSynced e)).
Proof. apply commit_marks_accepted. Qed.

Lemma accepted_records_marked_synced_witness :
  withId "r1" (entries (comp (finalWorld
     (runSync (envOk 1000 (pushReply 1 0 None) (pullReply [])) None
              (clientWith [r1] None))))) = [markSynced r1].
Proof.
  exact (proj1 (accepted_records_marked_synced
                  (envOk 1000 (pushReply 1 0 None) (pullReply [])) None
                  (clientWith [r1] None) (pushReply 1 0 None) (pullReply []) "r1"
                  eq_refl eq_refl eq_refl eq_refl eq_refl eq_refl eq_refl)).
Defined.



(** ** The sync button, the timer and the entry list's button *)

(** X7: with a token, the sync button is enabled exactly when clicking it starts a run that pushes all the pending entries; when it is disabled a run issues no call. *)
Theorem sync_button_enabled_iff_run_pushes env w tok :
  token (comp w) = Some tok -> truthy tok = true ->
  (isSyncButtonDisabled (comp w) = false <->
   exists rest, callsOf (runSync env None w)
                = CallPush tok (pendingEntries (entries (comp w))) :: rest) /\
  (isSyncButtonDisabled (comp w) = true -> callsOf (runSync env None w) = []).
Proof.
  intros Htok Htr. unfold isSyncButtonDisabled.
  destruct (isOnline (comp w)) eqn:Hon; cbn [negb orb].
  2:{ rewrite run_blocked by (unfold guardBlocks; rewrite Htok, Hon; reflexivity).
      split; [split; [discriminate | intros [rest H]; discriminate] | reflexivity]. }
  destruct (isSyncing (comp w)) eqn:Hsy; cbn [orb].
  { rewrite run_blocked by (unfold guardBlocks; rewrite Htok, Hon, Hsy; reflexivity).
    split; [split; [discriminate | intros [rest H]; discriminate] | reflexivity]. }
  pose proof (guardBlocks_ready _ _ Htok Htr Hon Hsy) as Hg.
  destruct (pendingEntries (entries (comp w))) as [|b bs] eqn:Hp; cbn [length Nat.eqb].
  - rewrite (run_empty_batch env None w tok Htok Hg Hp).
    split; [split; [discriminate | intros [rest H]; discriminate] | reflexivity].
  - assert (entriesToSync None (entries (comp w)) <> []) as Hb
        by (cbn; rewrite Hp; discriminate).
    destruct (run_starts_with_push env None w tok Htok Hg Hb) as [rest Hrest].
    cbn in Hrest. rewrite Hp in Hrest.
    split; [split; [intros _; exists rest; exact Hrest | reflexivity] | discriminate].
Qed.

Lemma sync_button_enabled_iff_run_pushes_witness :
  exists rest, callsOf (runSync (envPushDown 1000) None (clientWith [r1] None))
               = CallPush "jwt" [r1] :: rest.
Proof.
  exact (proj1 (proj1 (sync_button_enabled_iff_run_pushes (envPushDown 1000)
                         (clientWith [r1] None) "jwt" eq_refl eq_refl)) eq_refl).
Defined.

(** X8: the 30-second timer is set only on an online client with a token and something pending; its tick then pushes the pending entries, unless a run is in progress, in which case it issues no call.  With nothing pending, offline or without a token the timer is not set. *)
Theorem sync_interval_armed_only_for_work env w :
  (syncIntervalArmed (comp w) = true ->
   isOnline (comp w) = true /\ pendingEntries (entries (comp w)) <> [] /\
   exists tok, token (comp w) = Some tok /\ truthy tok = true /\
     (isSyncing (comp w) = false ->
      exists rest, callsOf (trigger env Periodic w)
                   = CallPush tok (pendingEntries (entries (comp w))) :: rest) /\
     (isSyncing (comp w) = true -> callsOf (trigger env Periodic w) = [])) /\
  (pendingEntries (entries (comp w)) = [] -> syncIntervalArmed (comp w) = false) /\
  (isOnline (comp w) = false -> syncIntervalArmed (comp w) = false) /\
  (token (comp w) = None -> syncIntervalArmed (comp w) = false).
Proof.
  unfold syncIntervalArmed. split; [|split; [|split]].
  - intros H. apply negb_true_iff in H.
    apply orb_false_elim in H as [H Hlen]. apply orb_false_elim in H as [Hon Htok].
    apply negb_false_iff in Hon, Htok.
    destruct (token (comp w)) as [tok|] eqn:Et; [|discriminate].
    assert (pendingEntries (entries (comp w)) <> []) as Hp
        by (intros E; rewrite E in Hlen; discriminate).
    split; [exact Hon|]. split; [exact Hp|].
    exists tok. split; [reflexivity|]. split; [exact Htok|]. split.
    + intros Hsy. apply (run_starts_with_push env None w tok Et).
      * apply (guardBlocks_ready _ _ Et Htok Hon Hsy).
      * exact Hp.
    + intros Hsy. unfold trigger. rewrite run_blocked; [reflexivity|].
      unfold guardBlocks. rewrite Et, Hsy. apply orb_true_iff. left. apply orb_true_r.
  - intros ->. cbn. rewrite !orb_true_r. reflexivity.
  - intros ->. reflexivity.
  - intros ->. cbn. rewrite orb_true_r. reflexivity.
Qed.

(** X9: a run started from the button the entry list shows for a pending entry begins by pushing a batch that holds that entry; when the id of the entry is not empty the batch holds the pending entries of that id and nothing else, and when it is empty the batch is all the pending entries. *)
Theorem single_entry_sync_batch env w tok e :
  token (comp w) = Some tok -> guardBlocks (comp w) = false ->
  In e (entries (comp w)) -> showsSyncButton e = true ->
  exists batch rest,
    callsOf (trigger env (ManualOne (record_id e)) w) = CallPush tok batch :: rest /\
    In e batch /\
    (truthy (record_id e) = true ->
     forall x, In x batch <->
               In x (entries (comp w)) /\ pendingFlag x = true /\
               record_id x = record_id e) /\
    (truthy (record_id e) = false -> batch = pendingEntries (entries (comp w))).
Proof.
  intros Htok Hg Hin Hshow. unfold trigger. cbn [triggerArg].
  assert (forall x, In x (List.filter (hasId (record_id e))
                            (pendingEntries (entries (comp w)))) <->
            In x (entries (comp w)) /\ pendingFlag x = true /\
            record_id x = record_id e) as Hone.
  { intros x. unfold pendingEntries. rewrite !filter_In, hasId_true. tauto. }
  assert (In e (entriesToSync (Some (record_id e)) (entries (comp w)))) as He.
  { unfold entriesToSync. destruct (truthy (record_id e)).
    - apply Hone. auto.
    - unfold pendingEntries. apply filter_In. auto. }
  assert (entriesToSync (Some (record_id e)) (entries (comp w)) <> []) as Hb
      by (intros E; rewrite E in He; destruct He).
  destruct (run_starts_with_push env (Some (record_id e)) w tok Htok Hg Hb)
    as [rest Hrest].
  exists (entriesToSync (Some (record_id e)) (entries (comp w))), rest.
  split; [exact Hrest|]. split; [exact He|]. split.
  - intros Htr. unfold entriesToSync. rewrite Htr. exact Hone.
  - intros Htr. unfold entriesToSync. rewrite Htr. reflexivity.
Qed.

Lemma single_entry_sync_batch_witness :
  exists batch rest,
    callsOf (trigger (envPushDown 1000) (ManualOne "r2")
               (clientWith [r1; sampleEntry "r2" (Some true) "second"] None))
      = CallPush "jwt" batch :: rest /\
    In (sampleEntry "r2" (Some true) "second") batch.
Proof.
  destruct (single_entry_sync_batch (envPushDown 1000)
              (clientWith [r1; sampleEntry "r2" (Some true) "second"] None) "jwt"
              (sampleEntry "r2" (Some true) "second")
              eq_refl eq_refl (or_intror (or_introl eq_refl)) eq_refl)
    as (batch & rest & Hcalls & Hin & _).
  exists batch, rest. split; [exact Hcalls | exact Hin].
Defined.

(** ** The request helper *)

Lemma prefix_bearer t : String.prefix "Bearer " ("Bearer " ++ t) = true.
Proof. cbn. destruct t; reflexivity. Qed.

(** X10: the authorization header always starts with ["Bearer "], a token that already does is sent as it is (prefixing is idempotent), an empty or absent token sets no header, and a header given in the options replaces the one built from the token. *)
Theorem bearer_header tok :
  String.prefix "Bearer " (bearer tok) = true /\
  bearer (bearer tok) = bearer tok /\
  (truthy tok = true ->
   requestHeaders (Some tok) [] !! "Authorization" = Some (bearer tok)) /\
  requestHeaders (Some "") [] !! "Authorization" = None /\
  requestHeaders None [] !! "Authorization" = None /\
  (forall v, requestHeaders (Some tok) [("Authorization", v)] !! "Authorization" = Some v).
Proof.
  assert (String.prefix "Bearer " (bearer tok) = true) as Hp.
  { unfold bearer. destruct (String.prefix "Bearer " tok) eqn:E;
      [exact E | apply prefix_bearer]. }
  split; [exact Hp|]. split.
  { unfold bearer at 1. rewrite Hp. reflexivity. }
  split.
  { intros Htr. unfold requestHeaders. rewrite Htr. cbn. apply lookup_insert_eq. }
  split; [reflexivity|]. split; [reflexivity|].
  intros v. unfold requestHeaders. cbn. apply lookup_insert_eq.
Qed.

Lemma append_nonempty a b : a <> "" -> (a ++ b)%string <> "".
Proof. destruct a; [congruence | discriminate]. Qed.

(** X11: [fetchWithAuth] fulfils only with a response that is ok; for a response that is not ok it rejects, with the body as message when the body is not empty and a message that is never empty otherwise; a rejection of [fetch] is passed on. *)
Theorem fetchWithAuth_rejects_failures {A} (net : Settled (HttpResponse A)) :
  (forall r, fetchWithAuth net = Fulfilled r -> net = Fulfilled r /\ resp_ok r = true) /\
  (forall r, net = Fulfilled r -> resp_ok r = false ->
     exists e, fetchWithAuth net = Rejected e /\
       (forall errorText, resp_text r = Fulfilled errorText ->
          e = ThrownError (apiErrorMessage r errorText) /\
          apiErrorMessage r errorText <> "" /\
          (errorText <> "" -> apiErrorMessage r errorText = errorText))) /\
  (forall e, net = Rejected e -> fetchWithAuth net = Rejected e).
Proof.
  split; [|split].
  - intros r. unfold fetchWithAuth. destruct net as [r0|e]; [|discriminate].
    destruct (resp_ok r0) eqn:Hok.
    + intros [= <-]. auto.
    + destruct (resp_text r0); discriminate.
  - intros r -> Hok. unfold fetchWithAuth. rewrite Hok.
    destruct (resp_text r) as [txt|e] eqn:Ht.
    + eexists. split; [reflexivity|]. intros errorText [= <-].
      split; [reflexivity|]. unfold apiErrorMessage, truthy.
      destruct (String.eqb_spec txt "") as [->|Hne]; cbn.
      * split; [discriminate | congruence].
      * split; [exact Hne | reflexivity].
    + eexists. split; [reflexivity|]. discriminate.
  - intros e ->. reflexivity.
Qed.

Lemma http_failure_message r errorText :
  resp_ok r = false -> resp_text r = Fulfilled errorText ->
  apiCall (A := SyncPushResponse) (Fulfilled r)
  = Rejected (ThrownError (apiErrorMessage r errorText)).
Proof. intros Hok Ht. unfold apiCall, fetchWithAuth. rewrite Hok, Ht. reflexivity. Qed.

(** X12: a run whose push is answered with an HTTP error shows the body of the response, or [HTTP <status>: <statusText>] when the body is empty, issues no other call and leaves the entries and the database as they were. *)
Theorem push_http_error_shown env_now pullNet r_save r_put arg w r errorText :
  existsb isPush
    (callsOf (runSync (envHttp env_now (Fulfilled r) pullNet r_save r_put) arg w)) = true ->
  resp_ok r = false -> resp_text r = Fulfilled errorText ->
  syncError (comp (finalWorld
     (runSync (envHttp env_now (Fulfilled r) pullNet r_save r_put) arg w)))
    = Some (if truthy errorText then errorText
            else "HTTP " ++ pretty (resp_status r) ++ ": " ++ resp_statusText r) /\
  length (callsOf (runSync (envHttp env_now (Fulfilled r) pullNet r_save r_put) arg w))
    = 1%nat /\
  entries (comp (finalWorld
     (runSync (envHttp env_now (Fulfilled r) pullNet r_save r_put) arg w)))
    = entries (comp w) /\
  db (finalWorld (runSync (envHttp env_now (Fulfilled r) pullNet r_save r_put) arg w))
    = db w.
Proof.
  intros Hcalled Hok Ht.
  destruct (push_called _ _ _ Hcalled) as [Hg Hb].
  destruct (guardBlocks_false _ Hg) as (tok & Htok & _).
  rewrite (run_push_rejected (envHttp env_now (Fulfilled r) pullNet r_save r_put)
             arg w tok Htok Hg Hb
             (ThrownError (apiErrorMessage r errorText))
             (http_failure_message r errorText Hok Ht)).
  repeat split.
Qed.

Lemma push_http_error_shown_witness :
  syncError (comp (finalWorld
     (runSync (envHttp 1000 (Fulfilled badGateway) (Rejected ThrownOther)
                       (Fulfilled tt) (Fulfilled tt)) None (clientWith [r1] None))))
  = Some "HTTP 502: Bad Gateway".
Proof.
  exact (proj1 (push_http_error_shown 1000 (Rejected ThrownOther) (Fulfilled tt)
                  (Fulfilled tt) None (clientWith [r1] None) badGateway ""
                  eq_refl eq_refl eq_refl)).
Defined.

(** ** Substrings *)

Lemma prefix_app a b : String.prefix a (a ++ b) = true.
Proof.
  induction a as [|c a IH]; simpl; [destruct b; reflexivity|].
  destruct (Ascii.ascii_dec c c); [exact IH | congruence].
Qed.

Lemma prefix_split a s : String.prefix a s = true -> exists post, s = a ++ post.
Proof.
  revert s. induction a as [|c a IH]; intros s H.
  - exists s. reflexivity.
  - destruct s as [|d s]; cbn in H; [discriminate|].
    destruct (Ascii.ascii_dec c d) as [->|]; [|discriminate].
    destruct (IH s H) as [post ->]. exists post. reflexivity.
Qed.

Lemma includesStr_spec needle hay :
  includesStr needle hay = true <-> exists pre post, hay = pre ++ needle ++ post.
Proof.
  split.
  - induction hay as [|c hay IH]; cbn [includesStr]; intros H.
    + rewrite orb_false_r in H. destruct (prefix_split _ _ H) as [post ->].
      exists "", post. reflexivity.
    + apply orb_true_iff in H as [H|H].
      * destruct (prefix_split _ _ H) as [post ->]. exists "", post. reflexivity.
      * destruct (IH H) as (pre & post & ->). exists (String c pre), post. reflexivity.
  - intros (pre & post & ->). induction pre as [|c pre IH].
    + change ("" ++ needle ++ post) with (needle ++ post).
      pose proof (prefix_app needle post) as H.
      destruct (needle ++ post); cbn [includesStr]; rewrite H; reflexivity.
    + change (String c pre ++ needle ++ post) with (String c (pre ++ needle ++ post)).
      cbn [includesStr]. rewrite IH. apply orb_true_r.
Qed.

Lemma truthy_true s : truthy s = true <-> s <> "".
Proof.
  unfold truthy. destruct (String.eqb_spec s ""); cbn; split; congruence.
Qed.

Lemma truthy_false s : truthy s = false <-> s = "".
Proof.
  unfold truthy. destruct (String.eqb_spec s ""); cbn; split; congruence.
Qed.

Lemma filter_idem {A} (p : A -> bool) l : List.filter p (List.filter p l) = List.filter p l.
Proof.
  induction l as [|x l IH]; cbn; [reflexivity|].
  destruct (p x) eqn:E; cbn; [rewrite E, IH|]; auto.
Qed.

Lemma filter_comm {A} (p q : A -> bool) l :
  List.filter p (List.filter q l) = List.filter q (List.filter p l).
Proof.
  induction l as [|x l IH]; cbn; [reflexivity|].
  destruct (p x) eqn:Ep, (q x) eqn:Eq; cbn; rewrite ?Ep, ?Eq, IH; reflexivity.
Qed.

Lemma filter_filter_idem {A} (p q : A -> bool) l :
  List.filter p (List.filter q (List.filter p (List.filter q l)))
  = List.filter p (List.filter q l).
Proof.
  induction l as [|x l IH]; cbn; [reflexivity|].
  destruct (q x) eqn:Eq; cbn; [|exact IH].
  destruct (p x) eqn:Ep; cbn; [|exact IH].
  rewrite Eq. cbn. rewrite Ep, IH. reflexivity.
Qed.

Lemma filter_all {A} (p : A -> bool) l :
  (forall x, p x = true) -> List.filter p l = l.
Proof.
  intros Hp. induction l as [|x l IH]; cbn; [reflexivity|]. rewrite Hp, IH. reflexivity.
Qed.

(** ** The search box *)

(** X13: [handleSearch] keeps, in their order, the entries whose notes contain the term (both in lower case) when there is a term and whose status is the chosen one when one is chosen; it is idempotent, returns the list itself when both filters are empty, distributes over concatenation, and returns nothing for a status that is neither [ACTIVE] nor [DELETED]. *)
Theorem handleSearch_selects lc term st es :
  (forall x, In x (handleSearch lc term st es) <->
     In x es /\
     (term <> "" -> exists pre post, lc (notesOf (payload x)) = pre ++ lc term ++ post) /\
     (st <> "" -> statusText (status x) = st)) /\
  handleSearch lc term st (handleSearch lc term st es) = handleSearch lc term st es /\
  handleSearch lc "" "" es = es /\
  (forall es', handleSearch lc term st (es ++ es')%list
               = (handleSearch lc term st es ++ handleSearch lc term st es')%list) /\
  (st <> "" -> st <> "ACTIVE" -> st <> "DELETED" -> handleSearch lc term st es = []).
Proof.
  unfold handleSearch. split; [|split; [|split; [|split]]].
  - intros x.
    destruct (truthy term) eqn:Et, (truthy st) eqn:Es;
      rewrite ?filter_In, ?includesStr_spec, ?String.eqb_eq;
      try apply truthy_true in Et; try apply truthy_true in Es;
      try apply truthy_false in Et; try apply truthy_false in Es;
      intuition congruence.
  - destruct (truthy term), (truthy st); auto using filter_idem, filter_filter_idem.
  - reflexivity.
  - intros es'. destruct (truthy term), (truthy st); rewrite ?List.filter_app; reflexivity.
  - intros Hne Ha Hd. apply truthy_true in Hne. rewrite Hne.
    assert (forall l, List.filter (fun entry => statusText (status entry) =? st) l = []) as H.
    { induction l as [|x l IH]; cbn; [reflexivity|].
      destruct (String.eqb_spec (statusText (status x)) st) as [E|_]; [|exact IH].
      destruct (status x); cbn in E; congruence. }
    apply H.
Qed.

(** ** The entry list *)

Lemma sortBy_StronglySorted {A} (le : A -> A -> bool) l :
  (forall a b, le a b = true \/ le b a = true) ->
  (forall a b c, le a b = true -> le b c = true -> le a c = true) ->
  StronglySorted (fun a b => le a b = true) (sortBy le l).
Proof.
  intros Htot Htr. apply Sorted_StronglySorted.
  - intros a b c. apply Htr.
  - apply sortBy_sorted, Htot.
Qed.

Lemma StronglySorted_weaken {A} (R R' : A -> A -> Prop) l :
  (forall a b, R a b -> R' a b) -> StronglySorted R l -> StronglySorted R' l.
Proof.
  intros HR Hs. induction Hs as [|x l Hs IH Hall]; constructor; [exact IH|].
  revert Hall. apply List.Forall_impl. apply HR.
Qed.

Lemma Sorted_restrict {A} (R R' : A -> A -> Prop) (P : A -> Prop) l :
  (forall a b, P a -> P b -> R a b -> R' a b) ->
  List.Forall P l -> Sorted R l -> Sorted R' l.
Proof.
  intros HR. induction l as [|x l IH]; intros HP Hs; [constructor|].
  apply Sorted_inv in Hs as [Hs Hhd].
  pose proof (List.Forall_inv HP) as Hx.
  pose proof (List.Forall_inv_tail HP) as Hl.
  constructor; [apply IH; assumption|].
  destruct Hhd as [|y l' Hxy]; constructor.
  apply HR; [exact Hx | exact (List.Forall_inv Hl) | exact Hxy].
Qed.

Lemma recentFirst_total getTime a b :
  recentFirst getTime a b = true \/ recentFirst getTime b a = true.
Proof.
  unfold recentFirst.
  destruct (getTime (client_ts a)) as [ta|], (getTime (client_ts b)) as [tb|]; auto.
  destruct (Z.leb_spec (tb - ta) 0); [auto|]. right. apply Z.leb_le. lia.
Qed.

(** X14: when every [client_ts] is a date, [sortedEntries] is a permutation of the entries in which no entry comes before a more recent one, and its first entry is a most recent one. *)
Theorem sortedEntries_recent_first getTime es :
  (forall e, In e es -> getTime (client_ts e) <> None) ->
  Permutation (sortedEntries getTime es) es /\
  StronglySorted (fun a b => exists ta tb,
                    getTime (client_ts a) = Some ta /\
                    getTime (client_ts b) = Some tb /\ (tb <= ta)%Z)
                 (sortedEntries getTime es) /\
  (forall first rest, sortedEntries getTime es = first :: rest ->
     forall e, In e es ->
       exists t tf, getTime (client_ts e) = Some t /\
                    getTime (client_ts first) = Some tf /\ (t <= tf)%Z) /\
  length (sortedEntries getTime es) = length es.
Proof.
  intros Hvalid.
  assert (Permutation (sortedEntries getTime es) es) as Hp by apply sortBy_perm.
  assert (List.Forall (fun e => getTime (client_ts e) <> None)
                      (sortedEntries getTime es)) as Hall.
  { apply List.Forall_forall. intros e He. apply Hvalid.
    eapply Permutation_in; [exact Hp | exact He]. }
  assert (StronglySorted (fun a b => exists ta tb,
                    getTime (client_ts a) = Some ta /\
                    getTime (client_ts b) = Some tb /\ (tb <= ta)%Z)
                 (sortedEntries getTime es)) as Hs.
  { apply Sorted_StronglySorted.
    - intros a b c (ta & tb & Ha & Hb & Hab) (tb' & tc & Hb' & Hc & Hbc).
      exists ta, tc. rewrite Hb in Hb'. injection Hb' as <-.
      split; [exact Ha|]. split; [exact Hc | lia].
    - apply (Sorted_restrict (fun a b => recentFirst getTime a b = true) _
               (fun e => getTime (client_ts e) <> None)); [| exact Hall |].
      + intros a b Ha Hb Hab. unfold recentFirst in Hab.
        destruct (getTime (client_ts a)) as [ta|]; [|congruence].
        destruct (getTime (client_ts b)) as [tb|]; [|congruence].
        exists ta, tb. split; [reflexivity|]. split; [reflexivity|].
        apply Z.leb_le in Hab. lia.
      + apply sortBy_sorted. intros a b. apply recentFirst_total. }
  split; [exact Hp|]. split; [exact Hs|]. split.
  - intros first rest E e He. rewrite E in Hs, Hp, Hall.
    apply StronglySorted_inv in Hs as [_ Hrest].
    apply (Permutation_in _ (Permutation_sym Hp)) in He as [Heq|He].
    + subst e. pose proof (List.Forall_inv Hall) as Hf. cbv beta in Hf.
      destruct (getTime (client_ts first)) as [tf|]; [|congruence].
      exists tf, tf. split; [reflexivity|]. split; [reflexivity | lia].
    + rewrite List.Forall_forall in Hrest.
      destruct (Hrest e He) as (tf & t & Hf & Ht & Hle).
      exists t, tf. auto.
  - apply Permutation_length, Hp.
Qed.

Lemma sortedEntries_recent_first_witness :
  Permutation (sortedEntries sampleTime [r1; newEntryOf operator1 CAR fresh2 carPayload])
              [r1; newEntryOf operator1 CAR fresh2 carPayload].
Proof.
  refine (proj1 (sortedEntries_recent_first sampleTime
                   [r1; newEntryOf operator1 CAR fresh2 carPayload] _)).
  intros e [<-|[<-|[]]]; discriminate.
Defined.

(** The entry logged on 2 May is shown before [r1], of 1 May. *)
Example sortedEntries_sample :
  sortedEntries sampleTime [r1; newEntryOf operator1 CAR fresh2 carPayload]
  = [newEntryOf operator1 CAR fresh2 carPayload; r1].
Proof. vm_compute. reflexivity. Qed.

(** With a [client_ts] that is no date the comparator answers [NaN] for
    every pair that has it, and the order is no longer by time: here the
    entry of 1 May stays before the entry of 2 May. *)
Example sortedEntries_unparsable_timestamp :
  sortedEntries sampleTime
    [r1;
     newEntryOf operator1 CAR
       {| uuid := "r3"; now_client := "soon"; now_updated := "soon";
          now_created := "soon" |} carPayload;
     newEntryOf operator1 CAR fresh2 carPayload]
  = [r1;
     newEntryOf operator1 CAR
       {| uuid := "r3"; now_client := "soon"; now_updated := "soon";
          now_created := "soon" |} carPayload;
     newEntryOf operator1 CAR fresh2 carPayload].
Proof. vm_compute. reflexivity. Qed.

(** ** The dashboards *)

Lemma existsb_eqb_In x l : existsb (String.eqb x) l = true <-> In x l.
Proof.
  rewrite existsb_exists. split.
  - intros (y & Hy & E). apply String.eqb_eq in E. subst. exact Hy.
  - intros H. exists x. split; [exact H | apply String.eqb_refl].
Qed.

(** X15: the dashboard shows an administrator every entry, a supervisor the entries logged by the operators they manage, a gate operator their own entries, and nobody anything else; the supervisor dashboard shows the same entries, except to a gate operator, who sees none. *)
Theorem dashboard_shows_by_role u allEntries :
  (forall x, In x (dashboardEntries (Some u) allEntries) <->
     In x allEntries /\
     match role u with
     | ADMIN => True
     | SUPERVISOR => exists ops, managed_operators u = Some ops /\ In (logging_user_id x) ops
     | GATE_OPERATOR => logging_user_id x = user_id u
     end) /\
  visibleEntries (Some u) allEntries
    = match role u with
      | GATE_OPERATOR => []
      | _ => dashboardEntries (Some u) allEntries
      end /\
  dashboardEntries None allEntries = [] /\ visibleEntries None allEntries = [].
Proof.
  split; [|split; [|split; reflexivity]].
  - intros x. unfold dashboardEntries.
    destruct (role u); [tauto| |].
    + destruct (managed_operators u) as [ops|].
      * rewrite filter_In, existsb_eqb_In. split.
        -- intros [H1 H2]. eauto.
        -- intros [H1 (ops' & [= <-] & H2)]. auto.
      * split; [intros [] | intros [_ (ops & H & _)]; discriminate].
    + destruct (managed_operators u); rewrite filter_In, String.eqb_eq; tauto.
  - unfold visibleEntries, dashboardEntries.
    destruct (role u), (managed_operators u); reflexivity.
Qed.

(** X16: the filters of the supervisor dashboard select among the visible entries those of the chosen type, of the chosen checkpoint and containing the search term; with no filter set they select all the visible entries; they never show an entry the dashboard of the same user would not show. *)
Theorem filteredEntries_within_visible lc user ft cp term allEntries :
  (forall x, In x (filteredEntries lc user ft cp term allEntries) <->
     In x (visibleEntries user allEntries) /\
     (forall t, ft = Some t -> entry_type x = t) /\
     (cp <> "ALL" -> checkpoint_id x = cp) /\
     (term <> "" -> exists pre post, searchableText lc x = pre ++ lc term ++ post)) /\
  filteredEntries lc user None "ALL" "" allEntries = visibleEntries user allEntries /\
  (forall x, In x (filteredEntries lc user ft cp term allEntries) ->
     In x (dashboardEntries user allEntries)).
Proof.
  assert (forall x, In x (filteredEntries lc user ft cp term allEntries) <->
     In x (visibleEntries user allEntries) /\
     (forall t, ft = Some t -> entry_type x = t) /\
     (cp <> "ALL" -> checkpoint_id x = cp) /\
     (term <> "" -> exists pre post, searchableText lc x = pre ++ lc term ++ post)) as H.
  { intros x. unfold filteredEntries. rewrite filter_In.
    apply and_iff_compat_l. unfold passesFilters.
    assert (forall a b, entryTypeEqb a b = true <-> a = b) as Hty
        by (intros [] []; cbn; split; congruence).
    destruct ft as [t|].
    - destruct (entryTypeEqb (entry_type x) t) eqn:Et; cbn [negb].
      + apply Hty in Et.
        destruct (String.eqb_spec cp "ALL") as [Ec|Ec]; cbn [negb andb].
        * destruct (truthy term) eqn:Etm;
            [apply truthy_true in Etm | apply truthy_false in Etm];
            rewrite ?includesStr_spec; intuition congruence.
        * destruct (String.eqb_spec (checkpoint_id x) cp) as [Ex|Ex]; cbn [negb].
          -- destruct (truthy term) eqn:Etm;
               [apply truthy_true in Etm | apply truthy_false in Etm];
               rewrite ?includesStr_spec; intuition congruence.
          -- split; [discriminate | intros (_ & Hc & _); tauto].
      + split; [discriminate|]. intros (Ht & _). specialize (Ht t eq_refl).
        apply Hty in Ht. congruence.
    - destruct (String.eqb_spec cp "ALL") as [Ec|Ec]; cbn [negb andb].
      + destruct (truthy term) eqn:Etm;
          [apply truthy_true in Etm | apply truthy_false in Etm];
          rewrite ?includesStr_spec; intuition congruence.
      + destruct (String.eqb_spec (checkpoint_id x) cp) as [Ex|Ex]; cbn [negb].
        * destruct (truthy term) eqn:Etm;
            [apply truthy_true in Etm | apply truthy_false in Etm];
            rewrite ?includesStr_spec; intuition congruence.
        * split; [discriminate | intros (_ & Hc & _); tauto]. }
  split; [exact H|]. split.
  - unfold filteredEntries. apply filter_all. reflexivity.
  - intros x Hx. apply H in Hx as [Hx _]. revert Hx.
    unfold visibleEntries, dashboardEntries. destruct user as [u|]; [|tauto].
    destruct (role u), (managed_operators u); cbn; tauto.
Qed.

Lemma uniqueInOrder_In seen xs x :
  In x (uniqueInOrder seen xs) <-> In x xs /\ ~ In x seen.
Proof.
  revert seen. induction xs as [|y xs IH]; intros seen; cbn [uniqueInOrder].
  - cbn. tauto.
  - destruct (existsb (String.eqb y) seen) eqn:E.
    + apply existsb_eqb_In in E. rewrite IH. cbn. intuition congruence.
    + assert (~ In y seen) as Hn
          by (intros Hin; apply existsb_eqb_In in Hin; congruence).
      cbn [In]. rewrite IH. cbn [In].
      destruct (String.eqb_spec y x) as [->|Hne]; [|tauto].
      split; [intros _; split; [left; reflexivity | exact Hn] | intros _; left; reflexivity].
Qed.

Lemma uniqueInOrder_NoDup seen xs : List.NoDup (uniqueInOrder seen xs).
Proof.
  revert seen. induction xs as [|y xs IH]; intros seen; cbn [uniqueInOrder].
  - constructor.
  - destruct (existsb (String.eqb y) seen); [apply IH|].
    constructor; [|apply IH].
    rewrite uniqueInOrder_In. cbn. tauto.
Qed.

(** X17: the checkpoint list of the supervisor dashboard holds each checkpoint of the stored entries once, whoever the user is: it is computed from all the entries, not from the visible ones; it covers the checkpoint of every entry shown. *)
Theorem checkpoints_of_all_entries user allEntries :
  List.NoDup (checkpoints allEntries) /\
  (forall cp, In cp (checkpoints allEntries) <->
              exists e, In e allEntries /\ checkpoint_id e = cp) /\
  (forall lc ft cp term x, In x (filteredEntries lc user ft cp term allEntries) ->
             In (checkpoint_id x) (checkpoints allEntries)).
Proof.
  assert (forall cp, In cp (checkpoints allEntries) <->
              exists e, In e allEntries /\ checkpoint_id e = cp) as H.
  { intros cp. unfold checkpoints. rewrite uniqueInOrder_In, in_map_iff. cbn.
    split; [intros [(e & H1 & H2) _]; eauto | intros (e & H1 & H2); eauto]. }
  split; [apply uniqueInOrder_NoDup|]. split; [exact H|].
  intros lc ft cp term x Hx. apply H. exists x. split; [|reflexivity].
  unfold filteredEntries in Hx. apply filter_In in Hx as [Hx _]. revert Hx.
  unfold visibleEntries. destruct user as [u|]; [|intros []].
  destruct (role u), (managed_operators u); cbn; try tauto.
  rewrite filter_In. tauto.
Qed.


(** ** The session *)

(** X19: after [logout] the user is not authenticated, the storage holds none of the three keys, and restoring the session, in the same page or after a reload, does not authenticate. *)
Theorem logout_ends_session a ls :
  isAuthenticated (logout a ls).1 = false /\
  (logout a ls).2 = noStorage /\
  isAuthenticated (restoreSession authInit (logout a ls).2).1 = false /\
  isAuthenticated (restoreSession (logout a ls).1 (logout a ls).2).1 = false /\
  (restoreSession authInit (logout a ls).2).2 = noStorage.
Proof. repeat split. Qed.



(** X21: the mount effect authenticates exactly when the storage holds a token that is not empty and a saved user; it always ends the loading state; when the saved user does not parse, the three keys are removed, the user stays absent, and the token state keeps the saved token, set before the parse failed; in every other case the storage is left as it is. *)
Theorem restoreSession_authenticates_saved_pair ls :
  (isAuthenticated (restoreSession authInit ls).1 = true <->
   exists t u, ls_token ls = Some t /\ truthy t = true /\ ls_user ls = Some (UserJson u)) /\
  auth_loading (restoreSession authInit ls).1 = false /\
  (forall t text, ls_token ls = Some t -> truthy t = true ->
     ls_user ls = Some (NotJson text) -> truthy text = true ->
     (restoreSession authInit ls).2 = noStorage /\
     auth_token (restoreSession authInit ls).1 = Some t /\
     auth_user (restoreSession authInit ls).1 = None) /\
  ((forall text, ls_user ls <> Some (NotJson text)) -> (restoreSession authInit ls).2 = ls).
Proof.
  unfold restoreSession, isAuthenticated.
  destruct (ls_token ls) as [t|] eqn:Et; destruct (ls_user ls) as [s|] eqn:Es;
    cbn [fst snd auth_user auth_token auth_loading authInit].
  2-4: (split; [split; [discriminate | intros (t' & u & H1 & H2 & H3); discriminate] |];
        split; [reflexivity|]; split; [intros; discriminate | reflexivity]).
  destruct (truthy t) eqn:Ht; cbn [andb].
  2:{ cbn [fst snd auth_user auth_token auth_loading authInit].
      split; [split; [discriminate | intros (t' & u & [= <-] & H2 & H3); congruence] |].
      split; [reflexivity|]. split; [intros t' text [= <-]; congruence | reflexivity]. }
  destruct s as [u| |text]; cbn [storedTruthy].
  - cbn [fst snd auth_user auth_token auth_loading]. rewrite Ht.
    split; [split; [intros _; exists t, u; auto | reflexivity] |].
    split; [reflexivity|]. split; [intros; discriminate | reflexivity].
  - cbn [fst snd auth_user auth_token auth_loading].
    split; [split; [discriminate | intros (t' & u & _ & _ & H3); discriminate] |].
    split; [reflexivity|]. split; [intros; discriminate | reflexivity].
  - destruct (truthy text) eqn:Htx; cbn [fst snd auth_user auth_token auth_loading authInit].
    + split; [split; [discriminate | intros (t' & u & _ & _ & H3); discriminate] |].
      split; [reflexivity|]. split; [intros; auto|].
      intros H. exfalso. apply (H text). reflexivity.
    + split; [split; [discriminate | intros (t' & u & _ & _ & H3); discriminate] |].
      split; [reflexivity|]. split; [intros t' text' _ _ [= <-]; congruence | reflexivity].
Qed.

(** ** Navigation *)

(** X22: every navigation item shown to a user leads to a page registered for that user, and so does the default route, which is one of the user's navigation items; [/admin] is registered for administrators only and [/supervisor] for all but gate operators; [/search] is registered for a gate operator although their navigation does not show it. *)
Theorem navigation_within_routes u :
  (forall item, In item (navItems (Some u)) -> In item.1.1 (pageRoutes (Some u))) /\
  In (getDefaultRoute (Some u)) (List.map (fun item => item.1.1) (navItems (Some u))) /\
  In (getDefaultRoute None) (pageRoutes None) /\
  navItems None = [] /\
  (In "/admin" (pageRoutes (Some u)) <-> role u = ADMIN) /\
  (In "/supervisor" (pageRoutes (Some u)) <-> role u <> GATE_OPERATOR) /\
  (role u = GATE_OPERATOR ->
   In "/search" (pageRoutes (Some u)) /\
   ~ In "/search" (List.map (fun item => item.1.1) (navItems (Some u)))).
Proof.
  unfold navItems, pageRoutes, getDefaultRoute.
  destruct (role u) eqn:Hr; cbn; intuition (try congruence; subst; cbn; auto 10).
Qed.

(** ** The earlier synchronisation *)

Lemma pendingFlag_markSynced e : pendingFlag (markSynced e) = false.
Proof. reflexivity. Qed.

(** X23: the earlier, local synchronisation keeps the ids and their order; offline or during a run it changes nothing; otherwise nothing is pending after it, or, when it is given an id, the pending entries lose those of that id and no other; it is idempotent. *)
Theorem mockSync_clears_pending online syncing arg es :
  List.map record_id (mockSync online syncing arg es) = List.map record_id es /\
  (online = false \/ syncing = true -> mockSync online syncing arg es = es) /\
  (online = true -> syncing = false ->
   pendingEntries (mockSync online syncing arg es)
   = match arg with
     | Some id => if truthy id
                  then List.filter (fun e => negb (hasId id e)) (pendingEntries es)
                  else []
     | None => []
     end) /\
  mockSync online syncing arg (mockSync online syncing arg es)
  = mockSync online syncing arg es.
Proof.
  assert (forall l, pendingEntries (List.map markSynced l) = []) as Hall.
  { induction l as [|x l IH]; [reflexivity|]. exact IH. }
  assert (forall id l,
            pendingEntries (List.map (fun e => if record_id e =? id then markSynced e else e) l)
            = List.filter (fun e => negb (hasId id e)) (pendingEntries l)) as Hone.
  { intros id. induction l as [|x l IH]; [reflexivity|].
    unfold pendingEntries in *. cbn [List.map].
    assert (hasId id x = (record_id x =? id)) as Eh by reflexivity.
    destruct (record_id x =? id) eqn:E.
    - cbn [List.filter]. rewrite pendingFlag_markSynced.
      destruct (pendingFlag x); cbn [List.filter]; rewrite ?Eh; exact IH.
    - cbn [List.filter].
      destruct (pendingFlag x); cbn [List.filter]; rewrite ?Eh; cbn [negb];
        [f_equal|]; exact IH. }
  assert (forall id l,
            List.map (fun e => if record_id e =? id then markSynced e else e)
              (List.map (fun e => if record_id e =? id then markSynced e else e) l)
            = List.map (fun e => if record_id e =? id then markSynced e else e) l) as Hid.
  { intros id l. rewrite List.map_map. apply map_ext. intros x.
    destruct (record_id x =? id) eqn:E; [|rewrite E; reflexivity].
    change (record_id (markSynced x)) with (record_id x). rewrite E. reflexivity. }
  unfold mockSync. split; [|split; [|split]].
  - destruct (negb online || syncing); [reflexivity|].
    destruct arg as [id|]; [destruct (truthy id)|]; rewrite List.map_map;
      apply map_ext; intros x; try reflexivity.
    destruct (record_id x =? id); reflexivity.
  - intros [-> | ->]; [reflexivity | rewrite orb_true_r; reflexivity].
  - intros -> ->. cbn [negb orb].
    destruct arg as [id|]; [destruct (truthy id)|]; auto.
  - destruct (negb online || syncing); [reflexivity|].
    destruct arg as [id|]; [destruct (truthy id)|]; auto;
      rewrite List.map_map; apply map_ext; reflexivity.
Qed.

(** ** Sequences of actions *)

Lemma keyed_handleLogEntry user t f p r w :
  keyed (db_entries (db w)) -> keyed (db_entries (db (handleLogEntry user t f p r w))).
Proof.
  intros Hk. destruct user as [u|]; [|exact Hk]. destruct r as [[]|e]; [|exact Hk].
  cbn. apply keyed_saveEntry, Hk.
Qed.


Lemma act_invariant a w :
  freshLogs [a] w = true ->
  consistent w /\ keyed (db_entries (db w)) ->
  consistent (act w a) /\ keyed (db_entries (db (act w a))).
Proof.
  intros Hf [Hc Hk]. destruct a as [env arg|user t f p r|r r']; cbn [act].
  - split; [apply run_consistent, Hc | apply keyed_run, Hk].
  - split; [|apply keyed_handleLogEntry, Hk].
    destruct user as [u|]; [|exact Hc]. destruct r as [[]|e]; [|exact Hc].
    apply handleLogEntry_consistent_fresh; [exact Hc|].
    cbn in Hf. rewrite andb_true_r in Hf. apply negb_true_iff, Hf.
  - split; [|rewrite db_loadEntriesFromDB; exact Hk].
    destruct r as [[]|e]; [apply load_consistent, Hk | exact Hc].
Qed.

(** X24: any sequence of runs, logged entries (each under an id the state does not hold) and reloads, one after the other and whatever the outcome of each call, takes a consistent world over a keyed store to a consistent world over a keyed store, and no key leaves the store. *)
Theorem actions_keep_state_backed_by_store acts w :
  consistent w -> keyed (db_entries (db w)) -> freshLogs acts w = true ->
  consistent (runActions acts w) /\ keyed (db_entries (db (runActions acts w))) /\
  (forall id, is_Some (db_entries (db w) !! id) ->
              is_Some (db_entries (db (runActions acts w)) !! id)).
Proof.
  revert w. induction acts as [|a acts IH]; intros w Hc Hk Hf.
  - cbn. auto.
  - cbn [freshLogs] in Hf. apply andb_true_iff in Hf as [Ha Hrest].
    assert (freshLogs [a] w = true) as Ha' by (cbn [freshLogs]; rewrite Ha; reflexivity).
    destruct (act_invariant a w Ha' (conj Hc Hk)) as [Hc' Hk'].
    destruct (IH (act w a) Hc' Hk' Hrest) as (H1 & H2 & H3).
    unfold runActions in *. cbn [foldl]. split; [exact H1|]. split; [exact H2|].
    intros id Hid. apply H3.
    destruct a as [env arg|user t f p r|r r']; cbn [act].
    + destruct (run_cases env arg w)
        as [(_ & _ & Hd) | (pr & pl & _ & _ & _ & _ & _ & Hd & _)]; rewrite Hd;
        [exact Hid | apply saveEntries_keeps, Hid].
    + destruct user as [u|]; [|exact Hid]. destruct r as [[]|e]; [|exact Hid].
      cbn. unfold saveEntry.
      destruct (String.eqb_spec (uuid f) id) as [->|Hne].
      * rewrite lookup_insert_eq. eexists; reflexivity.
      * rewrite lookup_insert_ne by exact Hne. exact Hid.
    + rewrite db_loadEntriesFromDB. exact Hid.
Qed.

Lemma actions_keep_state_backed_by_store_witness :
  consistent (runActions
    [DoLog (Some operator1) CAR fresh2 carPayload (Fulfilled tt);
     DoSync (envOk 1000 (pushReply 2 0 None) (pullReply [])) None;
     DoReload (Fulfilled tt) (Fulfilled tt)]
    (clientWith [r1] None)).
Proof.
  refine (proj1 (actions_keep_state_backed_by_store _ (clientWith [r1] None) _ _ _)).
  - apply clientWith_consistent. repeat constructor. intros [].
  - apply keyed_clientWith.
  - vm_compute. reflexivity.
Defined.

(** ** Mounting again *)

(** X25: after a run that commits, the watermark of the state is the time of the run; a component mounted afterwards over the same database starts from that time when the watermark was written, and from the watermark persisted before the run when that write failed. *)
Theorem watermark_after_remount env arg w pr pl online tok :
  existsb isPush (callsOf (runSync env arg w)) = true ->
  push_reply env = Fulfilled pr -> pull_reply env = Fulfilled pl ->
  saveEntries_reply env = Fulfilled tt ->
  lastSyncTime (comp (finalWorld (runSync env arg w))) = Some (clock env) /\
  (setAppState_reply env = Fulfilled tt ->
   lastSyncTime (comp (mount online tok (Fulfilled tt) (Fulfilled tt)
                         (db (finalWorld (runSync env arg w))))) = Some (clock env)) /\
  (forall e, setAppState_reply env = Rejected e ->
   lastSyncTime (comp (mount online tok (Fulfilled tt) (Fulfilled tt)
                         (db (finalWorld (runSync env arg w)))))
     = getAppState "lastSyncTime" (db w)).
Proof.
  intros Hcalled Hpush Hpull Hsave.
  destruct (push_called _ _ _ Hcalled) as [Hg Hb].
  destruct (guardBlocks_false _ Hg) as (tok' & Htok & _).
  destruct (setAppState_reply env) as [[]|e] eqn:Hput.
  - rewrite (run_complete env arg w tok' Htok Hg Hb pr Hpush pl Hpull Hsave Hput).
    unfold finalWorld. cbn [fst snd comp db].
    split; [destruct (rejectionWarning pr); reflexivity|].
    split; [intros _ | intros e; discriminate].
    unfold mount, loadEntriesFromDB, getAppState, setAppState.
    cbn [db db_appState]. rewrite lookup_insert_eq. reflexivity.
  - rewrite (run_put_rejected env arg w tok' Htok Hg Hb pr Hpush pl Hpull Hsave e Hput).
    unfold finalWorld. cbn [fst snd comp db].
    split; [reflexivity|]. split; [discriminate | intros e' _].
    unfold mount, loadEntriesFromDB, getAppState. cbn [db db_appState commitEntries].
    destruct (db_appState (db w) !! "lastSyncTime"); reflexivity.
Qed.

Lemma watermark_after_remount_witness :
  lastSyncTime (comp (finalWorld
     (runSync (envOk 1000 (pushReply 1 0 None) (pullReply [])) None
              (clientWith [r1] None)))) = Some 1000%Z.
Proof.
  exact (proj1 (watermark_after_remount
                  (envOk 1000 (pushReply 1 0 None) (pullReply [])) None
                  (clientWith [r1] None) (pushReply 1 0 None) (pullReply []) true None
                  eq_refl eq_refl eq_refl eq_refl)).
Defined.

(** X26: an entry logged under a fresh id while a run is suspended is missing from the list the run's commit sets, and is back after the next mount, which reads it from the store. *)
Theorem entry_logged_during_run_recovered w now arg n env pr pl online tok r :
  running (step (Invoke now arg) (idle w)) <> [] ->
  existsb (hasId (record_id n)) (entries (comp w)) = false ->
  push_reply env = Fulfilled pr -> pull_reply env = Fulfilled pl ->
  existsb (hasId (record_id n)) (default [] (pull_entries pl)) = false ->
  saveEntries_reply env = Fulfilled tt -> setAppState_reply env = Fulfilled tt ->
  ~ In n (entries (comp (world (runEvents
      ([Invoke now arg; LogEntry n] ++ repeat (Settle 0 env) 4)
      (idle w))))) /\
  In n (entries (comp (mount online tok (Fulfilled tt) r (db (world (runEvents
      ([Invoke now arg; LogEntry n] ++ repeat (Settle 0 env) 4)
      (idle w))))))).
Proof.
  intros Hrun Hfresh Hpush Hpull Hnp Hsave Hput.
  destruct (entry_logged_during_run w now arg n env pr pl
              Hrun Hfresh Hpush Hpull Hnp Hsave Hput) as [Hstore Hstate].
  split.
  - intros Hin.
    assert (existsb (hasId (record_id n)) (entries (comp (world (runEvents
      ([Invoke now arg; LogEntry n] ++ repeat (Settle 0 env) 4)
      (idle w))))) = true) as Ht
        by (apply existsb_hasId_In; exists n; auto).
    congruence.
  - unfold mount. rewrite entries_loadEntriesFromDB. cbn [db].
    apply In_getAllEntries. exists (record_id n). exact Hstore.
Qed.

Lemma entry_logged_during_run_recovered_witness :
  In (sampleEntry "r2" (Some true) "second")
     (entries (comp (mount true (Some "jwt") (Fulfilled tt) (Fulfilled tt) (db (world (runEvents
        ([Invoke 1000 None; LogEntry (sampleEntry "r2" (Some true) "second")]
           ++ repeat (Settle 0 (envOk 1001 (pushReply 1 0 None) (pullReply []))) 4)
        (idle (clientWith [r1] None)))))))).
Proof.
  refine (proj2 (entry_logged_during_run_recovered (clientWith [r1] None) 1000 None
                   (sampleEntry "r2" (Some true) "second")
                   (envOk 1001 (pushReply 1 0 None) (pullReply []))
                   (pushReply 1 0 None) (pullReply []) true (Some "jwt") (Fulfilled tt)
                   _ eq_refl eq_refl eq_refl eq_refl eq_refl eq_refl)).
  vm_compute. discriminate.
Defined.

(** ** A logged entry *)

(** X27: a logged entry is pending after a mount over the database it was saved to, which enables the sync button of an online client; its checkpoint is never the empty string; when saving it fails, neither the entries nor the database change. *)
Theorem logged_entry_survives_remount u t f p w online tok r :
  In (newEntryOf u t f p)
     (pendingEntries (entries (comp (mount online tok (Fulfilled tt) r
        (db (handleLogEntry (Some u) t f p (Fulfilled tt) w)))))) /\
  isSyncButtonDisabled (comp (mount true tok (Fulfilled tt) r
        (db (handleLogEntry (Some u) t f p (Fulfilled tt) w)))) = false /\
  checkpoint_id (newEntryOf u t f p) <> "" /\
  (forall e, db (handleLogEntry (Some u) t f p (Rejected e) w) = db w /\
             entries (comp (handleLogEntry (Some u) t f p (Rejected e) w))
               = entries (comp w)).
Proof.
  assert (forall o, In (newEntryOf u t f p)
     (pendingEntries (entries (comp (mount o tok (Fulfilled tt) r
        (db (handleLogEntry (Some u) t f p (Fulfilled tt) w))))))) as Hin.
  { intros o. unfold mount. rewrite entries_loadEntriesFromDB. cbn [db handleLogEntry].
    unfold pendingEntries. apply filter_In. split; [|reflexivity].
    apply In_getAllEntries. exists (uuid f). cbn. unfold saveEntry.
    apply lookup_insert_eq. }
  split; [apply Hin|]. split; [|split; [|intros e; split; reflexivity]].
  - specialize (Hin true). unfold isSyncButtonDisabled.
    assert (isOnline (comp (mount true tok (Fulfilled tt) r
              (db (handleLogEntry (Some u) t f p (Fulfilled tt) w)))) = true
            /\ isSyncing (comp (mount true tok (Fulfilled tt) r
              (db (handleLogEntry (Some u) t f p (Fulfilled tt) w)))) = false) as [-> ->].
    { unfold mount, loadEntriesFromDB.
      destruct r; [destruct (getAppState _ _)|]; split; reflexivity. }
    destruct (pendingEntries _); [destruct Hin | reflexivity].
  - cbn. unfold firstCheckpoint.
    destruct (allowed_checkpoints u) as [[|cp cps]|]; try discriminate.
    destruct (truthy cp) eqn:E; [apply truthy_true, E | discriminate].
Qed.

(** X28: an entry a user logged is on that user's dashboard unless the user is a supervisor who is not among the operators they manage; it is on the supervisor dashboard for an administrator and for a supervisor who manages themselves, and for nobody else. *)
Theorem own_entry_on_dashboard u t f p allEntries :
  In (newEntryOf u t f p) allEntries ->
  (In (newEntryOf u t f p) (dashboardEntries (Some u) allEntries) <->
   role u <> SUPERVISOR \/
   exists ops, managed_operators u = Some ops /\ In (user_id u) ops) /\
  (In (newEntryOf u t f p) (visibleEntries (Some u) allEntries) <->
   role u = ADMIN \/
   role u = SUPERVISOR /\ exists ops, managed_operators u = Some ops /\ In (user_id u) ops).
Proof.
  intros Hin. unfold dashboardEntries, visibleEntries.
  destruct (role u) eqn:Hr.
  - split; (split; [intros _; left; congruence | intros _; exact Hin]).
  - destruct (managed_operators u) as [ops|].
    + rewrite filter_In, existsb_eqb_In. cbn [logging_user_id newEntryOf].
      split; split.
      * intros [_ H]. right. eauto.
      * intros [H|(ops' & Heq & H0)]; [congruence|]. injection Heq as <-. auto.
      * intros [_ H]. right. eauto.
      * intros [H|(_ & ops' & Heq & H0)]; [congruence|]. injection Heq as <-. auto.
    + split; split.
      * intros [].
      * intros [H|(ops & H & _)]; congruence.
      * intros [].
      * intros [H|(_ & ops & H & _)]; congruence.
  - split; split.
    + intros _. left. congruence.
    + intros _. destruct (managed_operators u); apply filter_In; split; auto;
        apply String.eqb_refl.
    + destruct (managed_operators u); intros [].
    + intros [H|[H _]]; congruence.
Qed.

Lemma own_entry_on_dashboard_witness :
  In (newEntryOf operator1 CAR fresh2 carPayload)
     (dashboardEntries (Some operator1) [newEntryOf operator1 CAR fresh2 carPayload]).
Proof.
  apply (proj1 (own_entry_on_dashboard operator1 CAR fresh2 carPayload
                  [newEntryOf operator1 CAR fresh2 carPayload] (or_introl eq_refl))).
  left. discriminate.
Defined.

(** ** The last write of a run *)

Lemma watermark_write_failure_keeps_commit_witness :
  entries (comp (finalWorld
     (runSync {| clock := 1000; push_reply := Fulfilled (pushReply 1 0 None);
                 pull_reply := Fulfilled (pullReply []);
                 saveEntries_reply := Fulfilled tt;
                 setAppState_reply := Rejected (ThrownError "QuotaExceededError") |}
              None (clientWith [r1] None))))
  = [markSynced r1].
Proof.
  exact (proj1 (watermark_write_failure_keeps_commit
                  {| clock := 1000; push_reply := Fulfilled (pushReply 1 0 None);
                     pull_reply := Fulfilled (pullReply []);
                     saveEntries_reply := Fulfilled tt;
                     setAppState_reply := Rejected (ThrownError "QuotaExceededError") |}
                  None (clientWith [r1] None) (pushReply 1 0 None) (pullReply [])
                  (ThrownError "QuotaExceededError")
                  eq_refl eq_refl eq_refl eq_refl eq_refl)).
Defined.
